(** * Wordfeud helper: the search core, embedded and verified

    A shallow embedding of the matching, scoring and ranking code of the
    Danish Wordfeud helper:

    - [Utils]          src/js/utils.js        (parseLetters, canFormWord, ...)
    - [Scoring]        src/js/scoring.js      (LETTER_VALUES, scoreWord)
    - [SearchEngine]   src/js/searchEngine.js (searchWords, filters, sorting)
    - [SearchWorker]   searchWorker.js        (the worker's own copies)

    JavaScript values are modelled as follows.  A string is the list of its
    UTF-16 code units; all text handled by the program (the Danish alphabet,
    the wildcard symbols, the pattern symbols) lies in the Basic Multilingual
    Plane, where [for (const ch of s)], [s[i]] and [s.length] agree on what a
    character is.  Numbers that the program only counts with are integers
    ([Z]); comparator results are exact rationals ([Q]), of which [sort] only
    reads the sign (the one quotient the program compares, score by length,
    is of two small integers, so that doubles order it as the rationals do).
    A [Map] is an association list in insertion order, a [Set] a list of
    members.  [console] output and [elapsedMs] are diagnostics and are left
    out. *)

From Stdlib Require Import ZArith List Bool String Ascii Lia.
From Stdlib Require Import Permutation Sorted QArith.
Import ListNotations.
Open Scope Z_scope.

(** ** The JavaScript runtime *)

Definition char := Z.
Definition jsstring := list char.

Module Js.

(** Source text of this file is UTF-8; [str] turns a literal into code
    units (one-, two- and three-byte sequences, i.e. the whole BMP). *)
Fixpoint decode (bytes : list Z) : jsstring :=
  match bytes with
  | [] => []
  | b1 :: rest =>
      if b1 <? 128 then b1 :: decode rest
      else match rest with
           | [] => [b1]
           | b2 :: rest2 =>
               if b1 <? 224 then ((b1 - 192) * 64 + (b2 - 128)) :: decode rest2
               else match rest2 with
                    | [] => [b1; b2]
                    | b3 :: rest3 =>
                        ((b1 - 224) * 4096 + (b2 - 128) * 64 + (b3 - 128))
                          :: decode rest3
                    end
           end
  end.

Definition str (s : string) : jsstring :=
  decode (map (fun a => Z.of_N (N_of_ascii a)) (list_ascii_of_string s)).

Fixpoint eqb (a b : jsstring) : bool :=
  match a, b with
  | [], [] => true
  | x :: a', y :: b' => (x =? y) && eqb a' b'
  | _, _ => false
  end.

(** [!s] on a string: only the empty string is falsy. *)
Definition falsy (s : jsstring) : bool :=
  match s with [] => true | _ => false end.

Definition length (s : jsstring) : Z := Z.of_nat (List.length s).

(** [arr.includes(x)] / [str.includes(ch)] for a single character. *)
Definition includes (xs : list char) (x : char) : bool :=
  existsb (Z.eqb x) xs.

(** [str.indexOf(ch)] for a single character: first position or -1. *)
Fixpoint indexOfFrom (i : Z) (xs : list char) (x : char) : Z :=
  match xs with
  | [] => -1
  | y :: ys => if x =? y then i else indexOfFrom (i + 1) ys x
  end.

Definition indexOf (xs : list char) (x : char) : Z := indexOfFrom 0 xs x.

(** WhiteSpace and LineTerminator code units: what [trim] strips and what
    [\s] matches. *)
Definition isWhiteSpace (c : char) : bool :=
  ((9 <=? c) && (c <=? 13)) || (c =? 32) || (c =? 160) || (c =? 5760)
  || ((8192 <=? c) && (c <=? 8202)) || (c =? 8232) || (c =? 8233)
  || (c =? 8239) || (c =? 8287) || (c =? 12288) || (c =? 65279).

Fixpoint trimStart (s : jsstring) : jsstring :=
  match s with
  | [] => []
  | c :: r => if isWhiteSpace c then trimStart r else s
  end.

Definition trim (s : jsstring) : jsstring :=
  rev (trimStart (rev (trimStart s))).

(** [s.replace(/\s+/g, ' ')]: every maximal run of white space becomes one
    space.  [inRun] tells whether the previous unit was white space. *)
Fixpoint collapseFrom (inRun : bool) (s : jsstring) : jsstring :=
  match s with
  | [] => []
  | c :: r =>
      if isWhiteSpace c
      then (if inRun then collapseFrom true r else 32 :: collapseFrom true r)
      else c :: collapseFrom false r
  end.

Definition collapseWhiteSpace (s : jsstring) : jsstring := collapseFrom false s.

(** [.] of a regular expression without the [s] flag rejects line
    terminators. *)
Definition isLineTerminator (c : char) : bool :=
  (c =? 10) || (c =? 13) || (c =? 8232) || (c =? 8233).

(** [x || 0] on the result of [Map.get]: [undefined] and [0] both give 0. *)
Definition orZero (v : option Z) : Z :=
  match v with Some n => n | None => 0 end.

(** [!x] on the result of [Map.get]. *)
Definition absent (v : option Z) : bool :=
  match v with Some n => n =? 0 | None => true end.

(** [Array.prototype.sort(cmp)].  The sort is stable, and for a consistent
    comparator its result is the stable sorted arrangement, which insertion
    from the right computes: an element moves behind a later one only when
    the comparator is positive on the pair. *)
Section Sort.
Context {A : Type}.
Variable cmp : A -> A -> Q.

Definition positive (q : Q) : bool := negb (Qle_bool q 0).

Fixpoint insert (x : A) (l : list A) : list A :=
  match l with
  | [] => [x]
  | y :: l' => if positive (cmp x y) then y :: insert x l' else x :: l
  end.

Definition sort (l : list A) : list A := fold_right insert [] l.
End Sort.

(** The default comparator of [sort()]: strings by code units. *)
Fixpoint compareUnits (a b : jsstring) : Q :=
  match a, b with
  | [], [] => 0
  | [], _ :: _ => inject_Z (-1)
  | _ :: _, [] => inject_Z 1
  | x :: a', y :: b' =>
      if x <? y then inject_Z (-1)
      else if y <? x then inject_Z 1
      else compareUnits a' b'
  end.

(** A [Set] of strings, by insertion. *)
Definition setHas (s : list jsstring) (x : jsstring) : bool := existsb (eqb x) s.
Definition setAdd (s : list jsstring) (x : jsstring) : list jsstring :=
  if setHas s x then s else s ++ [x].

End Js.

(** [String.prototype.toUpperCase] follows the Unicode case tables, which are
    not reproduced here: the development is parametric in it. *)
Class CaseMapping := { toUpperCase : jsstring -> jsstring }.

(** The case mapping on Basic Latin and Latin-1 (exact there, sharp s and
    y-diaeresis included); other code units are left as they are.  Used to
    run the program on concrete inputs. *)
Definition upperUnit (c : char) : jsstring :=
  if (97 <=? c) && (c <=? 122) then [c - 32]
  else if c =? 181 then [924]
  else if c =? 223 then [83; 83]
  else if c =? 247 then [c]
  else if c =? 255 then [376]
  else if (224 <=? c) && (c <=? 254) then [c - 32]
  else [c].

Definition latin1 : CaseMapping := {| toUpperCase := flat_map upperUnit |}.

(** A [Map] from characters to counts, in insertion order. *)
Module JsMap.

Definition t := list (char * Z).

Definition empty : t := [].

Fixpoint get (m : t) (k : char) : option Z :=
  match m with
  | [] => None
  | (k', v) :: r => if k =? k' then Some v else get r k
  end.

(** [set] keeps the position of a key that is present and appends a new
    one. *)
Fixpoint set (m : t) (k : char) (v : Z) : t :=
  match m with
  | [] => [(k, v)]
  | (k', v') :: r => if k =? k' then (k', v) :: r else (k', v') :: set r k v
  end.

Definition size (m : t) : Z := Z.of_nat (List.length m).

Definition keys (m : t) : list char := map fst m.

End JsMap.

(** ** utils.js *)

Module Utils.

(** Valid wildcard characters: [['?', '_', '*', ' ']]. *)
Definition WILDCARD_CHARS : list char := [63; 95; 42; 32].

(** ['ABCDEFGHIJKLMNOPQRSTUVWXYZÆØÅ'] *)
Definition DANISH_ALPHABET : jsstring :=
  [65; 66; 67; 68; 69; 70; 71; 72; 73; 74; 75; 76; 77; 78; 79; 80; 81; 82;
   83; 84; 85; 86; 87; 88; 89; 90; 198; 216; 197].

(** The record returned by the formability checks. *)
Record formResult := {
  canForm : bool;
  wildcardsUsed : Z;
  usedUserLetters : bool
}.

Record parsed := {
  letterCounts : JsMap.t;
  wildcards : Z
}.

(** [canFormWord(word, availableLetters, availableWildcards)] *)
Definition canFormWord (word : jsstring) (availableLetters : JsMap.t)
    (availableWildcards : Z) : formResult :=
  (* Count letters in the word *)
  let wordLetters :=
    fold_left
      (fun wordLetters letter =>
         JsMap.set wordLetters letter
           (Js.orZero (JsMap.get wordLetters letter) + 1))
      word JsMap.empty in
  (* Check if we have enough of each letter *)
  let '(wildcardsNeeded, usedUserLetters) :=
    fold_left
      (fun '(wildcardsNeeded, usedUserLetters) '(letter, count) =>
         let available := Js.orZero (JsMap.get availableLetters letter) in
         let shortfall := count - available in
         (if shortfall >? 0 then wildcardsNeeded + shortfall
          else wildcardsNeeded,
          if available >? 0 then true else usedUserLetters))
      wordLetters (0, false) in
  (* Jokers should also count as "my letters" *)
  let usedUserLetters :=
    if wildcardsNeeded >? 0 then true else usedUserLetters in
  let canForm := wildcardsNeeded <=? availableWildcards in
  {| canForm := canForm;
     wildcardsUsed := if canForm then wildcardsNeeded else 0;
     usedUserLetters := usedUserLetters |}.

(** [canFormWordWithExtras(word, availableLetters, availableWildcards,
    extraLetters)]; [None] is an [extraLetters] that was not given. *)
Definition canFormWordWithExtras (word : jsstring)
    (availableLetters : JsMap.t) (availableWildcards : Z)
    (extraLetters : option JsMap.t) : formResult :=
  let wordLetters :=
    fold_left
      (fun wordLetters letter =>
         JsMap.set wordLetters letter
           (Js.orZero (JsMap.get wordLetters letter) + 1))
      word JsMap.empty in
  (* Take the board letters off the word *)
  let wordLetters :=
    match extraLetters with
    | None => wordLetters
    | Some extra =>
        fold_left
          (fun wordLetters '(letter, extraCount) =>
             let current := JsMap.get wordLetters letter in
             if Js.absent current then wordLetters
             else
               let remaining := Js.orZero current - extraCount in
               JsMap.set wordLetters letter
                 (if remaining >? 0 then remaining else 0))
          extra wordLetters
    end in
  (* The rest must come from the rack and the jokers *)
  let '(wildcardsNeeded, usedUserLetters) :=
    fold_left
      (fun '(wildcardsNeeded, usedUserLetters) '(letter, count) =>
         if count =? 0 then (wildcardsNeeded, usedUserLetters)
         else
           let available := Js.orZero (JsMap.get availableLetters letter) in
           let shortfall := count - available in
           (if shortfall >? 0 then wildcardsNeeded + shortfall
            else wildcardsNeeded,
            if available >? 0 then true else usedUserLetters))
      wordLetters (0, false) in
  (* Jokers should also count as "my letters" *)
  let usedUserLetters :=
    if wildcardsNeeded >? 0 then true else usedUserLetters in
  let canForm := wildcardsNeeded <=? availableWildcards in
  {| canForm := canForm;
     wildcardsUsed := if canForm then wildcardsNeeded else 0;
     usedUserLetters := usedUserLetters |}.

Section WithCaseMapping.
Context `{CaseMapping}.

(** [normalizeString(str)]: trim, uppercase, collapse white space. *)
Definition normalizeString (str : jsstring) : jsstring :=
  if Js.falsy str then []
  else Js.collapseWhiteSpace (toUpperCase (Js.trim str)).

(** [parseLetters(lettersString)] *)
Definition parseLetters (lettersString : jsstring) : parsed :=
  let normalized := normalizeString lettersString in
  let '(letterCounts, wildcards) :=
    fold_left
      (fun '(letterCounts, wildcards) char =>
         if Js.includes WILDCARD_CHARS char
         then (letterCounts, wildcards + 1)
         else if negb (char =? 32) (* char !== ' ' *)
         then (JsMap.set letterCounts char
                 (Js.orZero (JsMap.get letterCounts char) + 1),
               wildcards)
         else (letterCounts, wildcards))
      normalized (JsMap.empty, 0) in
  {| letterCounts := letterCounts; wildcards := wildcards |}.

(** [buildExtraLettersFromPattern(pattern)]; [None] is a pattern that
    was not given. *)
Definition buildExtraLettersFromPattern (pattern : option jsstring)
    : JsMap.t :=
  match pattern with
  | None => JsMap.empty
  | Some pattern =>
      if Js.falsy pattern then JsMap.empty
      else
        fold_left
          (fun extra ch =>
             if Js.includes DANISH_ALPHABET ch
             then JsMap.set extra ch (Js.orZero (JsMap.get extra ch) + 1)
             else extra)
          (normalizeString pattern) JsMap.empty
  end.

(** [compareDanish(a, b)].  The loop returns at the first position where
    the alphabet indices differ; the lengths decide otherwise. *)
Fixpoint compareFrom (aUpper bUpper : jsstring) : option Z :=
  match aUpper, bUpper with
  | x :: a', y :: b' =>
      let aIndex := Js.indexOf DANISH_ALPHABET x in
      let bIndex := Js.indexOf DANISH_ALPHABET y in
      if negb (aIndex =? bIndex) then Some (aIndex - bIndex)
      else compareFrom a' b'
  | _, _ => None
  end.

Definition compareDanish (a b : jsstring) : Z :=
  let aUpper := toUpperCase a in
  let bUpper := toUpperCase b in
  match compareFrom aUpper bUpper with
  | Some d => d
  | None => Js.length aUpper - Js.length bUpper
  end.

(** The character class [[A-ZÆØÅ?_* ]] of [isValidInput]. *)
Definition validChar (c : char) : bool :=
  ((65 <=? c) && (c <=? 90)) || (c =? 198) || (c =? 216) || (c =? 197)
  || (c =? 63) || (c =? 95) || (c =? 42) || (c =? 32).

(** [isValidInput(str)]: [/^[A-ZÆØÅ?_* ]+$/.test(str.toUpperCase())] after
    the checks for an empty and for an overlong string. *)
Definition isValidInput (str : jsstring) : bool :=
  if Js.falsy str then false
  else if Js.length str >? 50 then false
  else
    let upper := toUpperCase str in
    negb (Js.falsy upper) && forallb validChar upper.

End WithCaseMapping.

End Utils.

(** The regular expressions that the program builds are sequences of [.],
    [.*] and escaped literal characters, tested between [^] and [$] without
    flags.  [escapeRegexChar] escapes every character that is special in a
    regular expression apart from [.] and [*], which never reach it, so each
    remaining character stands for itself. *)
Module RegExp.

Inductive atom :=
| AnyChar                (* [.]  *)
| AnyRun                 (* [.*] *)
| Literal (c : char).    (* [escapeRegexChar(ch)] *)

Definition dot (c : char) : bool := negb (Js.isLineTerminator c).

(** [new RegExp('^' + source + '$').test(s)] *)
Fixpoint test (source : list atom) (s : jsstring) {struct source} : bool :=
  match source with
  | [] => Js.falsy s
  | Literal c :: rest =>
      match s with
      | x :: s' => (x =? c) && test rest s'
      | [] => false
      end
  | AnyChar :: rest =>
      match s with
      | x :: s' => dot x && test rest s'
      | [] => false
      end
  | AnyRun :: rest =>
      (fix run (s : jsstring) : bool :=
         test rest s
         || match s with
            | x :: s' => dot x && run s'
            | [] => false
            end) s
  end.

End RegExp.

(** ** scoring.js *)

Module Scoring.

(** Wordfeud letter values. *)
Definition LETTER_VALUES : JsMap.t :=
  [(65, 1); (69, 1); (78, 1); (82, 1);
   (68, 2); (76, 2); (79, 2); (83, 2); (84, 2);
   (66, 3); (70, 3); (71, 3); (73, 3); (75, 3); (85, 3);
   (72, 4); (74, 4); (77, 4); (80, 4); (86, 4); (89, 4);
   (198, 4); (216, 4); (197, 4);
   (67, 8); (88, 8);
   (90, 9)].

(** [LETTER_VALUES[key] || 0]: the table has one-character keys only. *)
Definition valueOf (key : jsstring) : Z :=
  match key with
  | [c] => Js.orZero (JsMap.get LETTER_VALUES c)
  | _ => 0
  end.

Record letterPoint := { letter : char; points : Z }.

Definition noLetter : letterPoint := {| letter := 0; points := 0 |}.

Section WithCaseMapping.
Context `{CaseMapping}.

(** [getLetterValue(letter)] *)
Definition getLetterValue (letter : char) : Z :=
  let upper := toUpperCase [letter] in
  valueOf upper.

(** [scoreWord(word, jokersUsed)] *)
Definition scoreWord (word : jsstring) (jokersUsed : Z) : Z :=
  if Js.falsy word || (jokersUsed <? 0) then 0
  else
    let '(totalPoints, letterPoints) :=
      fold_left
        (fun '(totalPoints, letterPoints) letter =>
           let points := getLetterValue letter in
           (totalPoints + points,
            letterPoints ++ [{| letter := letter; points := points |}]))
        word (0, []) in
    if (jokersUsed >? 0) && (jokersUsed <=? Js.length word)
    then
      let letterPoints :=
        Js.sort (fun a b => inject_Z (points b - points a)) letterPoints in
      fold_left
        (fun totalPoints i =>
           totalPoints - points (nth i letterPoints noLetter))
        (seq 0 (Z.to_nat jokersUsed)) totalPoints
    else totalPoints.

(** The record returned by [getDetailedScore]; [letters] pairs each letter
    with its value. *)
Record detailedScore := {
  word : jsstring;
  letters : list (char * Z);
  baseScore : Z;
  jokersUsed : Z;
  jokerPenalty : Z;
  finalScore : Z
}.

(** [getDetailedScore(word, jokersUsed)] *)
Definition getDetailedScore (word : jsstring) (jokersUsed : Z)
    : detailedScore :=
  let letters := map (fun letter => (letter, getLetterValue letter)) word in
  let baseScore := fold_left (fun sum l => sum + snd l) letters 0 in
  let finalScore := scoreWord word jokersUsed in
  {| word := word;
     letters := letters;
     baseScore := baseScore;
     jokersUsed := jokersUsed;
     jokerPenalty := baseScore - finalScore;
     finalScore := finalScore |}.

End WithCaseMapping.

End Scoring.

(** ** searchEngine.js *)

Module SearchEngine.

Record filters := {
  boardPattern : option jsstring;
  lengthMode : option jsstring;
  exactLength : option Z;
  minLength : option Z;
  maxLength : option Z;
  sortBy : option jsstring
}.

(** [{}] *)
Definition noFilters : filters :=
  {| boardPattern := None; lengthMode := None; exactLength := None;
     minLength := None; maxLength := None; sortBy := None |}.

Record candidate := {
  word : jsstring;
  score : Z;
  length : Z;
  usedJokers : Z
}.

Record response := {
  results : list candidate;
  totalFound : Z
}.

Definition s_all : jsstring := Eval vm_compute in Js.str "all".
Definition s_exact : jsstring := Eval vm_compute in Js.str "exact".
Definition s_range : jsstring := Eval vm_compute in Js.str "range".
Definition s_score : jsstring := Eval vm_compute in Js.str "score".
Definition s_length : jsstring := Eval vm_compute in Js.str "length".
Definition s_alpha : jsstring := Eval vm_compute in Js.str "alpha".

(** [x || dflt] on an optional string: [undefined] and [''] give [dflt]. *)
Definition orString (x : option jsstring) (dflt : jsstring) : jsstring :=
  match x with
  | Some s => if Js.falsy s then dflt else s
  | None => dflt
  end.

(** [x ?? dflt] *)
Definition orNumber (x : option Z) (dflt : Z) : Z :=
  match x with Some n => n | None => dflt end.

(** [passesLengthFilter(length, filters)] *)
Definition passesLengthFilter (length : Z) (filters : filters) : bool :=
  let mode := orString (lengthMode filters) s_all in
  if Js.eqb mode s_all then (length >=? 2) && (length <=? 15)
  else if Js.eqb mode s_exact then
    match exactLength filters with
    | None => true
    | Some exact => length =? exact
    end
  else if Js.eqb mode s_range then
    let min := orNumber (minLength filters) 2 in
    let max := orNumber (maxLength filters) 15 in
    (length >=? min) && (length <=? max)
  else true.

(** The comparators of [sortResults]. *)
Definition byScore (a b : candidate) : Q :=
  if negb (score b =? score a) then inject_Z (score b - score a)
  else if negb (usedJokers a =? usedJokers b)
  then inject_Z (usedJokers a - usedJokers b)
  else
    let aEfficiency := (inject_Z (score a) / inject_Z (length a))%Q in
    let bEfficiency := (inject_Z (score b) / inject_Z (length b))%Q in
    (bEfficiency - aEfficiency)%Q.

Definition byLength (a b : candidate) : Q :=
  if negb (length b =? length a) then inject_Z (length b - length a)
  else inject_Z (score b - score a).

Definition byScoreOnly (a b : candidate) : Q := inject_Z (score b - score a).

(** The record returned by [validateFilters]. *)
Record validation := {
  valid : bool;
  error : option jsstring
}.

(** [x === 'literal'] on an optional string. *)
Definition isString (x : option jsstring) (literal : jsstring) : bool :=
  match x with
  | Some s => Js.eqb s literal
  | None => false
  end.

(** [x != null && (x < 2 || x > 15)] *)
Definition outOfBounds (x : option Z) : bool :=
  match x with
  | Some n => (n <? 2) || (n >? 15)
  | None => false
  end.

Definition invalid (message : string) : validation :=
  {| valid := false; error := Some (Js.str message) |}.

(** [validateFilters(filters)] *)
Definition validateFilters (filters : filters) : validation :=
  if isString (lengthMode filters) s_exact && outOfBounds (exactLength filters)
  then invalid "Præcis længde skal være mellem 2 og 15"
  else if isString (lengthMode filters) s_range
  then
    let min := minLength filters in
    let max := maxLength filters in
    if outOfBounds min
    then invalid "Min længde skal være mellem 2 og 15"
    else if outOfBounds max
    then invalid "Max længde skal være mellem 2 og 15"
    else
      match min, max with
      | Some min, Some max =>
          if min >? max
          then invalid "Min længde kan ikke være større end max længde"
          else {| valid := true; error := None |}
      | _, _ => {| valid := true; error := None |}
      end
  else {| valid := true; error := None |}.

Section WithCaseMapping.
Context `{CaseMapping}.

(** [matchesBoardPattern(wordUpper, pattern)] *)
Definition matchesBoardPattern (wordUpper pattern : jsstring) : bool :=
  let trimmed := toUpperCase (Js.trim pattern) in
  if Js.falsy trimmed then true
  else if Js.length trimmed >? 50 then false
  else
    let '(regexSource, wildcardCount) :=
      fold_left
        (fun '(regexSource, wildcardCount) ch =>
           if ch =? 46 (* '.' *)
           then (regexSource ++ [RegExp.AnyChar], wildcardCount + 1)
           else if ch =? 42 (* '*' *)
           then (regexSource ++ [RegExp.AnyRun], wildcardCount + 1)
           else if ch =? 32 (* ' ' *)
           then (regexSource, wildcardCount)
           else (regexSource ++ [RegExp.Literal ch], wildcardCount))
        trimmed ([], 0) in
    if wildcardCount >? 15 then false
    else RegExp.test regexSource wordUpper.

(** [passesFilters(word, filters)] *)
Definition passesFilters (word : jsstring) (filters : filters) : bool :=
  let wordUpper := toUpperCase word in
  let boardOk :=
    match boardPattern filters with
    | None => true
    | Some boardPattern =>
        if Js.falsy boardPattern then true
        else
          let pattern := Utils.normalizeString boardPattern in
          negb (negb (Js.falsy pattern)
                && negb (matchesBoardPattern wordUpper pattern))
    end in
  if negb boardOk then false
  else if negb (passesLengthFilter (Js.length word) filters) then false
  else true.

(** [sortResults(results, sortBy)] *)
Definition sortResults (results : list candidate) (sortBy : jsstring)
    : list candidate :=
  if Js.eqb sortBy s_score then Js.sort byScore results
  else if Js.eqb sortBy s_length then Js.sort byLength results
  else if Js.eqb sortBy s_alpha then
    Js.sort
      (fun a b => inject_Z (Utils.compareDanish (word a) (word b)))
      results
  else (* Default to score *) Js.sort byScoreOnly results.

(** [searchWords(lettersString, filters)]; [allWords] is what
    [getWordlist()] returns. *)
Definition searchWords (allWords : list jsstring)
    (lettersString : jsstring) (filters : filters) : response :=
  let parsed := Utils.parseLetters lettersString in
  let letterCounts := Utils.letterCounts parsed in
  let wildcards := Utils.wildcards parsed in
  let extraLetters :=
    Utils.buildExtraLettersFromPattern (boardPattern filters) in
  let '(results, seenWords) :=
    fold_left
      (fun '(results, seenWords) word =>
         let normalizedWord := Js.trim (toUpperCase word) in
         if Js.setHas seenWords normalizedWord then (results, seenWords)
         else
           let formed :=
             if JsMap.size extraLetters >? 0
             then Utils.canFormWordWithExtras word letterCounts wildcards
                    (Some extraLetters)
             else Utils.canFormWord word letterCounts wildcards in
           if negb (Utils.canForm formed) then (results, seenWords)
           else if negb (Utils.usedUserLetters formed)
           then (results, seenWords)
           else if negb (passesFilters word filters)
           then (results, seenWords)
           else
             let score :=
               Scoring.scoreWord word (Utils.wildcardsUsed formed) in
             (results ++ [{| word := word;
                             score := score;
                             length := Js.length word;
                             usedJokers := Utils.wildcardsUsed formed |}],
              Js.setAdd seenWords normalizedWord))
      allWords ([], []) in
  let results := sortResults results (orString (sortBy filters) s_score) in
  {| results := results;
     totalFound := Z.of_nat (List.length results) |}.

End WithCaseMapping.

End SearchEngine.

(** ** searchWorker.js

    The worker keeps its own copy of every function it uses.  Its module
    state ([wordlist], [wordSet]) is passed explicitly; a search that posts
    no message back yields [None]. *)

Module SearchWorker.

Import SearchEngine.

Definition LETTER_VALUES : JsMap.t :=
  [(65, 1); (69, 1); (78, 1); (82, 1);
   (68, 2); (76, 2); (79, 2); (83, 2); (84, 2);
   (66, 3); (70, 3); (71, 3); (73, 3); (75, 3); (85, 3);
   (72, 4); (74, 4); (77, 4); (80, 4); (86, 4); (89, 4);
   (198, 4); (216, 4); (197, 4);
   (67, 8); (88, 8);
   (90, 9)].

Definition WILDCARD_CHARS : list char := [63; 95; 42; 32].

Definition DANISH_ALPHABET : jsstring :=
  [65; 66; 67; 68; 69; 70; 71; 72; 73; 74; 75; 76; 77; 78; 79; 80; 81; 82;
   83; 84; 85; 86; 87; 88; 89; 90; 198; 216; 197].

Record state := {
  wordlist : list jsstring;
  wordSet : option (list jsstring)
}.

(** [let wordlist = []; let wordSet = null;] *)
Definition initial : state := {| wordlist := []; wordSet := None |}.

Record payload := {
  lettersString : jsstring;
  filters : SearchEngine.filters
}.

(** [canFormWordWithExtras(word, availableLetters, availableWildcards,
    extraLetters)] *)
Definition canFormWordWithExtras (word : jsstring)
    (availableLetters : JsMap.t) (availableWildcards : Z)
    (extraLetters : option JsMap.t) : Utils.formResult :=
  let wordLetters :=
    fold_left
      (fun wordLetters letter =>
         JsMap.set wordLetters letter
           (Js.orZero (JsMap.get wordLetters letter) + 1))
      word JsMap.empty in
  let wordLetters :=
    match extraLetters with
    | None => wordLetters
    | Some extra =>
        fold_left
          (fun wordLetters '(letter, extraCount) =>
             let current := JsMap.get wordLetters letter in
             if Js.absent current then wordLetters
             else
               let remaining := Js.orZero current - extraCount in
               JsMap.set wordLetters letter
                 (if remaining >? 0 then remaining else 0))
          extra wordLetters
    end in
  let '(wildcardsNeeded, usedUserLetters) :=
    fold_left
      (fun '(wildcardsNeeded, usedUserLetters) '(letter, count) =>
         if count =? 0 then (wildcardsNeeded, usedUserLetters)
         else
           let available := Js.orZero (JsMap.get availableLetters letter) in
           let shortfall := count - available in
           (if shortfall >? 0 then wildcardsNeeded + shortfall
            else wildcardsNeeded,
            if available >? 0 then true else usedUserLetters))
      wordLetters (0, false) in
  let canForm := wildcardsNeeded <=? availableWildcards in
  {| Utils.canForm := canForm;
     Utils.wildcardsUsed := if canForm then wildcardsNeeded else 0;
     Utils.usedUserLetters := usedUserLetters |}.

(** [canFormWord(word, availableLetters, availableWildcards,
    extraLetters = null)] *)
Definition canFormWord (word : jsstring) (availableLetters : JsMap.t)
    (availableWildcards : Z) (extraLetters : option JsMap.t)
    : Utils.formResult :=
  let wordLetters :=
    fold_left
      (fun wordLetters letter =>
         JsMap.set wordLetters letter
           (Js.orZero (JsMap.get wordLetters letter) + 1))
      word JsMap.empty in
  let wordLetters :=
    match extraLetters with
    | None => wordLetters
    | Some extra =>
        fold_left
          (fun wordLetters '(letter, extraCount) =>
             let current := JsMap.get wordLetters letter in
             if Js.absent current then wordLetters
             else
               let remaining := Js.orZero current - extraCount in
               JsMap.set wordLetters letter
                 (if remaining >? 0 then remaining else 0))
          extra wordLetters
    end in
  let '(wildcardsNeeded, usedUserLetters) :=
    fold_left
      (fun '(wildcardsNeeded, usedUserLetters) '(letter, count) =>
         let available := Js.orZero (JsMap.get availableLetters letter) in
         let shortfall := count - available in
         (if shortfall >? 0 then wildcardsNeeded + shortfall
          else wildcardsNeeded,
          if available >? 0 then true else usedUserLetters))
      wordLetters (0, false) in
  let canForm := wildcardsNeeded <=? availableWildcards in
  {| Utils.canForm := canForm;
     Utils.wildcardsUsed := if canForm then wildcardsNeeded else 0;
     Utils.usedUserLetters := usedUserLetters |}.

(** [passesLengthFilter(length, filters)] *)
Definition passesLengthFilter (length : Z) (filters : SearchEngine.filters)
    : bool :=
  let mode := orString (lengthMode filters) s_all in
  if Js.eqb mode s_all then (length >=? 2) && (length <=? 15)
  else if Js.eqb mode s_exact then
    match exactLength filters with
    | None => true
    | Some exact => length =? exact
    end
  else if Js.eqb mode s_range then
    let min := orNumber (minLength filters) 2 in
    let max := orNumber (maxLength filters) 15 in
    (length >=? min) && (length <=? max)
  else true.

(** [scoreWord(word, jokersUsed)]: the table is read without
    uppercasing. *)
Definition scoreWord (word : jsstring) (jokersUsed : Z) : Z :=
  if Js.falsy word || (jokersUsed <? 0) then 0
  else
    let '(totalPoints, letterPoints) :=
      fold_left
        (fun '(totalPoints, letterPoints) letter =>
           let points := Js.orZero (JsMap.get LETTER_VALUES letter) in
           (totalPoints + points,
            letterPoints
              ++ [{| Scoring.letter := letter; Scoring.points := points |}]))
        word (0, []) in
    if (jokersUsed >? 0) && (jokersUsed <=? Js.length word)
    then
      let letterPoints :=
        Js.sort
          (fun a b => inject_Z (Scoring.points b - Scoring.points a))
          letterPoints in
      fold_left
        (fun totalPoints i =>
           totalPoints
           - Scoring.points (nth i letterPoints Scoring.noLetter))
        (seq 0 (Z.to_nat jokersUsed)) totalPoints
    else totalPoints.

Section WithCaseMapping.
Context `{CaseMapping}.

(** [handleLoadWordlist(words)]: the new state and the posted count. *)
Definition handleLoadWordlist (words : list jsstring) : state * Z :=
  let uppercaseWords := map toUpperCase words in
  let wordSet := fold_left Js.setAdd uppercaseWords [] in
  let wordlist := Js.sort Js.compareUnits wordSet in
  ({| wordlist := wordlist; wordSet := Some wordSet |},
   Z.of_nat (List.length wordlist)).

(** [parseLetters(lettersString)] *)
Definition parseLetters (lettersString : jsstring) : Utils.parsed :=
  let normalized :=
    Js.collapseWhiteSpace (toUpperCase (Js.trim lettersString)) in
  let '(letterCounts, wildcards) :=
    fold_left
      (fun '(letterCounts, wildcards) char =>
         if Js.includes WILDCARD_CHARS char
         then (letterCounts, wildcards + 1)
         else if negb (char =? 32) (* char !== ' ' *)
         then (JsMap.set letterCounts char
                 (Js.orZero (JsMap.get letterCounts char) + 1),
               wildcards)
         else (letterCounts, wildcards))
      normalized (JsMap.empty, 0) in
  {| Utils.letterCounts := letterCounts; Utils.wildcards := wildcards |}.

(** [buildExtraLettersFromPattern(pattern)] *)
Definition buildExtraLettersFromPattern (pattern : option jsstring)
    : JsMap.t :=
  match pattern with
  | None => JsMap.empty
  | Some pattern =>
      if Js.falsy pattern then JsMap.empty
      else
        let normalized := toUpperCase (Js.trim pattern) in
        fold_left
          (fun extra ch =>
             if Js.includes DANISH_ALPHABET ch
             then JsMap.set extra ch (Js.orZero (JsMap.get extra ch) + 1)
             else extra)
          normalized JsMap.empty
  end.

(** [matchesBoardPattern(wordUpper, pattern)] *)
Definition matchesBoardPattern (wordUpper pattern : jsstring) : bool :=
  let trimmed := toUpperCase (Js.trim pattern) in
  if Js.falsy trimmed then true
  else if Js.length trimmed >? 50 then false
  else
    let '(regexSource, wildcardCount) :=
      fold_left
        (fun '(regexSource, wildcardCount) ch =>
           if ch =? 46 (* '.' *)
           then (regexSource ++ [RegExp.AnyChar], wildcardCount + 1)
           else if ch =? 42 (* '*' *)
           then (regexSource ++ [RegExp.AnyRun], wildcardCount + 1)
           else if ch =? 32 (* ' ' *)
           then (regexSource, wildcardCount)
           else (regexSource ++ [RegExp.Literal ch], wildcardCount))
        trimmed ([], 0) in
    if wildcardCount >? 15 then false
    else RegExp.test regexSource wordUpper.

(** [passesFilters(word, filters)] *)
Definition passesFilters (word : jsstring)
    (filters : SearchEngine.filters) : bool :=
  let wordUpper := toUpperCase word in
  let boardOk :=
    match boardPattern filters with
    | None => true
    | Some boardPattern =>
        if Js.falsy boardPattern then true
        else
          let pattern := toUpperCase (Js.trim boardPattern) in
          negb (negb (Js.falsy pattern)
                && negb (matchesBoardPattern wordUpper pattern))
    end in
  if negb boardOk then false
  else if negb (passesLengthFilter (Js.length word) filters) then false
  else true.

(** [compareDanish(a, b)] *)
Fixpoint compareFrom (aUpper bUpper : jsstring) : option Z :=
  match aUpper, bUpper with
  | x :: a', y :: b' =>
      let aIndex := Js.indexOf DANISH_ALPHABET x in
      let bIndex := Js.indexOf DANISH_ALPHABET y in
      if negb (aIndex =? bIndex) then Some (aIndex - bIndex)
      else compareFrom a' b'
  | _, _ => None
  end.

Definition compareDanish (a b : jsstring) : Z :=
  let aUpper := toUpperCase a in
  let bUpper := toUpperCase b in
  match compareFrom aUpper bUpper with
  | Some d => d
  | None => Js.length aUpper - Js.length bUpper
  end.

(** [sortResults(results, sortBy)] *)
Definition sortResults (results : list candidate) (sortBy : jsstring)
    : list candidate :=
  if Js.eqb sortBy s_score then Js.sort byScore results
  else if Js.eqb sortBy s_length then Js.sort byLength results
  else if Js.eqb sortBy s_alpha then
    Js.sort (fun a b => inject_Z (compareDanish (word a) (word b))) results
  else Js.sort byScoreOnly results.

(** [handleSearch(payload)]: the posted [searchResult], if any. *)
Definition handleSearch (st : state) (payload : payload)
    : option response :=
  let lettersString := lettersString payload in
  let filters := filters payload in
  if Js.length lettersString >? 15 then None
  else
    let parsed := parseLetters lettersString in
    let letterCounts := Utils.letterCounts parsed in
    let wildcards := Utils.wildcards parsed in
    let extraLetters :=
      buildExtraLettersFromPattern (boardPattern filters) in
    let '(results, seenWords) :=
      fold_left
        (fun '(results, seenWords) word =>
           let normalizedWord := Js.trim (toUpperCase word) in
           if Js.setHas seenWords normalizedWord then (results, seenWords)
           else
             let formed :=
               if JsMap.size extraLetters >? 0
               then canFormWordWithExtras word letterCounts wildcards
                      (Some extraLetters)
               else canFormWord word letterCounts wildcards None in
             if negb (Utils.canForm formed) then (results, seenWords)
             else if negb (Utils.usedUserLetters formed)
             then (results, seenWords)
             else if negb (passesFilters word filters)
             then (results, seenWords)
             else
               let score := scoreWord word (Utils.wildcardsUsed formed) in
               (results ++ [{| word := word;
                               score := score;
                               length := Js.length word;
                               usedJokers := Utils.wildcardsUsed formed |}],
                Js.setAdd seenWords normalizedWord))
        (wordlist st) ([], []) in
    let results :=
      sortResults results (orString (sortBy filters) s_score) in
    Some {| results := results;
            totalFound := Z.of_nat (List.length results) |}.

End WithCaseMapping.

End SearchWorker.

(** * Specification vocabulary *)

(** Number of occurrences of a character in a word. *)
Definition occ (c : char) (w : jsstring) : Z :=
  Z.of_nat (count_occ Z.eq_dec w c).

(** Sum of a list of integers. *)
Definition Zsum (l : list Z) : Z := fold_right Z.add 0 l.

(** A letter-count map read as a multiset. *)
Definition rackCount (R : JsMap.t) (c : char) : Z := Js.orZero (JsMap.get R c).

Definition boardCount (B : option JsMap.t) (c : char) : Z :=
  match B with
  | None => 0
  | Some b => Js.orZero (JsMap.get b c)
  end.

(** What is left of a letter of the word once the board has supplied its
    share, and what the rack then still lacks of it. *)
Definition residual (B : option JsMap.t) (w : jsstring) (c : char) : Z :=
  Z.max 0 (occ c w - boardCount B c).

Definition shortfall (R : JsMap.t) (B : option JsMap.t) (w : jsstring)
    (c : char) : Z :=
  Z.max 0 (residual B w c - rackCount R c).

Definition wildcardsRequired (R : JsMap.t) (B : option JsMap.t)
    (w : jsstring) (letters : list char) : Z :=
  Zsum (map (shortfall R B w) letters).

(** A way to lay the word down: how many copies of each letter come from
    the board, from the rack and from wildcards. *)
Definition covers (R : JsMap.t) (B : option JsMap.t) (w : jsstring)
    (letters : list char) (fromBoard fromRack fromWildcards : char -> Z)
    : Prop :=
  forall l, In l letters ->
    0 <= fromBoard l <= boardCount B l
    /\ 0 <= fromRack l <= rackCount R l
    /\ 0 <= fromWildcards l
    /\ fromBoard l + fromRack l + fromWildcards l = occ l w.

(** Counts are never negative; a [Map] holds a key once. *)
Definition nonneg (m : JsMap.t) : Prop := Forall (fun kv => 0 <= snd kv) m.

Definition positiveCounts (m : JsMap.t) : Prop :=
  Forall (fun kv => 1 <= snd kv) m.

Definition isMap (m : JsMap.t) : Prop := NoDup (JsMap.keys m).

Definition boardOk (B : option JsMap.t) : Prop :=
  match B with
  | None => True
  | Some b => isMap b /\ nonneg b
  end.

(** * Proof vocabulary

    The loops of the program as separate functions, the orders and the
    predicates that the theorems below are stated with, and the inputs of
    the worked examples. *)

(** The three loops shared by the four formability checks, in the shape
    the source gives them. *)
Definition countInto (m : JsMap.t) (word : jsstring) : JsMap.t :=
  fold_left
    (fun wordLetters letter =>
       JsMap.set wordLetters letter
         (Js.orZero (JsMap.get wordLetters letter) + 1))
    word m.

Definition subtractInto (wordLetters extra : JsMap.t) : JsMap.t :=
  fold_left
    (fun wordLetters '(letter, extraCount) =>
       let current := JsMap.get wordLetters letter in
       if Js.absent current then wordLetters
       else
         let remaining := Js.orZero current - extraCount in
         JsMap.set wordLetters letter
           (if remaining >? 0 then remaining else 0))
    extra wordLetters.

Definition coverFrom (skipZero : bool) (R : JsMap.t) (m : JsMap.t)
    (start : Z * bool) : Z * bool :=
  fold_left
    (fun '(wildcardsNeeded, usedUserLetters) '(letter, count) =>
       if skipZero && (count =? 0) then (wildcardsNeeded, usedUserLetters)
       else
         let available := Js.orZero (JsMap.get R letter) in
         let shortfall := count - available in
         (if shortfall >? 0 then wildcardsNeeded + shortfall
          else wildcardsNeeded,
          if available >? 0 then true else usedUserLetters))
    m start.

(** What one entry of the word's counts asks of the wildcards, and whether
    it draws on a letter of the rack. *)
Definition entryNeed (R : JsMap.t) (entry : char * Z) : Z :=
  Z.max 0 (snd entry - rackCount R (fst entry)).

Definition entryUses (skipZero : bool) (R : JsMap.t) (entry : char * Z)
    : bool :=
  negb (skipZero && (snd entry =? 0)) && (rackCount R (fst entry) >? 0).

(** All counts of a map together. *)
Definition valuesSum (m : JsMap.t) : Z := Zsum (map snd m).

(** How a check finishes once the loops have run; [jokersCount] is the
    "Jokers should also count" step that utils.js has and the worker
    lacks. *)
Definition finish (jokersCount : bool) (availableWildcards : Z)
    (p : Z * bool) : Utils.formResult :=
  let '(wildcardsNeeded, usedUserLetters) := p in
  let usedUserLetters :=
    if jokersCount
    then (if wildcardsNeeded >? 0 then true else usedUserLetters)
    else usedUserLetters in
  let canForm := wildcardsNeeded <=? availableWildcards in
  {| Utils.canForm := canForm;
     Utils.wildcardsUsed := if canForm then wildcardsNeeded else 0;
     Utils.usedUserLetters := usedUserLetters |}.

(** The counts that the last loop of a check runs over. *)
Definition wordCounts (w : jsstring) (B : option JsMap.t) : JsMap.t :=
  match B with
  | None => countInto JsMap.empty w
  | Some extra => subtractInto (countInto JsMap.empty w) extra
  end.

(** [WILDCARD_CHARS.includes(char)] *)
Definition isWildcardChar (c : char) : bool :=
  Js.includes Utils.WILDCARD_CHARS c.

(** The scanning loop of [parseLetters], from any starting state. *)
Definition scanFrom (normalized : jsstring) (start : JsMap.t * Z)
    : JsMap.t * Z :=
  fold_left
    (fun '(letterCounts, wildcards) char =>
       if Js.includes Utils.WILDCARD_CHARS char
       then (letterCounts, wildcards + 1)
       else if negb (char =? 32)
       then (JsMap.set letterCounts char
               (Js.orZero (JsMap.get letterCounts char) + 1),
             wildcards)
       else (letterCounts, wildcards))
    normalized start.

(** What a scan of [n] leaves in the rack; [?] is 63, [_] is 95, [*] is 42
    and the space is 32. *)
Definition scanned (p : Utils.parsed) (n : jsstring) : Prop :=
  Utils.wildcards p = occ 63 n + occ 95 n + occ 42 n + occ 32 n
  /\ (forall c, In c Utils.WILDCARD_CHARS ->
        JsMap.get (Utils.letterCounts p) c = None)
  /\ (forall c, ~ In c Utils.WILDCARD_CHARS ->
        rackCount (Utils.letterCounts p) c = occ c n)
  /\ positiveCounts (Utils.letterCounts p)
  /\ isMap (Utils.letterCounts p).

(** [top] holds [k] of the [values], none smaller than a value left out. *)
Definition highest (k : Z) (values top : list Z) : Prop :=
  exists rest,
    Permutation (top ++ rest) values
    /\ Js.length top = k
    /\ forall x y, In x top -> In y rest -> y <= x.

(** The body that the two copies of [scoreWord] share, for a given
    letter-value function. *)
Definition scoreWith (value : char -> Z) (word : jsstring) (jokersUsed : Z)
    : Z :=
  if Js.falsy word || (jokersUsed <? 0) then 0
  else
    let '(totalPoints, letterPoints) :=
      fold_left
        (fun '(totalPoints, letterPoints) letter =>
           let points := value letter in
           (totalPoints + points,
            letterPoints
              ++ [{| Scoring.letter := letter; Scoring.points := points |}]))
        word (0, []) in
    if (jokersUsed >? 0) && (jokersUsed <=? Js.length word)
    then
      let letterPoints :=
        Js.sort
          (fun a b => inject_Z (Scoring.points b - Scoring.points a))
          letterPoints in
      fold_left
        (fun totalPoints i =>
           totalPoints
           - Scoring.points (nth i letterPoints Scoring.noLetter))
        (seq 0 (Z.to_nat jokersUsed)) totalPoints
    else totalPoints.

(** The [letterPoints] array of a word. *)
Definition pointsOf (value : char -> Z) (word : jsstring)
    : list Scoring.letterPoint :=
  map (fun c => {| Scoring.letter := c; Scoring.points := value c |}) word.

(** The worker reads its table directly. *)
Definition workerValue (c : char) : Z :=
  Js.orZero (JsMap.get SearchWorker.LETTER_VALUES c).

(** [score] takes the [k] highest letter values off the word's total. *)
Definition scoresWithout (value : char -> Z) (score : jsstring -> Z -> Z)
    (w : jsstring) (k : Z) : Prop :=
  exists top,
    highest k (map value w) top
    /\ score w k = Zsum (map value w) - Zsum top
    /\ 0 <= score w k <= Zsum (map value w).

(** The regular expression that [matchesBoardPattern] builds from the
    trimmed pattern. *)
Definition compilePattern (trimmed : jsstring) : list RegExp.atom :=
  flat_map
    (fun ch =>
       if ch =? 46 then [RegExp.AnyChar]
       else if ch =? 42 then [RegExp.AnyRun]
       else if ch =? 32 then []
       else [RegExp.Literal ch])
    trimmed.

(** Occurrences of [.] (46) and [*] (42). *)
Definition wildcardSymbols (trimmed : jsstring) : Z :=
  occ 46 trimmed + occ 42 trimmed.

(** The rack, the wildcard count and the board multiset of a search. *)
Definition rackOf {cm : CaseMapping} (lettersString : jsstring) : JsMap.t :=
  Utils.letterCounts (Utils.parseLetters lettersString).

Definition jokersOf {cm : CaseMapping} (lettersString : jsstring) : Z :=
  Utils.wildcards (Utils.parseLetters lettersString).

Definition boardOf {cm : CaseMapping} (f : SearchEngine.filters) : JsMap.t :=
  Utils.buildExtraLettersFromPattern (SearchEngine.boardPattern f).

(** The same for a search in the worker. *)
Definition workerRackOf {cm : CaseMapping} (lettersString : jsstring)
    : JsMap.t :=
  Utils.letterCounts (SearchWorker.parseLetters lettersString).

Definition workerBoardOf {cm : CaseMapping} (f : SearchEngine.filters)
    : JsMap.t :=
  SearchWorker.buildExtraLettersFromPattern (SearchEngine.boardPattern f).

(** The formability check that [searchWords] runs on a word. *)
Definition formedBy {cm : CaseMapping} (lettersString : jsstring)
    (f : SearchEngine.filters) (word : jsstring) : Utils.formResult :=
  if JsMap.size (boardOf f) >? 0
  then Utils.canFormWordWithExtras word (rackOf lettersString)
         (jokersOf lettersString) (Some (boardOf f))
  else Utils.canFormWord word (rackOf lettersString) (jokersOf lettersString).

(** What [searchWords] records for a word it keeps. *)
Definition accepted {cm : CaseMapping} (lettersString : jsstring)
    (f : SearchEngine.filters) (r : SearchEngine.candidate) : Prop :=
  let formed := formedBy lettersString f (SearchEngine.word r) in
  Utils.canForm formed = true
  /\ Utils.usedUserLetters formed = true
  /\ SearchEngine.passesFilters (SearchEngine.word r) f = true
  /\ SearchEngine.score r
     = Scoring.scoreWord (SearchEngine.word r) (Utils.wildcardsUsed formed)
  /\ SearchEngine.length r = Js.length (SearchEngine.word r)
  /\ SearchEngine.usedJokers r = Utils.wildcardsUsed formed.

(** Position of a character in the Danish alphabet, -1 outside it. *)
Definition position (c : char) : Z := Js.indexOf Utils.DANISH_ALPHABET c.

(** Lexicographic order by alphabet position; a prefix comes first. *)
Inductive danishLe : jsstring -> jsstring -> Prop :=
| danish_prefix : forall b, danishLe [] b
| danish_before : forall x a y b,
    position x < position y -> danishLe (x :: a) (y :: b)
| danish_same : forall x a y b,
    position x = position y -> danishLe a b -> danishLe (x :: a) (y :: b).

(** Points per letter. *)
Definition efficiency (r : SearchEngine.candidate) : Q :=
  (inject_Z (SearchEngine.score r) / inject_Z (SearchEngine.length r))%Q.

(** Score descending, then wildcards ascending, then points per letter
    descending. *)
Definition scoreOrder (a b : SearchEngine.candidate) : Prop :=
  SearchEngine.score b < SearchEngine.score a
  \/ (SearchEngine.score a = SearchEngine.score b
      /\ (SearchEngine.usedJokers a < SearchEngine.usedJokers b
          \/ (SearchEngine.usedJokers a = SearchEngine.usedJokers b
              /\ (efficiency b <= efficiency a)%Q))).

(** Alphabetical order of two results. *)
Definition alphaOrder {cm : CaseMapping} (a b : SearchEngine.candidate)
    : Prop :=
  danishLe (toUpperCase (SearchEngine.word a))
           (toUpperCase (SearchEngine.word b)).

(** The filters [{ sortBy }] and [{ boardPattern }]. *)
Definition sortingBy (s : string) : SearchEngine.filters :=
  {| SearchEngine.boardPattern := None;
     SearchEngine.lengthMode := None;
     SearchEngine.exactLength := None;
     SearchEngine.minLength := None;
     SearchEngine.maxLength := None;
     SearchEngine.sortBy := Some (Js.str s) |}.

Definition onBoard (s : string) : SearchEngine.filters :=
  {| SearchEngine.boardPattern := Some (Js.str s);
     SearchEngine.lengthMode := None;
     SearchEngine.exactLength := None;
     SearchEngine.minLength := None;
     SearchEngine.maxLength := None;
     SearchEngine.sortBy := None |}.

(** The result record of a word. *)
Definition found (word : string) (score jokers : Z) : SearchEngine.candidate :=
  {| SearchEngine.word := Js.str word;
     SearchEngine.score := score;
     SearchEngine.length := Js.length (Js.str word);
     SearchEngine.usedJokers := jokers |}.

(** The rack T, R, Æ, O, N as [parseLetters] builds it. *)
Definition rackTRAEON : JsMap.t := [(84, 1); (82, 1); (198, 1); (79, 1); (78, 1)].

(** 35 letters A and 15 dots: 50 characters, 15 wildcard symbols. *)
Definition patternAtCaps : jsstring := repeat 65 35 ++ repeat 46 15.

(** * Further vocabulary

    For the properties of the code around the claims. *)

(** The form under which [searchWords] remembers a word it has kept. *)
Definition normalizedWord {cm : CaseMapping} (word : jsstring) : jsstring :=
  Js.trim (toUpperCase word).

(** The three tests a word has to pass to be kept. *)
Definition eligible {cm : CaseMapping} (lettersString : jsstring)
    (f : SearchEngine.filters) (word : jsstring) : bool :=
  Utils.canForm (formedBy lettersString f word)
  && Utils.usedUserLetters (formedBy lettersString f word)
  && SearchEngine.passesFilters word f.

(** The letters of a word, each once. *)
Definition lettersOf (w : jsstring) : list char := nodup Z.eq_dec w.

(** Length descending, then score descending. *)
Definition lengthOrder (a b : SearchEngine.candidate) : Prop :=
  SearchEngine.length b < SearchEngine.length a
  \/ (SearchEngine.length a = SearchEngine.length b
      /\ SearchEngine.score b <= SearchEngine.score a).

(** Strings in the order of their code units. *)
Inductive unitsLe : jsstring -> jsstring -> Prop :=
| units_prefix : forall b, unitsLe [] b
| units_before : forall x a y b, x < y -> unitsLe (x :: a) (y :: b)
| units_same : forall x a b, unitsLe a b -> unitsLe (x :: a) (x :: b).

(** A trimmed pattern made of literal characters only: no [.], no [*], no
    space. *)
Definition literalPattern (trimmed : jsstring) : bool :=
  forallb (fun ch => negb ((ch =? 46) || (ch =? 42) || (ch =? 32))) trimmed.

(** What the wildcards of a word cost: the values that [scoreWord] takes
    off for [k] of them. *)
Definition spent (value : char -> Z) (w : jsstring) (k : Z) : Z :=
  Zsum
    (map Scoring.points
       (firstn (Z.to_nat k)
          (Js.sort
             (fun a b => inject_Z (Scoring.points b - Scoring.points a))
             (pointsOf value w)))).

(** The pattern language of the board: a space matches nothing and is
    passed over, [.] matches one character, [*] any run of characters, and
    any other character itself; [.] and [*] do not match line
    terminators. *)
Inductive patternMatches : jsstring -> jsstring -> Prop :=
| pattern_end : patternMatches [] []
| pattern_space : forall p w,
    patternMatches p w -> patternMatches (32 :: p) w
| pattern_dot : forall p x w,
    RegExp.dot x = true -> patternMatches p w ->
    patternMatches (46 :: p) (x :: w)
| pattern_star : forall p run w,
    forallb RegExp.dot run = true -> patternMatches p w ->
    patternMatches (42 :: p) (run ++ w)
| pattern_literal : forall c p w,
    c <> 32 -> c <> 46 -> c <> 42 -> patternMatches p w ->
    patternMatches (c :: p) (c :: w).

(** The loop that [.*] stands for: try the rest of the expression here, or
    after one more character. *)
Fixpoint anyRun (rest : jsstring -> bool) (s : jsstring) : bool :=
  rest s
  || match s with
     | x :: s' => RegExp.dot x && anyRun rest s'
     | [] => false
     end.

(** A length mode that bounds the length: [all] (also by default),
    [range], or [exact] with an [exactLength]. *)
Definition boundedMode (f : SearchEngine.filters) : bool :=
  let mode :=
    SearchEngine.orString (SearchEngine.lengthMode f) SearchEngine.s_all in
  Js.eqb mode SearchEngine.s_all
  || Js.eqb mode SearchEngine.s_range
  || (Js.eqb mode SearchEngine.s_exact
      && match SearchEngine.exactLength f with
         | Some _ => true
         | None => false
         end).

(** * Facts about the runtime model *)

Section MapFacts.

Lemma get_set_same m k v : JsMap.get (JsMap.set m k v) k = Some v.
Proof.
  induction m as [|[k' v'] m IH]; simpl.
  - now rewrite Z.eqb_refl.
  - destruct (k =? k') eqn:E; simpl; rewrite E; auto.
Qed.

Lemma get_set_other m k v c :
  c <> k -> JsMap.get (JsMap.set m k v) c = JsMap.get m c.
Proof.
  intros Hc. induction m as [|[k' v'] m IH]; simpl.
  - destruct (c =? k) eqn:E; auto. apply Z.eqb_eq in E. contradiction.
  - destruct (k =? k') eqn:E; simpl.
    + apply Z.eqb_eq in E. subst k'.
      destruct (c =? k) eqn:E2; auto. apply Z.eqb_eq in E2. contradiction.
    + destruct (c =? k'); auto.
Qed.

Lemma get_none_keys m k : JsMap.get m k = None <-> ~ In k (JsMap.keys m).
Proof.
  induction m as [|[k' v'] m IH]; simpl.
  - tauto.
  - destruct (k =? k') eqn:E.
    + apply Z.eqb_eq in E. subst. split; [discriminate | tauto].
    + apply Z.eqb_neq in E. rewrite IH. split; intros; intuition congruence.
Qed.

Lemma get_In m k v : JsMap.get m k = Some v -> In (k, v) m.
Proof.
  induction m as [|[k' v'] m IH]; simpl; [discriminate|].
  destruct (k =? k') eqn:E.
  - apply Z.eqb_eq in E. intros [= ->]. subst. now left.
  - auto.
Qed.

Lemma In_get m k v : isMap m -> In (k, v) m -> JsMap.get m k = Some v.
Proof.
  unfold isMap. induction m as [|[k' v'] m IH]; simpl; [tauto|].
  intros Hnd [Heq | Hin].
  - inversion Heq; subst. now rewrite Z.eqb_refl.
  - inversion Hnd as [|? ? Hnot Hnd']; subst.
    destruct (k =? k') eqn:E; auto.
    apply Z.eqb_eq in E. subst k'. exfalso. apply Hnot.
    change k with (fst (k, v)). now apply in_map.
Qed.

Lemma keys_set m k v :
  JsMap.keys (JsMap.set m k v)
  = if in_dec Z.eq_dec k (JsMap.keys m) then JsMap.keys m
    else JsMap.keys m ++ [k].
Proof.
  induction m as [|[k' v'] m IH]; simpl; auto.
  destruct (k =? k') eqn:E.
  - apply Z.eqb_eq in E. subst k'. simpl.
    destruct (Z.eq_dec k k); [|congruence].
    reflexivity.
  - apply Z.eqb_neq in E. simpl. rewrite IH.
    destruct (Z.eq_dec k' k); [congruence|].
    destruct (in_dec Z.eq_dec k (JsMap.keys m)); reflexivity.
Qed.

Lemma isMap_set m k v : isMap m -> isMap (JsMap.set m k v).
Proof.
  unfold isMap. intros Hnd. rewrite keys_set.
  destruct (in_dec Z.eq_dec k (JsMap.keys m)); auto.
  apply NoDup_app; auto.
  - constructor; [tauto | constructor].
  - intros x Hx [<- | []]. contradiction.
Qed.

Lemma Forall_set (P : char * Z -> Prop) m k v :
  (forall k', P (k', v)) -> Forall P m -> Forall P (JsMap.set m k v).
Proof.
  intros Hv. induction m as [|[k' v'] m IH]; simpl; intros HF.
  - constructor; auto.
  - inversion HF; subst. destruct (k =? k'); constructor; auto.
Qed.

Lemma In_keys_set m k v c :
  In c (JsMap.keys (JsMap.set m k v)) <-> c = k \/ In c (JsMap.keys m).
Proof.
  rewrite keys_set. destruct (in_dec Z.eq_dec k (JsMap.keys m)).
  - split; [tauto | intros [-> | ?]; auto].
  - rewrite in_app_iff. simpl. intuition congruence.
Qed.

End MapFacts.

Section SumFacts.

Lemma Zsum_app a b : Zsum (a ++ b) = Zsum a + Zsum b.
Proof. induction a; simpl; lia. Qed.

Lemma Zsum_nonneg l : Forall (fun x => 0 <= x) l -> 0 <= Zsum l.
Proof. induction 1; simpl; lia. Qed.

Lemma Zsum_map_le {A : Type} (f g : A -> Z) l :
  (forall x, In x l -> f x <= g x) -> Zsum (map f l) <= Zsum (map g l).
Proof.
  induction l; simpl; intros Hle; [lia|].
  specialize (IHl (fun x Hx => Hle x (or_intror Hx))).
  specialize (Hle a (or_introl eq_refl)). lia.
Qed.

Lemma Zsum_map_ext {A : Type} (f g : A -> Z) l :
  (forall x, In x l -> f x = g x) -> Zsum (map f l) = Zsum (map g l).
Proof.
  induction l; simpl; intros Heq; [lia|].
  rewrite (Heq a (or_introl eq_refl)).
  rewrite IHl; auto.
Qed.

Lemma Zsum_perm a b : Permutation a b -> Zsum a = Zsum b.
Proof. induction 1; simpl; lia. Qed.

(** A sum over a duplicate-free list only sees the support of the
    summand. *)
Lemma Zsum_support (g : char -> Z) ks :
  forall ls, NoDup ks -> NoDup ls -> incl ks ls ->
    (forall l, In l ls -> ~ In l ks -> g l = 0) ->
    Zsum (map g ls) = Zsum (map g ks).
Proof.
  induction ks as [|k ks IH]; intros ls Hks Hls Hincl Hzero.
  - simpl. induction ls as [|l ls IHls]; simpl; auto.
    rewrite (Hzero l); [|now left|tauto].
    inversion Hls; subst. rewrite IHls; auto.
    + intros x [].
    + intros x Hx _. apply Hzero; [now right | tauto].
  - inversion Hks as [|? ? Hk Hks']; subst.
    destruct (in_split k ls (Hincl k (or_introl eq_refl))) as (l1 & l2 & ->).
    pose proof (NoDup_remove _ _ _ Hls) as [Hnd Hnot].
    rewrite map_app, Zsum_app. simpl.
    rewrite <- (IH (l1 ++ l2)); auto.
    + rewrite map_app, Zsum_app. lia.
    + intros x Hx. assert (Hin : In x (l1 ++ k :: l2)) by (apply Hincl; now right).
      rewrite in_app_iff in *. simpl in Hin.
      destruct Hin as [?|[<-|?]]; auto. contradiction.
    + intros l Hl Hnl. apply Hzero.
      * rewrite in_app_iff in *. simpl. tauto.
      * intros [<- | ?]; auto.
Qed.

End SumFacts.

(** * The formability loops *)

Section Formability.

Lemma occ_cons c x w : occ c (x :: w) = (if c =? x then 1 else 0) + occ c w.
Proof.
  unfold occ. simpl. destruct (Z.eq_dec x c) as [->|Hne].
  - rewrite Z.eqb_refl. lia.
  - destruct (c =? x) eqn:E; [apply Z.eqb_eq in E; congruence | lia].
Qed.

Lemma occ_nonneg c w : 0 <= occ c w.
Proof. unfold occ. lia. Qed.

Lemma occ_pos c w : 0 < occ c w <-> In c w.
Proof.
  unfold occ. rewrite (count_occ_In Z.eq_dec w c). lia.
Qed.

Lemma nonneg_get m c : nonneg m -> 0 <= Js.orZero (JsMap.get m c).
Proof.
  intros Hm. destruct (JsMap.get m c) as [v|] eqn:E; simpl; [|lia].
  apply get_In in E. unfold nonneg in Hm. rewrite Forall_forall in Hm.
  apply (Hm _ E).
Qed.

Lemma positive_nonneg m : positiveCounts m -> nonneg m.
Proof. apply Forall_impl. intros; lia. Qed.

(** *** Counting the letters of the word *)

Lemma countInto_get w : forall m c,
  Js.orZero (JsMap.get (countInto m w) c)
  = Js.orZero (JsMap.get m c) + occ c w.
Proof.
  induction w as [|x w IH]; intros m c.
  - unfold occ. simpl. lia.
  - unfold countInto in *. simpl. rewrite IH, occ_cons.
    destruct (c =? x) eqn:E.
    + apply Z.eqb_eq in E. subst. rewrite get_set_same. cbn [Js.orZero]. lia.
    + apply Z.eqb_neq in E. rewrite get_set_other by assumption. lia.
Qed.

Lemma countInto_keys w : forall m c,
  In c (JsMap.keys (countInto m w)) <-> In c (JsMap.keys m) \/ In c w.
Proof.
  induction w as [|x w IH]; intros m c.
  - simpl. tauto.
  - unfold countInto in *. simpl. rewrite IH, In_keys_set.
    intuition congruence.
Qed.

Lemma countInto_isMap w : forall m, isMap m -> isMap (countInto m w).
Proof.
  induction w as [|x w IH]; intros m Hm; [exact Hm|].
  unfold countInto in *. simpl. apply IH. now apply isMap_set.
Qed.

Lemma countInto_positive w : forall m,
  positiveCounts m -> positiveCounts (countInto m w).
Proof.
  induction w as [|x w IH]; intros m Hm; [exact Hm|].
  unfold countInto in *. simpl. apply IH.
  apply Forall_set; auto. intros ?. cbn [snd].
  pose proof (nonneg_get m x (positive_nonneg m Hm)). lia.
Qed.

Lemma valuesSum_set m k v :
  valuesSum (JsMap.set m k v) = valuesSum m - Js.orZero (JsMap.get m k) + v.
Proof.
  unfold valuesSum. induction m as [|[k' v'] m IH]; simpl; [lia|].
  destruct (k =? k'); simpl; lia.
Qed.

Lemma countInto_valuesSum w : forall m,
  valuesSum (countInto m w) = valuesSum m + Js.length w.
Proof.
  unfold Js.length.
  induction w as [|x w IH]; intros m; [simpl; lia|].
  unfold countInto in *. cbn [fold_left]. rewrite IH, valuesSum_set.
  cbn [List.length]. lia.
Qed.

(** *** Taking the board letters off *)

Lemma subtractInto_keys extra : forall wl,
  JsMap.keys (subtractInto wl extra) = JsMap.keys wl.
Proof.
  induction extra as [|[l e] extra IH]; intros wl; [reflexivity|].
  unfold subtractInto in *. cbn [fold_left].
  destruct (JsMap.get wl l) as [v|] eqn:E; cbn [Js.absent].
  - destruct (v =? 0); rewrite IH; auto.
    rewrite keys_set. destruct (in_dec Z.eq_dec l (JsMap.keys wl)) as [|Hn]; auto.
    apply get_none_keys in Hn. congruence.
  - apply IH.
Qed.

Lemma subtractInto_get extra : forall wl c,
  isMap extra -> nonneg extra -> nonneg wl ->
  Js.orZero (JsMap.get (subtractInto wl extra) c)
  = Z.max 0 (Js.orZero (JsMap.get wl c) - Js.orZero (JsMap.get extra c)).
Proof.
  induction extra as [|[l e] extra IH]; intros wl c Hmap Hex Hwl.
  - simpl. pose proof (nonneg_get wl c Hwl). lia.
  - inversion Hmap as [|? ? Hnot Hmap']; subst.
    inversion Hex as [|? ? He Hex']; subst. simpl in He.
    unfold subtractInto in *. cbn [fold_left].
    set (wl1 := if Js.absent (JsMap.get wl l) then wl else _).
    assert (Hwl1 : nonneg wl1).
    { subst wl1. destruct (Js.absent (JsMap.get wl l)); auto.
      apply Forall_set; auto. intros ?. cbn [snd].
      destruct (_ >? 0) eqn:G; lia. }
    rewrite (IH wl1 c Hmap' Hex' Hwl1). cbn [JsMap.get].
    destruct (c =? l) eqn:E.
    + apply Z.eqb_eq in E. subst c.
      assert (Hrest : JsMap.get extra l = None) by now apply get_none_keys.
      rewrite Hrest. cbn [Js.orZero].
      subst wl1. destruct (JsMap.get wl l) as [v|] eqn:G; cbn [Js.absent Js.orZero].
      * destruct (v =? 0) eqn:V.
        -- apply Z.eqb_eq in V. subst v. rewrite G. simpl. lia.
        -- rewrite get_set_same. cbn [Js.orZero].
           destruct (v - e >? 0) eqn:W; lia.
      * rewrite G. simpl. lia.
    + apply Z.eqb_neq in E. f_equal. f_equal.
      subst wl1. destruct (Js.absent (JsMap.get wl l)); auto.
      now rewrite get_set_other.
Qed.

Lemma subtractInto_valuesSum extra : forall wl,
  nonneg extra -> nonneg wl ->
  nonneg (subtractInto wl extra)
  /\ valuesSum (subtractInto wl extra) <= valuesSum wl.
Proof.
  induction extra as [|[l e] extra IH]; intros wl Hex Hwl.
  - simpl. split; [assumption | lia].
  - inversion Hex as [|? ? He Hex']; subst. simpl in He.
    unfold subtractInto in *. cbn [fold_left].
    destruct (JsMap.get wl l) as [v|] eqn:E; cbn [Js.absent Js.orZero].
    + destruct (v =? 0) eqn:V; [now apply IH|].
      assert (Hv : 0 <= v).
      { pose proof (nonneg_get wl l Hwl) as Hg. now rewrite E in Hg. }
      set (v' := if v - e >? 0 then v - e else 0).
      assert (Hv' : 0 <= v' <= v) by (subst v'; destruct (v - e >? 0) eqn:W; lia).
      destruct (IH (JsMap.set wl l v') Hex') as [Hn Hs].
      { apply Forall_set; auto. intros ?. cbn [snd]. lia. }
      split; [exact Hn|].
      rewrite valuesSum_set, E in Hs. simpl in Hs. lia.
    + now apply IH.
Qed.

End Formability.

Section Cover.

Lemma utils_canFormWord_loops w R j :
  Utils.canFormWord w R j
  = finish true j (coverFrom false R (wordCounts w None) (0, false)).
Proof. reflexivity. Qed.

Lemma utils_canFormWordWithExtras_loops w R j B :
  Utils.canFormWordWithExtras w R j B
  = finish true j (coverFrom true R (wordCounts w B) (0, false)).
Proof. destruct B; reflexivity. Qed.

Lemma worker_canFormWordWithExtras_loops w R j B :
  SearchWorker.canFormWordWithExtras w R j B
  = finish false j (coverFrom true R (wordCounts w B) (0, false)).
Proof. destruct B; reflexivity. Qed.

Lemma worker_canFormWord_loops w R j B :
  SearchWorker.canFormWord w R j B
  = finish false j (coverFrom false R (wordCounts w B) (0, false)).
Proof. destruct B; reflexivity. Qed.

Variable R : JsMap.t.
Hypothesis R_nonneg : nonneg R.

Lemma rackCount_nonneg c : 0 <= rackCount R c.
Proof. apply nonneg_get, R_nonneg. Qed.

Lemma coverFrom_spec skipZero m : forall n u,
  coverFrom skipZero R m (n, u)
  = (n + Zsum (map (entryNeed R) m),
     u || existsb (entryUses skipZero R) m).
Proof.
  induction m as [|[l c] m IH]; intros n u.
  - simpl. f_equal; [lia | now rewrite orb_false_r].
  - unfold coverFrom in *. cbn [fold_left map existsb Zsum fold_right].
    unfold entryNeed at 1, entryUses at 1. cbn [fst snd].
    fold (rackCount R l). pose proof (rackCount_nonneg l) as Hr.
    destruct (skipZero && (c =? 0)) eqn:S.
    + apply andb_prop in S as [_ S]. apply Z.eqb_eq in S. subst c.
      rewrite IH. cbn [negb andb]. f_equal. fold (Zsum (map (entryNeed R) m)). lia.
    + rewrite IH. cbn [negb andb]. fold (Zsum (map (entryNeed R) m)).
      f_equal.
      * destruct (c - rackCount R l >? 0) eqn:G; lia.
      * destruct (rackCount R l >? 0); cbn [orb];
          [now rewrite orb_true_r | reflexivity].
Qed.

(** The counts that the last loop runs over, for a well-formed board
    multiset. *)
Variable B : option JsMap.t.
Hypothesis B_ok : boardOk B.
Variable w : jsstring.

Lemma countInto_empty_isMap : isMap (countInto JsMap.empty w).
Proof. apply countInto_isMap. constructor. Qed.

Lemma countInto_empty_nonneg : nonneg (countInto JsMap.empty w).
Proof. apply positive_nonneg, countInto_positive. constructor. Qed.

Lemma wordCounts_keys c : In c (JsMap.keys (wordCounts w B)) <-> In c w.
Proof.
  unfold wordCounts. destruct B; [rewrite subtractInto_keys|];
    rewrite countInto_keys; simpl; tauto.
Qed.

Lemma wordCounts_isMap : isMap (wordCounts w B).
Proof.
  unfold wordCounts, isMap. destruct B; [rewrite subtractInto_keys|];
    apply countInto_empty_isMap.
Qed.

Lemma wordCounts_get c :
  Js.orZero (JsMap.get (wordCounts w B) c) = residual B w c.
Proof.
  unfold wordCounts, residual, boardCount. destruct B as [extra|].
  - destruct B_ok as [Hmap Hnn].
    rewrite subtractInto_get; auto using countInto_empty_nonneg.
    rewrite countInto_get. simpl. reflexivity.
  - rewrite countInto_get. simpl. pose proof (occ_nonneg c w). lia.
Qed.

Lemma wordCounts_entry l c :
  In (l, c) (wordCounts w B) -> In l w /\ c = residual B w l.
Proof.
  intros Hin. split.
  - apply wordCounts_keys. change l with (fst (l, c)). now apply in_map.
  - rewrite <- wordCounts_get, (In_get _ l c wordCounts_isMap Hin). reflexivity.
Qed.

Lemma boardCount_nonneg c : 0 <= boardCount B c.
Proof.
  unfold boardCount. destruct B; [|lia]. apply nonneg_get, B_ok.
Qed.

Lemma residual_bounds c : 0 <= residual B w c <= occ c w.
Proof.
  unfold residual. pose proof (boardCount_nonneg c).
  pose proof (occ_nonneg c w). lia.
Qed.

Lemma shortfall_outside c : ~ In c w -> shortfall R B w c = 0.
Proof.
  intros Hc. unfold shortfall. pose proof (residual_bounds c).
  pose proof (rackCount_nonneg c).
  assert (occ c w = 0).
  { pose proof (occ_pos c w). pose proof (occ_nonneg c w).
    destruct (Z.eq_dec (occ c w) 0); auto. exfalso. apply Hc. tauto || (apply H1; lia). }
  lia.
Qed.

Lemma wordCounts_need :
  Zsum (map (entryNeed R) (wordCounts w B))
  = wildcardsRequired R B w (JsMap.keys (wordCounts w B)).
Proof.
  unfold wildcardsRequired, JsMap.keys. rewrite map_map.
  apply Zsum_map_ext. intros [l c] Hin.
  destruct (wordCounts_entry l c Hin) as [_ ->].
  reflexivity.
Qed.

(** The wildcards the loop asks for are those of the specification,
    summed over any duplicate-free list of letters that covers the word. *)
Lemma wordCounts_required letters :
  NoDup letters -> incl w letters ->
  Zsum (map (entryNeed R) (wordCounts w B)) = wildcardsRequired R B w letters.
Proof.
  intros Hnd Hincl. rewrite wordCounts_need. symmetry.
  apply Zsum_support; auto.
  - apply wordCounts_isMap.
  - intros c Hc. apply Hincl. now apply wordCounts_keys.
  - intros c _ Hc. apply shortfall_outside. now rewrite <- wordCounts_keys.
Qed.

Lemma wordCounts_total :
  nonneg (wordCounts w B) /\ valuesSum (wordCounts w B) <= Js.length w.
Proof.
  pose proof (countInto_valuesSum w JsMap.empty) as Hs.
  change (valuesSum JsMap.empty) with 0 in Hs.
  unfold wordCounts. destruct B as [extra|].
  - destruct (subtractInto_valuesSum extra (countInto JsMap.empty w)).
    + apply B_ok.
    + apply countInto_empty_nonneg.
    + split; [assumption | lia].
  - split; [apply countInto_empty_nonneg | lia].
Qed.

Lemma need_bounds :
  0 <= Zsum (map (entryNeed R) (wordCounts w B)) <= Js.length w.
Proof.
  destruct wordCounts_total as [Hnn Hle]. split.
  - apply Zsum_nonneg. apply Forall_forall. intros x Hx.
    apply in_map_iff in Hx as (e & <- & _). unfold entryNeed. lia.
  - eapply Z.le_trans; [|exact Hle]. unfold valuesSum.
    apply Zsum_map_le. intros [l c] Hin. unfold entryNeed. cbn [fst snd].
    unfold nonneg in Hnn. rewrite Forall_forall in Hnn.
    pose proof (Hnn _ Hin) as Hc. cbn [snd] in Hc.
    pose proof (rackCount_nonneg l). lia.
Qed.

End Cover.

(** * The formability checks *)

Section FormabilityChecks.

Variables (w : jsstring) (R : JsMap.t) (j : Z) (B : option JsMap.t).
Hypothesis R_nonneg : nonneg R.
Hypothesis B_ok : boardOk B.

Lemma finish_canForm jc p :
  Utils.canForm (finish jc j p) = (fst p <=? j).
Proof. destruct p; reflexivity. Qed.

Lemma finish_wildcardsUsed jc p :
  Utils.wildcardsUsed (finish jc j p) = if fst p <=? j then fst p else 0.
Proof. destruct p; reflexivity. Qed.

Lemma checks_canForm r :
  In r [Utils.canFormWord w R j;
        Utils.canFormWordWithExtras w R j None;
        SearchWorker.canFormWord w R j None;
        SearchWorker.canFormWordWithExtras w R j None] ->
  Utils.canForm r = (Zsum (map (entryNeed R) (wordCounts w None)) <=? j)
  /\ Utils.wildcardsUsed r
     = if Utils.canForm r
       then Zsum (map (entryNeed R) (wordCounts w None)) else 0.
Proof.
  rewrite utils_canFormWord_loops, utils_canFormWordWithExtras_loops,
    worker_canFormWord_loops, worker_canFormWordWithExtras_loops.
  intros Hin. simpl in Hin.
  destruct Hin as [<-|[<-|[<-|[<-|[]]]]];
    rewrite finish_canForm, finish_wildcardsUsed, coverFrom_spec by assumption;
    cbn [fst]; rewrite Z.add_0_l; auto.
Qed.

Lemma checks_withExtras r :
  In r [Utils.canFormWordWithExtras w R j B;
        SearchWorker.canFormWord w R j B;
        SearchWorker.canFormWordWithExtras w R j B] ->
  Utils.canForm r = (Zsum (map (entryNeed R) (wordCounts w B)) <=? j)
  /\ Utils.wildcardsUsed r
     = if Utils.canForm r
       then Zsum (map (entryNeed R) (wordCounts w B)) else 0.
Proof.
  rewrite utils_canFormWordWithExtras_loops,
    worker_canFormWord_loops, worker_canFormWordWithExtras_loops.
  intros Hin. simpl in Hin.
  destruct Hin as [<-|[<-|[<-|[]]]];
    rewrite finish_canForm, finish_wildcardsUsed, coverFrom_spec by assumption;
    cbn [fst]; rewrite Z.add_0_l; auto.
Qed.

End FormabilityChecks.

(** No way of laying the word down gets by with fewer wildcards than
    [wildcardsRequired]. *)
Lemma wildcardsRequired_least R B w letters fromBoard fromRack fromWildcards :
  covers R B w letters fromBoard fromRack fromWildcards ->
  wildcardsRequired R B w letters <= Zsum (map fromWildcards letters).
Proof.
  intros Hcov. unfold wildcardsRequired. apply Zsum_map_le.
  intros l Hl. destruct (Hcov l Hl) as (Hb & Hr & Hx & Hsum).
  unfold shortfall, residual. lia.
Qed.

(** And one way of laying it down uses exactly that many. *)
Lemma wildcardsRequired_reached R B w letters :
  nonneg R -> boardOk B ->
  covers R B w letters
    (fun l => Z.min (occ l w) (boardCount B l))
    (fun l => Z.min (residual B w l) (rackCount R l))
    (shortfall R B w).
Proof.
  intros HR HB l _.
  pose proof (rackCount_nonneg R HR l).
  pose proof (boardCount_nonneg B HB l).
  pose proof (occ_nonneg l w).
  unfold shortfall, residual. lia.
Qed.

(** C3.  For a word [w], a rack map [R], a wildcard count [j] and a board
    multiset [B], both copies of [canFormWordWithExtras] answer [canForm =
    true] exactly when the wildcards required, i.e. the sum over the letters
    of [max 0 (max 0 (count in w - count in B) - count in R)], do not exceed
    [j]; and then [wildcardsUsed] is that sum, the least number of wildcards
    with which the word can be laid down.  The sum may be taken over any
    duplicate-free list of letters that contains those of the word. *)
Theorem canFormWordWithExtras_wildcards_required
    (w : jsstring) (R : JsMap.t) (j : Z) (B : option JsMap.t)
    (letters : list char) :
  nonneg R -> boardOk B -> NoDup letters -> incl w letters ->
  let required := wildcardsRequired R B w letters in
  let main := Utils.canFormWordWithExtras w R j B in
  let worker := SearchWorker.canFormWordWithExtras w R j B in
  ((Utils.canForm main = true <-> required <= j)
   /\ (Utils.canForm main = true -> Utils.wildcardsUsed main = required)
   /\ (Utils.canForm worker = true <-> required <= j)
   /\ (Utils.canForm worker = true -> Utils.wildcardsUsed worker = required))
  /\ (forall fromBoard fromRack fromWildcards,
        covers R B w letters fromBoard fromRack fromWildcards ->
        required <= Zsum (map fromWildcards letters))
  /\ (exists fromBoard fromRack fromWildcards,
        covers R B w letters fromBoard fromRack fromWildcards
        /\ Zsum (map fromWildcards letters) = required).
Proof.
  intros HR HB Hnd Hincl required main worker.
  split; [|split; [intros fb fr fx; apply wildcardsRequired_least|]].
  2:{ eexists _, _, (shortfall R B w).
      split; [now apply wildcardsRequired_reached | reflexivity]. }
  assert (Hmain := checks_withExtras w R j B HR main).
  assert (Hworker := checks_withExtras w R j B HR worker).
  rewrite (wordCounts_required R HR B HB w letters Hnd Hincl) in Hmain, Hworker.
  fold required in Hmain, Hworker.
  destruct Hmain as [Hm1 Hm2]; [subst main; simpl; tauto|].
  destruct Hworker as [Hw1 Hw2]; [subst worker; simpl; tauto|].
  rewrite Hm2, Hw2, Hm1, Hw1. rewrite Z.leb_le.
  repeat split; auto; intros Hle; apply Z.leb_le in Hle; now rewrite Hle.
Qed.

(** C10.  Every formability check (both copies of [canFormWord] and of
    [canFormWordWithExtras]) reports [wildcardsUsed = 0] when [canForm] is
    false, and always [0 <= wildcardsUsed <= word.length]. *)
Theorem wildcardsUsed_within_word
    (w : jsstring) (R : JsMap.t) (j : Z) (B : option JsMap.t) :
  nonneg R -> boardOk B ->
  forall r,
    In r [Utils.canFormWord w R j;
          Utils.canFormWordWithExtras w R j B;
          SearchWorker.canFormWord w R j B;
          SearchWorker.canFormWordWithExtras w R j B] ->
    (Utils.canForm r = false -> Utils.wildcardsUsed r = 0)
    /\ 0 <= Utils.wildcardsUsed r <= Js.length w.
Proof.
  intros HR HB r Hin.
  assert (Hcase :
    exists n, 0 <= n <= Js.length w
      /\ Utils.wildcardsUsed r = if Utils.canForm r then n else 0).
  { simpl in Hin. destruct Hin as [<-|Hin].
    - exists (Zsum (map (entryNeed R) (wordCounts w None))). split.
      + now apply (need_bounds R HR None).
      + apply (checks_canForm w R j HR). now left.
    - exists (Zsum (map (entryNeed R) (wordCounts w B))). split.
      + now apply need_bounds.
      + now apply (checks_withExtras w R j B HR). }
  destruct Hcase as (n & Hn & ->).
  pose proof (Zle_0_nat (List.length w)) as Hlen. fold (Js.length w) in Hlen.
  destruct (Utils.canForm r); split; (discriminate || reflexivity || lia).
Qed.

(** * Sorting *)

Section SortFacts.

Context {A : Type}.
Variable cmp : A -> A -> Q.

Lemma insert_perm x l : Permutation (x :: l) (Js.insert cmp x l).
Proof.
  induction l as [|y l IH]; simpl; auto.
  destruct (Js.positive (cmp x y)); auto.
  rewrite perm_swap. now constructor.
Qed.

Lemma sort_perm l : Permutation l (Js.sort cmp l).
Proof.
  induction l as [|x l IH]; simpl; auto.
  rewrite <- insert_perm. now constructor.
Qed.

Lemma sort_In l x : In x (Js.sort cmp l) <-> In x l.
Proof.
  split; apply Permutation_in; [symmetry|]; apply sort_perm.
Qed.

(** An order that the comparator decides. *)
Variable le : A -> A -> Prop.
Hypothesis le_trans : forall x y z, le x y -> le y z -> le x z.
Hypothesis cmp_positive : forall x y, Js.positive (cmp x y) = true -> le y x.
Hypothesis cmp_other : forall x y, Js.positive (cmp x y) = false -> le x y.

Lemma insert_sorted x l :
  StronglySorted le l -> StronglySorted le (Js.insert cmp x l).
Proof.
  induction 1 as [|y l Hs IH Hall]; simpl.
  - constructor; constructor.
  - destruct (Js.positive (cmp x y)) eqn:E.
    + constructor; auto.
      apply Forall_forall. intros z Hz.
      apply (Permutation_in _ (Permutation_sym (insert_perm x l))) in Hz.
      destruct Hz as [<- | Hz]; auto.
      rewrite Forall_forall in Hall. auto.
    + constructor; [constructor; auto|].
      constructor; auto.
      apply Forall_forall. intros z Hz.
      rewrite Forall_forall in Hall. eauto.
Qed.

Lemma sort_sorted l : StronglySorted le (Js.sort cmp l).
Proof.
  induction l as [|x l IH]; simpl; [constructor | now apply insert_sorted].
Qed.

End SortFacts.

Lemma positive_inject_Z z : Js.positive (inject_Z z) = (0 <? z).
Proof.
  unfold Js.positive. destruct (0 <? z) eqn:E.
  - apply Z.ltb_lt in E. destruct (Qle_bool (inject_Z z) 0) eqn:G; auto.
    apply Qle_bool_iff in G. change 0%Q with (inject_Z 0) in G.
    rewrite <- Zle_Qle in G. lia.
  - apply Z.ltb_ge in E. apply negb_false_iff, Qle_bool_iff.
    change 0%Q with (inject_Z 0). now rewrite <- Zle_Qle.
Qed.

Lemma fold_left_invariant {S X : Type} (P : S -> Prop) (f : S -> X -> S) l :
  forall init,
    P init -> (forall acc x, P acc -> In x l -> P (f acc x)) ->
    P (fold_left f l init).
Proof.
  induction l as [|x l IH]; intros init Hinit Hstep; simpl; auto.
  apply IH.
  - apply Hstep; [assumption | now left].
  - intros acc y Hacc Hy. apply Hstep; [assumption | now right].
Qed.

(** * Parsing the rack *)

Section Parsing.

Lemma isWildcardChar_iff c :
  isWildcardChar c = true <-> In c Utils.WILDCARD_CHARS.
Proof.
  unfold isWildcardChar, Js.includes. rewrite existsb_exists. split.
  - intros (x & Hx & E). apply Z.eqb_eq in E. now subst.
  - intros Hc. exists c. split; [assumption | apply Z.eqb_refl].
Qed.

Lemma scanFrom_spec n : forall m k,
  scanFrom n (m, k)
  = (countInto m (filter (fun c => negb (isWildcardChar c)) n),
     k + Js.length (filter isWildcardChar n)).
Proof.
  unfold Js.length.
  induction n as [|c n IH]; intros m k.
  - simpl. f_equal. lia.
  - unfold scanFrom in *. cbn [fold_left filter].
    fold (isWildcardChar c). destruct (isWildcardChar c) eqn:W; cbn [negb].
    + rewrite IH. f_equal. cbn [List.length]. lia.
    + assert (Hc : (c =? 32) = false).
      { destruct (c =? 32) eqn:E; auto. apply Z.eqb_eq in E. subst c.
        discriminate W. }
      rewrite Hc. cbn [negb]. rewrite IH. reflexivity.
Qed.

Lemma wildcards_counted n :
  Js.length (filter isWildcardChar n)
  = occ 63 n + occ 95 n + occ 42 n + occ 32 n.
Proof.
  unfold Js.length. induction n as [|c n IH].
  - reflexivity.
  - rewrite !occ_cons. cbn [filter].
    replace (isWildcardChar c)
      with ((63 =? c) || (95 =? c) || (42 =? c) || (32 =? c)).
    2:{ unfold isWildcardChar, Js.includes, Utils.WILDCARD_CHARS.
        cbn [existsb]. rewrite !(Z.eqb_sym c), orb_false_r, !orb_assoc.
        reflexivity. }
    destruct (63 =? c) eqn:E1; destruct (95 =? c) eqn:E2;
      destruct (42 =? c) eqn:E3; destruct (32 =? c) eqn:E4;
      cbn [orb List.length]; rewrite ?Nat2Z.inj_succ; try lia;
      repeat match goal with
             | H : (_ =? _) = true |- _ => apply Z.eqb_eq in H
             end; lia.
Qed.

Lemma occ_filter (p : char -> bool) c n :
  p c = true -> occ c (filter p n) = occ c n.
Proof.
  intros Hp. induction n as [|x n IH]; [reflexivity|].
  cbn [filter]. rewrite occ_cons. destruct (c =? x) eqn:E.
  - apply Z.eqb_eq in E. subst x. rewrite Hp, occ_cons, Z.eqb_refl, IH. reflexivity.
  - destruct (p x); [rewrite occ_cons, E|]; rewrite IH; reflexivity.
Qed.

Lemma scanFrom_scanned n :
  scanned {| Utils.letterCounts := fst (scanFrom n (JsMap.empty, 0));
             Utils.wildcards := snd (scanFrom n (JsMap.empty, 0)) |} n.
Proof.
  rewrite scanFrom_spec. unfold scanned. cbn [fst snd Utils.letterCounts Utils.wildcards].
  repeat split.
  - rewrite wildcards_counted. lia.
  - intros c Hc. apply get_none_keys. rewrite countInto_keys.
    intros [[] | Hin]. apply filter_In in Hin as [_ Hw].
    apply isWildcardChar_iff in Hc. now rewrite Hc in Hw.
  - intros c Hc. unfold rackCount. rewrite countInto_get.
    change (Js.orZero (JsMap.get JsMap.empty c)) with 0. rewrite Z.add_0_l.
    apply occ_filter. destruct (isWildcardChar c) eqn:W; auto.
    apply isWildcardChar_iff in W. contradiction.
  - apply countInto_positive. constructor.
  - apply countInto_isMap. constructor.
Qed.

Context {cm : CaseMapping}.

Lemma utils_parseLetters_scan s :
  Utils.parseLetters s
  = {| Utils.letterCounts :=
         fst (scanFrom (Utils.normalizeString s) (JsMap.empty, 0));
       Utils.wildcards :=
         snd (scanFrom (Utils.normalizeString s) (JsMap.empty, 0)) |}.
Proof.
  unfold Utils.parseLetters. fold (scanFrom (Utils.normalizeString s) (JsMap.empty, 0)).
  now destruct (scanFrom _ _).
Qed.

Lemma worker_parseLetters_scan s :
  let n := Js.collapseWhiteSpace (toUpperCase (Js.trim s)) in
  SearchWorker.parseLetters s
  = {| Utils.letterCounts := fst (scanFrom n (JsMap.empty, 0));
       Utils.wildcards := snd (scanFrom n (JsMap.empty, 0)) |}.
Proof.
  intros n. unfold SearchWorker.parseLetters.
  change (fold_left _ _ (JsMap.empty, 0)) with (scanFrom n (JsMap.empty, 0)).
  now destruct (scanFrom _ _).
Qed.

Lemma utils_parseLetters_scanned s :
  scanned (Utils.parseLetters s) (Utils.normalizeString s).
Proof. rewrite utils_parseLetters_scan. apply scanFrom_scanned. Qed.

(** C6, as the code has it.  [parseLetters] (in utils.js and in the
    worker) scans the normalized string so that each of the four wildcard
    characters, the space among them, adds one to the wildcard count and
    leaves the map alone, and every other character adds one to its own
    entry; every stored count is at least 1 and every key is stored
    once. *)
Theorem parseLetters_scans_normalized (s : jsstring) :
  scanned (Utils.parseLetters s) (Utils.normalizeString s)
  /\ scanned (SearchWorker.parseLetters s)
       (Js.collapseWhiteSpace (toUpperCase (Js.trim s))).
Proof.
  split; [apply utils_parseLetters_scanned|].
  rewrite worker_parseLetters_scan. apply scanFrom_scanned.
Qed.

End Parsing.

(** * Scoring *)

Section Score.

Variable value : char -> Z.
Hypothesis value_nonneg : forall c, 0 <= value c.

Lemma tally_spec word : forall t lp,
  fold_left
    (fun '(totalPoints, letterPoints) letter =>
       let points := value letter in
       (totalPoints + points,
        letterPoints
          ++ [{| Scoring.letter := letter; Scoring.points := points |}]))
    word (t, lp)
  = (t + Zsum (map value word), lp ++ pointsOf value word).
Proof.
  induction word as [|c word IH]; intros t lp.
  - simpl. now rewrite Z.add_0_r, app_nil_r.
  - cbn [fold_left]. rewrite IH. cbn [map pointsOf Zsum fold_right].
    fold (Zsum (map value word)). rewrite <- app_assoc. f_equal. lia.
Qed.

Lemma firstn_snoc {X : Type} (d : X) (l : list X) : forall n,
  (n < List.length l)%nat -> firstn (S n) l = firstn n l ++ [nth n l d].
Proof.
  induction l as [|x l IH]; intros n Hn; simpl in Hn; [lia|].
  destruct n as [|n]; [reflexivity|].
  cbn [firstn nth app]. f_equal. apply IH. lia.
Qed.

Lemma subtract_spec (l : list Scoring.letterPoint) n : forall t,
  (n <= List.length l)%nat ->
  fold_left
    (fun totalPoints i =>
       totalPoints - Scoring.points (nth i l Scoring.noLetter))
    (seq 0 n) t
  = t - Zsum (map Scoring.points (firstn n l)).
Proof.
  induction n as [|n IH]; intros t Hn.
  - simpl. lia.
  - rewrite seq_S, fold_left_app, IH by lia. cbn [fold_left Nat.add].
    rewrite (firstn_snoc Scoring.noLetter) by lia.
    rewrite map_app, Zsum_app. simpl. lia.
Qed.

Lemma sorted_split {X : Type} (le : X -> X -> Prop) (l : list X) :
  StronglySorted le l ->
  forall n x y, In x (firstn n l) -> In y (skipn n l) -> le x y.
Proof.
  induction 1 as [|a l Hs IH Hall]; intros n x y Hx Hy.
  - destruct n; contradiction.
  - destruct n as [|n]; [contradiction|].
    cbn [firstn skipn] in *. destruct Hx as [<- | Hx].
    + rewrite Forall_forall in Hall. apply Hall.
      rewrite <- (firstn_skipn n l). apply in_or_app. now right.
    + eauto.
Qed.

Lemma points_pointsOf word : map Scoring.points (pointsOf value word) = map value word.
Proof. unfold pointsOf. rewrite map_map. reflexivity. Qed.

Lemma values_total_nonneg (l : list char) : 0 <= Zsum (map value l).
Proof.
  apply Zsum_nonneg, Forall_forall. intros x Hx.
  apply in_map_iff in Hx as (c & <- & _). apply value_nonneg.
Qed.

(** The [jokersUsed] highest values come off the total. *)
Lemma scoreWith_highest word k :
  0 <= k <= Js.length word ->
  exists top,
    highest k (map value word) top
    /\ scoreWith value word k = Zsum (map value word) - Zsum top
    /\ 0 <= scoreWith value word k <= Zsum (map value word).
Proof.
  intros Hk. pose proof (values_total_nonneg word) as Htot.
  unfold scoreWith. rewrite tally_spec. cbn [app]. rewrite Z.add_0_l.
  destruct word as [|c word].
  - exists []. cbn in Hk. assert (k = 0) by lia. subst k.
    split; [|simpl; lia]. exists []. simpl. repeat split; auto; contradiction.
  - cbn [Js.falsy orb]. destruct (k <? 0) eqn:Eneg; [lia|].
    destruct (k >? 0) eqn:Epos; cbn [andb].
    + destruct (k <=? Js.length (c :: word)) eqn:Ele; [|lia].
      set (sorted := Js.sort _ (pointsOf value (c :: word))).
      assert (Hperm : Permutation (pointsOf value (c :: word)) sorted)
        by apply sort_perm.
      assert (Hlen : List.length sorted = List.length (c :: word)).
      { rewrite <- (Permutation_length Hperm). unfold pointsOf.
        apply length_map. }
      unfold Js.length in Hk.
      rewrite subtract_spec by lia.
      set (top := map Scoring.points (firstn (Z.to_nat k) sorted)).
      set (rest := map Scoring.points (skipn (Z.to_nat k) sorted)).
      assert (Hsplit : Permutation (top ++ rest) (map value (c :: word))).
      { subst top rest. rewrite <- map_app, firstn_skipn.
        rewrite <- points_pointsOf. apply Permutation_map.
        now symmetry. }
      assert (Hrest : 0 <= Zsum rest).
      { apply Zsum_nonneg, Forall_forall. intros x Hx.
        assert (Hin : In x (map value (c :: word))).
        { apply (Permutation_in _ Hsplit). apply in_or_app. now right. }
        apply in_map_iff in Hin as (c' & <- & _). apply value_nonneg. }
      assert (Htop : 0 <= Zsum top).
      { apply Zsum_nonneg, Forall_forall. intros x Hx.
        assert (Hin : In x (map value (c :: word))).
        { apply (Permutation_in _ Hsplit). apply in_or_app. now left. }
        apply in_map_iff in Hin as (c' & <- & _). apply value_nonneg. }
      pose proof (Zsum_perm _ _ Hsplit) as Hsum. rewrite Zsum_app in Hsum.
      exists top. split; [|lia].
      exists rest. split; [exact Hsplit|]. split.
      * subst top. unfold Js.length. rewrite length_map, length_firstn. lia.
      * intros x y Hx Hy. subst top rest.
        apply in_map_iff in Hx as (a & <- & Ha).
        apply in_map_iff in Hy as (b & <- & Hb).
        apply (sorted_split
                 (fun a b => Scoring.points b <= Scoring.points a) sorted)
          with (n := Z.to_nat k); auto.
        subst sorted. apply sort_sorted.
        -- intros; lia.
        -- intros p q Hpq. rewrite positive_inject_Z in Hpq.
           apply Z.ltb_lt in Hpq. lia.
        -- intros p q Hpq. rewrite positive_inject_Z in Hpq.
           apply Z.ltb_ge in Hpq. lia.
    + assert (k = 0) by lia. subst k. exists [].
      split; [|change (Zsum []) with 0; lia].
      exists (map value (c :: word)).
      repeat split; auto; contradiction.
Qed.

(** Outside [0 .. word.length]: a count above the length leaves the total
    alone, a negative count gives 0. *)
Lemma scoreWith_outside word k :
  word <> [] ->
  (Js.length word < k -> scoreWith value word k = Zsum (map value word))
  /\ (k < 0 -> scoreWith value word k = 0).
Proof.
  intros Hne. unfold scoreWith. rewrite tally_spec. rewrite Z.add_0_l.
  destruct word as [|c word]; [contradiction|]. cbn [Js.falsy orb].
  pose proof (Zle_0_nat (List.length (c :: word))) as Hlen.
  split; intros Hk.
  - unfold Js.length in *. destruct (k <? 0) eqn:E1; [lia|].
    destruct (k <=? Z.of_nat (List.length (c :: word))) eqn:E2; [lia|].
    now rewrite andb_false_r.
  - destruct (k <? 0) eqn:E1; [reflexivity | lia].
Qed.

End Score.

Section ScoreWord.

Context {cm : CaseMapping}.

Lemma LETTER_VALUES_nonneg : nonneg Scoring.LETTER_VALUES.
Proof. unfold nonneg. repeat constructor; discriminate. Qed.

Lemma getLetterValue_nonneg c : 0 <= Scoring.getLetterValue c.
Proof.
  unfold Scoring.getLetterValue, Scoring.valueOf.
  destruct (toUpperCase [c]) as [|u [|]]; try lia.
  apply nonneg_get, LETTER_VALUES_nonneg.
Qed.

Lemma workerValue_nonneg c : 0 <= workerValue c.
Proof. apply nonneg_get, LETTER_VALUES_nonneg. Qed.

Lemma scoring_scoreWord_body w k :
  Scoring.scoreWord w k = scoreWith Scoring.getLetterValue w k.
Proof. reflexivity. Qed.

Lemma worker_scoreWord_body w k :
  SearchWorker.scoreWord w k = scoreWith workerValue w k.
Proof. reflexivity. Qed.

(** A symbol that is not in the table is worth nothing. *)
Lemma absent_symbol_value c :
  JsMap.get Scoring.LETTER_VALUES c = None ->
  workerValue c = 0
  /\ (toUpperCase [c] = [c] -> Scoring.getLetterValue c = 0).
Proof.
  intros Hc. split.
  - unfold workerValue. change SearchWorker.LETTER_VALUES with Scoring.LETTER_VALUES.
    now rewrite Hc.
  - intros Hup. unfold Scoring.getLetterValue, Scoring.valueOf.
    now rewrite Hup, Hc.
Qed.

(** C4.  For [0 <= k <= word.length], [scoreWord(w, k)] is the sum of the
    letter values of [w] minus the sum of its [k] highest letter values,
    and lies between 0 and the sum of the letter values; so in scoring.js
    and so in the worker. *)
Theorem scoreWord_minus_highest (w : jsstring) (k : Z) :
  0 <= k <= Js.length w ->
  scoresWithout Scoring.getLetterValue Scoring.scoreWord w k
  /\ scoresWithout workerValue SearchWorker.scoreWord w k.
Proof.
  intros Hk. split.
  - apply (scoreWith_highest _ getLetterValue_nonneg _ _ Hk).
  - apply (scoreWith_highest _ workerValue_nonneg _ _ Hk).
Qed.

(** C5, as the code has it.  For a non-empty word, a wildcard count above
    the word's length leaves the plain sum of the letter values, and a
    negative count makes [scoreWord] return 0. *)
Theorem scoreWord_outside_range (w : jsstring) (k : Z) :
  w <> [] ->
  (Js.length w < k ->
     Scoring.scoreWord w k = Zsum (map Scoring.getLetterValue w)
     /\ SearchWorker.scoreWord w k = Zsum (map workerValue w))
  /\ (k < 0 -> Scoring.scoreWord w k = 0 /\ SearchWorker.scoreWord w k = 0).
Proof.
  intros Hw.
  destruct (scoreWith_outside Scoring.getLetterValue w k Hw) as [Hm1 Hm2].
  destruct (scoreWith_outside workerValue w k Hw) as [Hw1 Hw2].
  split; intros Hk; split; auto.
Qed.

End ScoreWord.

(** * The board pattern *)

Section BoardPattern.

Lemma compile_loop trimmed : forall source count,
  fold_left
    (fun '(regexSource, wildcardCount) ch =>
       if ch =? 46 then (regexSource ++ [RegExp.AnyChar], wildcardCount + 1)
       else if ch =? 42 then (regexSource ++ [RegExp.AnyRun], wildcardCount + 1)
       else if ch =? 32 then (regexSource, wildcardCount)
       else (regexSource ++ [RegExp.Literal ch], wildcardCount))
    trimmed (source, count)
  = (source ++ compilePattern trimmed, count + wildcardSymbols trimmed).
Proof.
  unfold wildcardSymbols.
  induction trimmed as [|ch t IH]; intros source count.
  - cbn. now rewrite app_nil_r, Z.add_0_r.
  - cbn [fold_left compilePattern flat_map]. rewrite !occ_cons.
    rewrite (Z.eqb_sym 46 ch), (Z.eqb_sym 42 ch).
    destruct (ch =? 46) eqn:E1.
    + apply Z.eqb_eq in E1. subst ch. cbn [Z.eqb Pos.eqb].
      rewrite IH, <- app_assoc. f_equal. lia.
    + destruct (ch =? 42) eqn:E2.
      * rewrite IH, <- app_assoc. f_equal. lia.
      * destruct (ch =? 32); rewrite IH; [|rewrite <- app_assoc];
          f_equal; lia.
Qed.

Context {cm : CaseMapping}.

Lemma worker_matchesBoardPattern_same wordUpper pattern :
  SearchWorker.matchesBoardPattern wordUpper pattern
  = SearchEngine.matchesBoardPattern wordUpper pattern.
Proof. reflexivity. Qed.

(** C7.  [matchesBoardPattern] answers [false] whenever the trimmed
    pattern has more than 50 characters or more than 15 wildcard symbols
    ([.] or [*]); a pattern within both caps, 50 characters and 15 symbols
    included, is decided by the regular expression alone. *)
Theorem matchesBoardPattern_caps (wordUpper pattern : jsstring) :
  let trimmed := toUpperCase (Js.trim pattern) in
  (50 < Js.length trimmed \/ 15 < wildcardSymbols trimmed ->
     SearchEngine.matchesBoardPattern wordUpper pattern = false)
  /\ (trimmed <> [] -> Js.length trimmed <= 50 ->
      wildcardSymbols trimmed <= 15 ->
      SearchEngine.matchesBoardPattern wordUpper pattern
      = RegExp.test (compilePattern trimmed) wordUpper).
Proof.
  intros trimmed. unfold SearchEngine.matchesBoardPattern. fold trimmed.
  rewrite compile_loop. cbn [app]. rewrite Z.add_0_l.
  assert (Hlen : 0 <= Js.length trimmed) by (unfold Js.length; lia).
  split.
  - intros Hcap. destruct trimmed as [|c t] eqn:Et.
    + exfalso. cbn in Hcap. lia.
    + cbn [Js.falsy].
      destruct (Js.length (c :: t) >? 50) eqn:E1; [reflexivity|].
      destruct (wildcardSymbols (c :: t) >? 15) eqn:E2; [reflexivity|].
      lia.
  - intros Hne Hl Hs. destruct trimmed as [|c t] eqn:Et; [contradiction|].
    cbn [Js.falsy].
    destruct (Js.length (c :: t) >? 50) eqn:E1; [lia|].
    destruct (wildcardSymbols (c :: t) >? 15) eqn:E2; [lia|].
    reflexivity.
Qed.

End BoardPattern.

(** * Which words the engine accepts *)

Section RackTiles.

Variable R : JsMap.t.
Hypothesis R_nonneg : nonneg R.
Variable B : option JsMap.t.
Hypothesis B_ok : boardOk B.
Variable w : jsstring.

Lemma Zsum_positive l : 0 < Zsum l -> exists x, In x l /\ 0 < x.
Proof.
  induction l as [|x l IH]; simpl; [lia|]. intros Hs.
  destruct (Z_lt_le_dec 0 x) as [Hx|Hx].
  - exists x. auto.
  - destruct IH as (y & Hy & Hpos); [lia|]. exists y. auto.
Qed.

Lemma entry_uses_letter skipZero l c :
  (skipZero = false -> B = None) ->
  In (l, c) (wordCounts w B) ->
  entryUses skipZero R (l, c) = true ->
  In l w /\ 0 < residual B w l /\ 0 < rackCount R l.
Proof.
  intros Hskip Hin Huse.
  destruct (wordCounts_entry B B_ok w l c Hin) as [Hl ->].
  unfold entryUses in Huse. cbn [fst snd] in Huse.
  apply andb_prop in Huse as [Hnz Hrack].
  apply Z.gtb_lt in Hrack. repeat split; auto.
  pose proof (residual_bounds B B_ok w l) as Hb.
  destruct skipZero.
  - cbn [andb] in Hnz. apply negb_true_iff, Z.eqb_neq in Hnz. lia.
  - rewrite (Hskip eq_refl). unfold residual, boardCount.
    apply occ_pos in Hl. lia.
Qed.

Lemma need_has_letter :
  0 < Zsum (map (entryNeed R) (wordCounts w B)) ->
  exists l, In l w /\ 0 < residual B w l.
Proof.
  intros Hpos. apply Zsum_positive in Hpos as (x & Hx & Hpos).
  apply in_map_iff in Hx as ([l c] & <- & Hin).
  destruct (wordCounts_entry B B_ok w l c Hin) as [Hl ->].
  exists l. split; auto.
  unfold entryNeed in Hpos. cbn [fst snd] in Hpos.
  pose proof (rackCount_nonneg R R_nonneg l). lia.
Qed.

(** A word that a check of utils.js lets through has a letter that the
    board does not fully supply and that a rack tile covers: a letter tile
    or a wildcard. *)
Lemma utils_check_uses_tile skipZero j :
  (skipZero = false -> B = None) ->
  let formed :=
    finish true j (coverFrom skipZero R (wordCounts w B) (0, false)) in
  Utils.canForm formed = true ->
  Utils.usedUserLetters formed = true ->
  exists c,
    In c w /\ 0 < residual B w c
    /\ (0 < rackCount R c \/ 0 < Utils.wildcardsUsed formed).
Proof.
  intros Hskip formed. subst formed.
  rewrite (coverFrom_spec R R_nonneg). rewrite Z.add_0_l.
  cbn [finish Utils.canForm Utils.usedUserLetters Utils.wildcardsUsed orb].
  intros Hcan Huse. rewrite Hcan.
  destruct (_ >? 0) eqn:Hneed.
  - apply Z.gtb_lt in Hneed.
    destruct (need_has_letter Hneed) as (l & Hl & Hres).
    exists l. auto.
  - apply existsb_exists in Huse as ([l c] & Hin & Hentry).
    destruct (entry_uses_letter skipZero l c Hskip Hin Hentry)
      as (Hl & Hres & Hrack).
    exists l. auto.
Qed.

(** The worker only counts letter tiles. *)
Lemma worker_check_uses_letter skipZero j :
  (skipZero = false -> B = None) ->
  let formed :=
    finish false j (coverFrom skipZero R (wordCounts w B) (0, false)) in
  Utils.usedUserLetters formed = true ->
  exists c, In c w /\ 0 < residual B w c /\ 0 < rackCount R c.
Proof.
  intros Hskip formed. subst formed.
  rewrite (coverFrom_spec R R_nonneg).
  cbn [finish Utils.usedUserLetters orb]. intros Huse.
  apply existsb_exists in Huse as ([l c] & Hin & Hentry).
  exists l. now apply (entry_uses_letter skipZero l c).
Qed.

End RackTiles.

Section Search.

Context {cm : CaseMapping}.

Lemma sortResults_perm results sortBy :
  Permutation results (SearchEngine.sortResults results sortBy).
Proof.
  unfold SearchEngine.sortResults.
  repeat match goal with |- context [if ?b then _ else _] => destruct b end;
    apply sort_perm.
Qed.

Lemma searchWords_accepted allWords lettersString f r :
  In r (SearchEngine.results
          (SearchEngine.searchWords allWords lettersString f)) ->
  In (SearchEngine.word r) allWords /\ accepted lettersString f r.
Proof.
  unfold SearchEngine.searchWords.
  match goal with
  | |- context [fold_left ?step allWords ?init] =>
      set (loop := fold_left step allWords init);
      assert (Hinv : Forall
                (fun r => In (SearchEngine.word r) allWords
                          /\ accepted lettersString f r) (fst loop))
  end.
  { subst loop. apply fold_left_invariant.
    - constructor.
    - intros [results seen] word Hacc Hword. cbn [fst] in *.
      destruct (Js.setHas seen _); [exact Hacc|].
      fold (boardOf f) (rackOf lettersString) (jokersOf lettersString).
      fold (formedBy lettersString f word).
      destruct (Utils.canForm (formedBy lettersString f word)) eqn:E1;
        cbn [negb]; [|exact Hacc].
      destruct (Utils.usedUserLetters (formedBy lettersString f word)) eqn:E2;
        cbn [negb]; [|exact Hacc].
      destruct (SearchEngine.passesFilters word f) eqn:E3;
        cbn [negb]; [|exact Hacc].
      cbn [fst]. apply Forall_app. split; [exact Hacc|].
      constructor; [|constructor].
      unfold accepted. cbn. repeat split; auto. }
  destruct loop as [results seen]. cbn [SearchEngine.results fst] in *.
  intros Hin.
  apply (Permutation_in _ (Permutation_sym (sortResults_perm _ _))) in Hin.
  rewrite Forall_forall in Hinv. auto.
Qed.

Lemma buildExtra_counts pattern :
  exists letters,
    Utils.buildExtraLettersFromPattern pattern
    = countInto JsMap.empty letters.
Proof.
  assert (Hloop : forall n m,
    fold_left
      (fun extra ch =>
         if Js.includes Utils.DANISH_ALPHABET ch
         then JsMap.set extra ch (Js.orZero (JsMap.get extra ch) + 1)
         else extra) n m
    = countInto m (filter (Js.includes Utils.DANISH_ALPHABET) n)).
  { induction n as [|ch n IH]; intros m; [reflexivity|].
    cbn [fold_left filter].
    destruct (Js.includes Utils.DANISH_ALPHABET ch); apply IH. }
  unfold Utils.buildExtraLettersFromPattern.
  destruct pattern as [pattern|]; [|now exists []].
  destruct (Js.falsy pattern); [now exists []|].
  rewrite Hloop. eauto.
Qed.

Lemma boardOf_ok f : boardOk (Some (boardOf f)).
Proof.
  unfold boardOf. destruct (buildExtra_counts (SearchEngine.boardPattern f))
    as (letters & ->).
  split; [apply countInto_empty_isMap | apply countInto_empty_nonneg].
Qed.

Lemma rackOf_nonneg s : nonneg (rackOf s).
Proof.
  apply positive_nonneg.
  apply (utils_parseLetters_scanned s).
Qed.

(** How far the test on [usedUserLetters] in [searchWords] reaches.  A
    word is returned only if some letter of the word that the board-fixed
    letters do not fully absorb is covered from the rack: by a letter tile
    (a positive count in the rack) or by a wildcard.  A word whose letters
    the board absorbs entirely is never returned; a word that wildcards
    alone cover is let through, against the comment above the test. *)
Theorem searchWords_uses_rack_tile
    (allWords : list jsstring) (lettersString : jsstring)
    (f : SearchEngine.filters) (r : SearchEngine.candidate) :
  In r (SearchEngine.results
          (SearchEngine.searchWords allWords lettersString f)) ->
  exists c,
    In c (SearchEngine.word r)
    /\ 0 < residual (Some (boardOf f)) (SearchEngine.word r) c
    /\ (0 < rackCount (rackOf lettersString) c
        \/ 0 < SearchEngine.usedJokers r).
Proof.
  intros Hin.
  destruct (searchWords_accepted _ _ _ _ Hin)
    as (_ & Hcan & Huse & _ & _ & _ & ->).
  set (w := SearchEngine.word r) in *.
  unfold formedBy in *.
  destruct (JsMap.size (boardOf f) >? 0) eqn:Hsize.
  - rewrite utils_canFormWordWithExtras_loops in *.
    apply (utils_check_uses_tile (rackOf lettersString)
             (rackOf_nonneg lettersString) (Some (boardOf f))
             (boardOf_ok f) w true); auto; discriminate.
  - assert (Hempty : boardOf f = []).
    { destruct (boardOf f); [reflexivity|].
      unfold JsMap.size in Hsize. cbn [List.length] in Hsize.
      rewrite Z.gtb_ltb in Hsize. apply Z.ltb_ge in Hsize. lia. }
    rewrite Hempty.
    assert (Hres : forall c, residual (Some []) w c = residual None w c)
      by reflexivity.
    rewrite utils_canFormWord_loops in *.
    destruct (utils_check_uses_tile (rackOf lettersString)
                (rackOf_nonneg lettersString) None I w false
                (jokersOf lettersString) (fun _ => eq_refl) Hcan Huse)
      as (c & Hc & Hr & Ht).
    exists c. rewrite Hres. auto.
Qed.

(** *** The worker *)

Lemma worker_sortResults_perm results sortBy :
  Permutation results (SearchWorker.sortResults results sortBy).
Proof.
  unfold SearchWorker.sortResults.
  repeat match goal with |- context [if ?b then _ else _] => destruct b end;
    apply sort_perm.
Qed.

Lemma workerRackOf_nonneg s : nonneg (workerRackOf s).
Proof.
  apply positive_nonneg. unfold workerRackOf.
  rewrite worker_parseLetters_scan. apply scanFrom_scanned.
Qed.

Lemma workerBoardOf_ok f : boardOk (Some (workerBoardOf f)).
Proof.
  assert (Hloop : forall n m,
    fold_left
      (fun extra ch =>
         if Js.includes SearchWorker.DANISH_ALPHABET ch
         then JsMap.set extra ch (Js.orZero (JsMap.get extra ch) + 1)
         else extra) n m
    = countInto m (filter (Js.includes SearchWorker.DANISH_ALPHABET) n)).
  { induction n as [|ch n IH]; intros m; [reflexivity|].
    cbn [fold_left filter].
    destruct (Js.includes SearchWorker.DANISH_ALPHABET ch); apply IH. }
  unfold workerBoardOf, SearchWorker.buildExtraLettersFromPattern.
  destruct (SearchEngine.boardPattern f) as [pattern|];
    [|split; constructor].
  destruct (Js.falsy pattern); [split; constructor|].
  rewrite Hloop.
  split; [apply countInto_empty_isMap | apply countInto_empty_nonneg].
Qed.

(** The worker, whose checks lack the joker step, returns a word only if a
    letter tile of the rack covers one of its letters that the board does
    not fully supply. *)
Lemma handleSearch_uses_rack_letter st payload response r :
  SearchWorker.handleSearch st payload = Some response ->
  In r (SearchEngine.results response) ->
  exists c,
    In c (SearchEngine.word r)
    /\ 0 < residual (Some (workerBoardOf (SearchWorker.filters payload)))
             (SearchEngine.word r) c
    /\ 0 < rackCount (workerRackOf (SearchWorker.lettersString payload)) c.
Proof.
  unfold SearchWorker.handleSearch.
  destruct (Js.length (SearchWorker.lettersString payload) >? 15);
    [discriminate|].
  set (R := workerRackOf (SearchWorker.lettersString payload)).
  set (B := workerBoardOf (SearchWorker.filters payload)).
  fold (workerRackOf (SearchWorker.lettersString payload)).
  fold (workerBoardOf (SearchWorker.filters payload)). fold R B.
  match goal with
  | |- context [fold_left ?step (SearchWorker.wordlist st) ?init] =>
      set (loop := fold_left step (SearchWorker.wordlist st) init);
      assert (Hinv : Forall
                (fun r => exists c,
                   In c (SearchEngine.word r)
                   /\ 0 < residual (Some B) (SearchEngine.word r) c
                   /\ 0 < rackCount R c) (fst loop))
  end.
  { subst loop. apply fold_left_invariant.
    - constructor.
    - intros [results seen] word Hacc _. cbn [fst] in *.
      destruct (Js.setHas seen _); [exact Hacc|].
      match goal with
      | |- context [Utils.canForm ?formed] => set (formed' := formed)
      end.
      destruct (Utils.canForm formed'); cbn [negb]; [|exact Hacc].
      destruct (Utils.usedUserLetters formed') eqn:Huse;
        cbn [negb]; [|exact Hacc].
      destruct (SearchWorker.passesFilters word _); cbn [negb]; [|exact Hacc].
      cbn [fst]. apply Forall_app. split; [exact Hacc|].
      constructor; [|constructor]. cbn [SearchEngine.word].
      subst formed'.
      destruct (JsMap.size B >? 0) eqn:Hsize.
      + rewrite worker_canFormWordWithExtras_loops in Huse.
        eapply (worker_check_uses_letter R (workerRackOf_nonneg _) (Some B)
                  (workerBoardOf_ok _) word true);
          [discriminate | exact Huse].
      + assert (Hempty : B = []).
        { destruct B; [reflexivity|].
          unfold JsMap.size in Hsize. cbn [List.length] in Hsize.
          rewrite Z.gtb_ltb in Hsize. apply Z.ltb_ge in Hsize. lia. }
        rewrite Hempty. rewrite worker_canFormWord_loops in Huse.
        destruct (worker_check_uses_letter R (workerRackOf_nonneg _) None I
                    word false _ (fun _ => eq_refl) Huse)
          as (c & Hc & Hr & Ht).
        exists c. auto. }
  destruct loop as [results seen]. cbn [fst] in Hinv.
  intros [= <-] Hin. cbn [SearchEngine.results] in Hin.
  apply (Permutation_in _ (Permutation_sym (worker_sortResults_perm _ _)))
    in Hin.
  rewrite Forall_forall in Hinv. auto.
Qed.

End Search.

(** * Ranking *)

Section DanishOrder.

Lemma danishLe_trans a b c : danishLe a b -> danishLe b c -> danishLe a c.
Proof.
  intros Hab. revert c.
  induction Hab as [b | x a y b Hlt | x a y b Heq Hab IH]; intros c Hbc.
  - constructor.
  - inversion Hbc; subst; apply danish_before; lia.
  - inversion Hbc; subst.
    + apply danish_before; lia.
    + apply danish_same; [lia | auto].
Qed.

Lemma danishLe_prefix a b : danishLe a (a ++ b).
Proof.
  induction a as [|x a IH]; simpl; [constructor | now apply danish_same].
Qed.

Lemma danishLe_longer a b : danishLe (a ++ b) a -> b = [].
Proof.
  induction a as [|x a IH]; simpl; intros Hle.
  - now inversion Hle.
  - inversion Hle; subst; [lia | auto].
Qed.

(** The loop of [compareDanish] and the final length difference decide
    the order. *)
Lemma compareFrom_sign a : forall b,
  let d := match Utils.compareFrom a b with
           | Some d => d
           | None => Js.length a - Js.length b
           end in
  (d <= 0 -> danishLe a b) /\ (0 < d -> danishLe b a).
Proof.
  unfold Js.length.
  induction a as [|x a IH]; intros b; destruct b as [|y b]; cbn zeta.
  - split; constructor.
  - split; [constructor | cbn; lia].
  - split; [cbn; lia | constructor].
  - cbn [Utils.compareFrom]. fold (position x) (position y).
    destruct (position x =? position y) eqn:E; cbn [negb].
    + apply Z.eqb_eq in E. specialize (IH b). cbn zeta in IH.
      cbn [List.length]. rewrite !Nat2Z.inj_succ.
      replace (Z.succ (Z.of_nat (List.length a))
               - Z.succ (Z.of_nat (List.length b)))
        with (Z.of_nat (List.length a) - Z.of_nat (List.length b)) by lia.
      destruct IH as [IH1 IH2].
      split; intros Hd; apply danish_same; auto.
    + apply Z.eqb_neq in E.
      split; intros Hd; apply danish_before; lia.
Qed.

End DanishOrder.

Section Ranking.

Context {cm : CaseMapping}.

Lemma compareDanish_sign a b :
  (Utils.compareDanish a b <= 0 ->
     danishLe (toUpperCase a) (toUpperCase b))
  /\ (0 < Utils.compareDanish a b ->
        danishLe (toUpperCase b) (toUpperCase a)).
Proof. apply compareFrom_sign. Qed.

Lemma sort_alpha_sorted results :
  StronglySorted alphaOrder
    (Js.sort
       (fun a b =>
          inject_Z (Utils.compareDanish (SearchEngine.word a)
                      (SearchEngine.word b)))
       results).
Proof.
  apply sort_sorted.
  - intros x y z. apply danishLe_trans.
  - intros x y Hp. rewrite positive_inject_Z in Hp. apply Z.ltb_lt in Hp.
    now apply (proj2 (compareDanish_sign _ _)).
  - intros x y Hp. rewrite positive_inject_Z in Hp. apply Z.ltb_ge in Hp.
    now apply (proj1 (compareDanish_sign _ _)).
Qed.

(** C9.  With [sortBy = 'alpha'] the results come out ordered
    lexicographically by the position of each (uppercased) character in
    the Danish alphabet: any result stands before every later one in
    [danishLe].  In that order Z (90), Æ (198), Ø (216) and Å (197) follow
    each other, whatever their character codes; and a word comes before,
    and never after, a longer word that it is a prefix of. *)
Theorem alpha_sort_follows_danish_alphabet
    (allWords : list jsstring) (lettersString : jsstring)
    (f : SearchEngine.filters) :
  SearchEngine.sortBy f = Some SearchEngine.s_alpha ->
  StronglySorted alphaOrder
    (SearchEngine.results (SearchEngine.searchWords allWords lettersString f))
  /\ (position 90 = 25 /\ position 198 = 26 /\ position 216 = 27
      /\ position 197 = 28)
  /\ (forall a b, b <> [] -> danishLe a (a ++ b) /\ ~ danishLe (a ++ b) a).
Proof.
  intros Hsort. split; [|split].
  - unfold SearchEngine.searchWords. rewrite Hsort.
    match goal with
    | |- context [fold_left ?step allWords ?init] =>
        destruct (fold_left step allWords init) as [results seen]
    end.
    cbn [SearchEngine.results].
    apply sort_alpha_sorted.
  - repeat split; reflexivity.
  - intros a b Hb. split; [apply danishLe_prefix|].
    intros Hle. apply danishLe_longer in Hle. contradiction.
Qed.

(** *** The score order *)

Lemma scoreOrder_trans a b c :
  scoreOrder a b -> scoreOrder b c -> scoreOrder a c.
Proof.
  unfold scoreOrder.
  intros [H1 | (E1 & [J1 | (F1 & Q1)])] [H2 | (E2 & [J2 | (F2 & Q2)])];
    try (left; lia); right; (split; [lia|]); try (left; lia).
  right. split; [lia|]. eapply Qle_trans; eassumption.
Qed.

Lemma positive_true q : Js.positive q = true -> (0 < q)%Q.
Proof.
  unfold Js.positive. intros Hq. apply negb_true_iff in Hq.
  apply Qnot_le_lt. intros Hle. apply Qle_bool_iff in Hle. congruence.
Qed.

Lemma positive_false q : Js.positive q = false -> (q <= 0)%Q.
Proof.
  unfold Js.positive. intros Hq. apply negb_false_iff in Hq.
  now apply Qle_bool_iff.
Qed.

Lemma byScore_decides a b :
  (Js.positive (SearchEngine.byScore a b) = true -> scoreOrder b a)
  /\ (Js.positive (SearchEngine.byScore a b) = false -> scoreOrder a b).
Proof.
  unfold SearchEngine.byScore, scoreOrder.
  destruct (SearchEngine.score b =? SearchEngine.score a) eqn:Es; cbn [negb].
  - apply Z.eqb_eq in Es.
    destruct (SearchEngine.usedJokers a =? SearchEngine.usedJokers b) eqn:Ej;
      cbn [negb].
    + apply Z.eqb_eq in Ej. fold (efficiency a) (efficiency b).
      split; intros Hp; right; (split; [lia|]); right; (split; [lia|]).
      * apply positive_true in Hp. apply Qlt_le_weak.
        apply Qlt_minus_iff. exact Hp.
      * apply positive_false in Hp. apply Qle_minus_iff.
        apply Qopp_le_compat in Hp.
        setoid_replace (efficiency a + - efficiency b)%Q
          with (- (efficiency b - efficiency a))%Q by ring.
        exact Hp.
    + apply Z.eqb_neq in Ej. rewrite positive_inject_Z.
      split; intros Hp; [apply Z.ltb_lt in Hp | apply Z.ltb_ge in Hp];
        right; (split; [lia|]); left; lia.
  - apply Z.eqb_neq in Es. rewrite positive_inject_Z.
    split; intros Hp; [apply Z.ltb_lt in Hp | apply Z.ltb_ge in Hp];
      left; lia.
Qed.

(** With [sortBy = 'score'], and with no [sortBy] at all, the results are
    in score order. *)
Lemma score_sort_sorted allWords lettersString f :
  SearchEngine.sortBy f = Some SearchEngine.s_score
  \/ SearchEngine.sortBy f = None \/ SearchEngine.sortBy f = Some [] ->
  StronglySorted scoreOrder
    (SearchEngine.results (SearchEngine.searchWords allWords lettersString f)).
Proof.
  intros Hsort. unfold SearchEngine.searchWords.
  assert (Hs : SearchEngine.orString (SearchEngine.sortBy f) SearchEngine.s_score
               = SearchEngine.s_score)
    by (destruct Hsort as [-> | [-> | ->]]; reflexivity).
  rewrite Hs.
  match goal with
  | |- context [fold_left ?step allWords ?init] =>
      destruct (fold_left step allWords init) as [results seen]
  end.
  cbn [SearchEngine.results].
  apply sort_sorted.
  - intros x y z. apply scoreOrder_trans.
  - intros x y. apply byScore_decides.
  - intros x y. apply byScore_decides.
Qed.

End Ranking.

(** * Around the claims: the formability checks *)

Section ChecksCompose.

Lemma coverFrom_skip_irrelevant R m : forall start,
  positiveCounts m -> coverFrom true R m start = coverFrom false R m start.
Proof.
  induction m as [|[l c] m IH]; intros [n u] Hpos; [reflexivity|].
  inversion Hpos as [|? ? Hc Hpos']; subst. cbn [snd] in Hc.
  unfold coverFrom in *. cbn [fold_left].
  assert (E : (c =? 0) = false) by (apply Z.eqb_neq; lia).
  rewrite E. cbn [andb]. now apply IH.
Qed.

Lemma wordCounts_no_board w :
  wordCounts w (Some JsMap.empty) = wordCounts w None
  /\ positiveCounts (wordCounts w None).
Proof.
  split; [reflexivity|]. apply countInto_positive. constructor.
Qed.

Lemma utils_withExtras_empty_board (w : jsstring) (R : JsMap.t) (j : Z) :
  Utils.canFormWordWithExtras w R j (Some JsMap.empty)
  = Utils.canFormWord w R j.
Proof.
  destruct (wordCounts_no_board w) as [Hempty Hpos].
  rewrite utils_canFormWordWithExtras_loops, utils_canFormWord_loops.
  now rewrite Hempty, (coverFrom_skip_irrelevant R _ _ Hpos).
Qed.

(** X1.  Without board letters the two checks coincide: with an absent or
    an empty [extraLetters], [canFormWordWithExtras] returns what
    [canFormWord] returns, in utils.js and in the worker.  So the test
    [extraLetters.size > 0] in [searchWords] and [handleSearch] chooses
    between two equal results. *)
Theorem checks_coincide_without_board (w : jsstring) (R : JsMap.t) (j : Z) :
  Utils.canFormWordWithExtras w R j None = Utils.canFormWord w R j
  /\ Utils.canFormWordWithExtras w R j (Some JsMap.empty)
     = Utils.canFormWord w R j
  /\ SearchWorker.canFormWordWithExtras w R j None
     = SearchWorker.canFormWord w R j None
  /\ SearchWorker.canFormWordWithExtras w R j (Some JsMap.empty)
     = SearchWorker.canFormWord w R j None.
Proof.
  destruct (wordCounts_no_board w) as [Hempty Hpos].
  rewrite !utils_canFormWordWithExtras_loops, utils_canFormWord_loops,
    !worker_canFormWordWithExtras_loops, worker_canFormWord_loops.
  rewrite Hempty, (coverFrom_skip_irrelevant R _ _ Hpos).
  repeat split; reflexivity.
Qed.

Lemma formedBy_withExtras {cm : CaseMapping} s f w :
  formedBy s f w
  = Utils.canFormWordWithExtras w (rackOf s) (jokersOf s) (Some (boardOf f)).
Proof.
  unfold formedBy. destruct (JsMap.size (boardOf f) >? 0) eqn:Hsize; auto.
  assert (Hempty : boardOf f = JsMap.empty).
  { destruct (boardOf f); [reflexivity|].
    unfold JsMap.size in Hsize. cbn [List.length] in Hsize.
    rewrite Z.gtb_ltb in Hsize. apply Z.ltb_ge in Hsize. lia. }
  rewrite Hempty. symmetry.
  apply utils_withExtras_empty_board.
Qed.

(** X2.  A spare wildcard changes nothing: a word that a check finds
    formable with [j] wildcards is formable with any [j' >= j], with the
    same [wildcardsUsed] and the same [usedUserLetters]. *)
Theorem more_wildcards_keep_the_answer
    (w : jsstring) (R : JsMap.t) (j j' : Z) (B : option JsMap.t) :
  j <= j' ->
  forall check,
    In check [(fun j => Utils.canFormWord w R j);
              (fun j => Utils.canFormWordWithExtras w R j B);
              (fun j => SearchWorker.canFormWord w R j B);
              (fun j => SearchWorker.canFormWordWithExtras w R j B)] ->
    Utils.canForm (check j) = true ->
    check j' = check j.
Proof.
  intros Hj check Hin.
  assert (Hshape : exists jc p, forall j, check j = finish jc j p).
  { simpl in Hin. destruct Hin as [<-|[<-|[<-|[<-|[]]]]].
    - eexists _, _. intros; apply utils_canFormWord_loops.
    - eexists _, _. intros; apply utils_canFormWordWithExtras_loops.
    - eexists _, _. intros; apply worker_canFormWord_loops.
    - eexists _, _. intros; apply worker_canFormWordWithExtras_loops. }
  destruct Hshape as (jc & [n u] & Hshape). rewrite !Hshape.
  cbn [finish Utils.canForm]. intros Hcan.
  apply Z.leb_le in Hcan.
  assert (Hcan' : (n <=? j') = true) by (apply Z.leb_le; lia).
  apply Z.leb_le in Hcan. now rewrite Hcan, Hcan'.
Qed.

Lemma shortfall_board_helps R B w c :
  boardOk B -> shortfall R B w c <= shortfall R None w c.
Proof.
  intros HB. pose proof (boardCount_nonneg B HB c).
  unfold shortfall, residual. cbn [boardCount]. lia.
Qed.

(** X3.  Letters on the board never hurt: a word that [canFormWord] finds
    formable from the rack alone stays formable when board letters are
    taken into account, and does not need more wildcards. *)
Theorem board_letters_never_hurt
    (w : jsstring) (R : JsMap.t) (j : Z) (B : option JsMap.t) :
  nonneg R -> boardOk B ->
  Utils.canForm (Utils.canFormWord w R j) = true ->
  Utils.canForm (Utils.canFormWordWithExtras w R j B) = true
  /\ Utils.wildcardsUsed (Utils.canFormWordWithExtras w R j B)
     <= Utils.wildcardsUsed (Utils.canFormWord w R j).
Proof.
  intros HR HB.
  destruct (checks_canForm w R j HR (Utils.canFormWord w R j))
    as [Hc0 Hu0]; [now left|].
  destruct (checks_withExtras w R j B HR (Utils.canFormWordWithExtras w R j B))
    as [Hc1 Hu1]; [now left|].
  rewrite Hu0, Hu1, Hc0, Hc1.
  assert (Hnd : NoDup (lettersOf w)) by apply NoDup_nodup.
  assert (Hincl : incl w (lettersOf w))
    by (intros c Hc; now apply nodup_In).
  rewrite (wordCounts_required R HR None I w _ Hnd Hincl).
  rewrite (wordCounts_required R HR B HB w _ Hnd Hincl).
  assert (Hle : wildcardsRequired R B w (lettersOf w)
                <= wildcardsRequired R None w (lettersOf w)).
  { apply Zsum_map_le. intros c _. now apply shortfall_board_helps. }
  intros Hcan. apply Z.leb_le in Hcan.
  assert (Hcan' : (wildcardsRequired R B w (lettersOf w) <=? j) = true)
    by (apply Z.leb_le; lia).
  apply Z.leb_le in Hcan. rewrite Hcan, Hcan'. split; [reflexivity | lia].
Qed.

End ChecksCompose.

(** * Around the claims: what a search returns *)

Section SearchResults.

Context {cm : CaseMapping}.

Lemma eqb_eq a : forall b, Js.eqb a b = true <-> a = b.
Proof.
  induction a as [|x a IH]; intros [|y b]; simpl; split;
    try discriminate; auto.
  - intros H. apply andb_prop in H as [Hx Ha].
    apply Z.eqb_eq in Hx. apply IH in Ha. now subst.
  - intros [= -> ->]. rewrite Z.eqb_refl. now apply IH.
Qed.

Lemma setHas_In s x : Js.setHas s x = true <-> In x s.
Proof.
  unfold Js.setHas. rewrite existsb_exists. split.
  - intros (y & Hy & E). apply eqb_eq in E. now subst.
  - intros Hx. exists x. split; [assumption | now apply eqb_eq].
Qed.

Lemma fold_left_prefix_invariant {S X : Type} (P : list X -> S -> Prop)
    (f : S -> X -> S) (l : list X) (init : S) :
  P [] init ->
  (forall pre x acc, P pre acc -> P (pre ++ [x]) (f acc x)) ->
  P l (fold_left f l init).
Proof.
  intros Hinit Hstep. induction l as [|x l IH] using rev_ind; [exact Hinit|].
  rewrite fold_left_app. cbn [fold_left]. now apply Hstep.
Qed.

(** What the loop of [searchWords] has built after the words [pre]. *)
Lemma searchWords_loop allWords lettersString f :
  exists kept,
    Permutation kept
      (SearchEngine.results
         (SearchEngine.searchWords allWords lettersString f))
    /\ NoDup (map (fun r => normalizedWord (SearchEngine.word r)) kept)
    /\ (forall word, In word allWords ->
          eligible lettersString f word = true ->
          exists r, In r kept
            /\ normalizedWord (SearchEngine.word r) = normalizedWord word).
Proof.
  unfold SearchEngine.searchWords.
  match goal with
  | |- context [fold_left ?step allWords ?init] =>
      set (loop := fold_left step allWords init);
      assert (Hinv :
        (fun pre acc =>
           snd acc = map (fun r => normalizedWord (SearchEngine.word r))
                         (fst acc)
           /\ NoDup (snd acc)
           /\ forall word, In word pre ->
                eligible lettersString f word = true ->
                In (normalizedWord word) (snd acc)) allWords loop)
  end.
  { subst loop. apply fold_left_prefix_invariant.
    - cbn. repeat split; [constructor | contradiction].
    - intros pre word [results seen] (Hseen & Hnd & Hall).
      cbn [fst snd] in *.
      fold (boardOf f) (rackOf lettersString) (jokersOf lettersString).
      fold (formedBy lettersString f word). fold (normalizedWord word).
      assert (Hold : forall x, In x pre ->
                eligible lettersString f x = true ->
                forall seen', incl seen seen' -> In (normalizedWord x) seen')
        by (intros; auto).
      destruct (Js.setHas seen (normalizedWord word)) eqn:Hhas.
      + cbn [fst snd]. repeat split; auto.
        intros x Hx He. apply in_app_or in Hx as [Hx | [<- | []]]; auto.
        now apply setHas_In.
      + assert (Hnew : ~ In (normalizedWord word) seen).
        { intros Hin. apply setHas_In in Hin. congruence. }
        unfold eligible in *.
        destruct (Utils.canForm (formedBy lettersString f word)) eqn:E1;
          cbn [negb andb]; [|cbn [fst snd]; repeat split; auto;
            intros x Hx He; apply in_app_or in Hx as [Hx | [<- | []]]; auto;
            rewrite E1 in He; discriminate].
        destruct (Utils.usedUserLetters (formedBy lettersString f word)) eqn:E2;
          cbn [negb andb]; [|cbn [fst snd]; repeat split; auto;
            intros x Hx He; apply in_app_or in Hx as [Hx | [<- | []]]; auto;
            rewrite E1, E2 in He; discriminate].
        destruct (SearchEngine.passesFilters word f) eqn:E3;
          cbn [negb andb]; [|cbn [fst snd]; repeat split; auto;
            intros x Hx He; apply in_app_or in Hx as [Hx | [<- | []]]; auto;
            rewrite E1, E2, E3 in He; discriminate].
        cbn [fst snd]. unfold Js.setAdd. rewrite Hhas.
        rewrite map_app. cbn [map SearchEngine.word]. repeat split.
        * now rewrite Hseen.
        * apply NoDup_app; auto.
          -- constructor; [tauto | constructor].
          -- intros x Hx [<- | []]. contradiction.
        * intros x Hx He. apply in_or_app.
          apply in_app_or in Hx as [Hx | [<- | []]]; [left; auto | right; now left]. }
  destruct loop as [results seen]. cbn [fst snd SearchEngine.results] in *.
  destruct Hinv as (Hseen & Hnd & Hall).
  exists results. split; [apply sortResults_perm|].
  split; [now rewrite <- Hseen|].
  intros word Hw He. specialize (Hall word Hw He).
  rewrite Hseen in Hall. apply in_map_iff in Hall as (r & Hr & Hin).
  eauto.
Qed.

(** X4.  No word is returned twice: the results of [searchWords] have
    pairwise different normalized words ([word.toUpperCase().trim()]). *)
Theorem searchWords_returns_no_word_twice
    (allWords : list jsstring) (lettersString : jsstring)
    (f : SearchEngine.filters) :
  NoDup
    (map (fun r => normalizedWord (SearchEngine.word r))
       (SearchEngine.results
          (SearchEngine.searchWords allWords lettersString f))).
Proof.
  destruct (searchWords_loop allWords lettersString f)
    as (kept & Hperm & Hnd & _).
  eapply Permutation_NoDup; [|exact Hnd].
  now apply Permutation_map.
Qed.

(** X5.  The search misses nothing: every word of the dictionary that is
    formable, uses a rack tile and passes the filters is among the results,
    under its normalized form. *)
Theorem searchWords_misses_nothing
    (allWords : list jsstring) (lettersString : jsstring)
    (f : SearchEngine.filters) (word : jsstring) :
  In word allWords ->
  eligible lettersString f word = true ->
  exists r,
    In r (SearchEngine.results
            (SearchEngine.searchWords allWords lettersString f))
    /\ normalizedWord (SearchEngine.word r) = normalizedWord word.
Proof.
  intros Hw He.
  destruct (searchWords_loop allWords lettersString f)
    as (kept & Hperm & _ & Hall).
  destruct (Hall word Hw He) as (r & Hr & Hnorm).
  exists r. split; [|exact Hnorm].
  now apply (Permutation_in _ Hperm).
Qed.

Lemma lettersOf_covers w : NoDup (lettersOf w) /\ incl w (lettersOf w).
Proof.
  split; [apply NoDup_nodup | intros c Hc; now apply nodup_In].
Qed.

(** X6.  Every word returned can be laid down: its letters are covered by
    board letters, rack letters and wildcards, within what the board and
    the rack hold, and with exactly [usedJokers] wildcards, which are no
    more than the rack has; [usedJokers] is the least number that will do. *)
Theorem searchWords_results_can_be_laid
    (allWords : list jsstring) (lettersString : jsstring)
    (f : SearchEngine.filters) (r : SearchEngine.candidate) :
  In r (SearchEngine.results
          (SearchEngine.searchWords allWords lettersString f)) ->
  let w := SearchEngine.word r in
  let R := rackOf lettersString in
  let B := Some (boardOf f) in
  SearchEngine.usedJokers r = wildcardsRequired R B w (lettersOf w)
  /\ 0 <= SearchEngine.usedJokers r <= jokersOf lettersString
  /\ exists fromBoard fromRack fromWildcards,
       covers R B w (lettersOf w) fromBoard fromRack fromWildcards
       /\ Zsum (map fromWildcards (lettersOf w)) = SearchEngine.usedJokers r.
Proof.
  intros Hin w R B.
  destruct (searchWords_accepted _ _ _ _ Hin)
    as (_ & Hcan & _ & _ & _ & _ & Hjokers).
  fold w in Hcan, Hjokers. rewrite formedBy_withExtras in Hcan, Hjokers.
  fold R B in Hcan, Hjokers.
  pose proof (rackOf_nonneg lettersString) as HR. fold R in HR.
  pose proof (boardOf_ok f) as HB. fold B in HB.
  destruct (lettersOf_covers w) as [Hnd Hincl].
  destruct (checks_withExtras w R (jokersOf lettersString) B HR
              (Utils.canFormWordWithExtras w R (jokersOf lettersString) B))
    as [Hc Hu]; [now left|].
  rewrite Hcan in Hu. rewrite Hcan in Hc. symmetry in Hc.
  apply Z.leb_le in Hc.
  rewrite (wordCounts_required R HR B HB w _ Hnd Hincl) in Hu, Hc.
  pose proof (need_bounds R HR B HB w) as Hb.
  rewrite (wordCounts_required R HR B HB w _ Hnd Hincl) in Hb.
  rewrite Hjokers, Hu. split; [reflexivity|]. split; [lia|].
  eexists _, _, (shortfall R B w).
  split; [now apply wildcardsRequired_reached | reflexivity].
Qed.

(** X7.  What a result records: its word comes from the dictionary and
    passes the filters, [length] is the length of the word, [score] is
    [scoreWord(word, usedJokers)] and lies between 0 and the sum of the
    word's letter values. *)
Theorem searchWords_results_are_scored
    (allWords : list jsstring) (lettersString : jsstring)
    (f : SearchEngine.filters) (r : SearchEngine.candidate) :
  In r (SearchEngine.results
          (SearchEngine.searchWords allWords lettersString f)) ->
  let w := SearchEngine.word r in
  In w allWords
  /\ SearchEngine.passesFilters w f = true
  /\ SearchEngine.length r = Js.length w
  /\ SearchEngine.score r = Scoring.scoreWord w (SearchEngine.usedJokers r)
  /\ 0 <= SearchEngine.score r <= Zsum (map Scoring.getLetterValue w).
Proof.
  intros Hin w.
  destruct (searchWords_accepted _ _ _ _ Hin)
    as (Hw & Hcan & _ & Hpass & Hscore & Hlen & Hjokers).
  fold w in Hw, Hcan, Hpass, Hscore, Hlen, Hjokers.
  rewrite <- Hjokers in Hscore.
  assert (Hbound : 0 <= Scoring.scoreWord w (SearchEngine.usedJokers r)
                   <= Zsum (map Scoring.getLetterValue w)).
  { rewrite scoring_scoreWord_body.
    rewrite formedBy_withExtras in Hcan, Hjokers.
    pose proof (rackOf_nonneg lettersString) as HR.
    pose proof (boardOf_ok f) as HB.
    destruct (checks_withExtras w (rackOf lettersString)
                (jokersOf lettersString) (Some (boardOf f)) HR
                (Utils.canFormWordWithExtras w (rackOf lettersString)
                   (jokersOf lettersString) (Some (boardOf f))))
      as [_ Hu]; [now left|].
    rewrite Hcan in Hu.
    pose proof (need_bounds (rackOf lettersString) HR (Some (boardOf f)) HB w)
      as Hb.
    destruct (scoreWith_highest Scoring.getLetterValue
                getLetterValue_nonneg w (SearchEngine.usedJokers r))
      as (top & _ & _ & Hbound); [rewrite Hjokers, Hu; exact Hb|].
    exact Hbound. }
  rewrite Hscore. repeat split; auto; apply Hbound.
Qed.

End SearchResults.

(** * Around the claims: scoring *)

Section ScoreFacts.

Variable value : char -> Z.
Hypothesis value_nonneg : forall c, 0 <= value c.

Lemma sorted_points_length w :
  List.length
    (Js.sort (fun a b => inject_Z (Scoring.points b - Scoring.points a))
       (pointsOf value w))
  = List.length w.
Proof.
  rewrite <- (Permutation_length (sort_perm _ (pointsOf value w))).
  unfold pointsOf. apply length_map.
Qed.

Lemma sorted_points_total w :
  Zsum
    (map Scoring.points
       (Js.sort (fun a b => inject_Z (Scoring.points b - Scoring.points a))
          (pointsOf value w)))
  = Zsum (map value w).
Proof.
  rewrite <- (points_pointsOf value w). apply Zsum_perm, Permutation_map.
  symmetry. apply sort_perm.
Qed.

Lemma sorted_points_nonneg w x :
  In x
    (Js.sort (fun a b => inject_Z (Scoring.points b - Scoring.points a))
       (pointsOf value w)) ->
  0 <= Scoring.points x.
Proof.
  intros Hx. apply sort_In in Hx. unfold pointsOf in Hx.
  apply in_map_iff in Hx as (c & <- & _). apply value_nonneg.
Qed.

(** Within the range, the score is the total less what the wildcards
    cost. *)
Lemma scoreWith_spent w k :
  0 <= k <= Js.length w ->
  scoreWith value w k = Zsum (map value w) - spent value w k.
Proof.
  intros Hk. unfold scoreWith, spent. rewrite tally_spec. cbn [app].
  rewrite Z.add_0_l. destruct w as [|c w].
  - cbn in Hk. assert (k = 0) by lia. subst k. reflexivity.
  - cbn [Js.falsy orb]. destruct (k <? 0) eqn:Eneg; [lia|].
    destruct (k >? 0) eqn:Epos; cbn [andb].
    + destruct (k <=? Js.length (c :: w)) eqn:Ele; [|lia].
      rewrite subtract_spec; [reflexivity|].
      rewrite sorted_points_length. unfold Js.length in Hk. lia.
    + assert (k = 0) by lia. subst k. cbn [Z.to_nat firstn map Zsum fold_right].
      lia.
Qed.

Lemma spent_monotone w k k' :
  0 <= k <= k' -> spent value w k <= spent value w k'.
Proof.
  intros Hk. unfold spent.
  set (sorted := Js.sort _ (pointsOf value w)).
  rewrite <- (firstn_skipn (Z.to_nat k) (firstn (Z.to_nat k') sorted)).
  rewrite firstn_firstn, map_app, Zsum_app.
  replace (Nat.min (Z.to_nat k) (Z.to_nat k')) with (Z.to_nat k) by lia.
  assert (0 <= Zsum (map Scoring.points
                       (skipn (Z.to_nat k) (firstn (Z.to_nat k') sorted)))).
  { apply Zsum_nonneg, Forall_forall. intros x Hx.
    apply in_map_iff in Hx as (p & <- & Hp).
    apply (sorted_points_nonneg w).
    fold sorted.
    rewrite <- (firstn_skipn (Z.to_nat k') sorted). apply in_or_app. left.
    rewrite <- (firstn_skipn (Z.to_nat k) (firstn (Z.to_nat k') sorted)).
    apply in_or_app. now right. }
  lia.
Qed.

Lemma spent_all w : spent value w (Js.length w) = Zsum (map value w).
Proof.
  unfold spent, Js.length. rewrite Nat2Z.id.
  rewrite <- (sorted_points_length w), firstn_all.
  apply sorted_points_total.
Qed.

(** The score for every count of wildcards, in or out of range. *)
Lemma scoreWith_bounds w k :
  0 <= scoreWith value w k <= Zsum (map value w).
Proof.
  pose proof (values_total_nonneg value value_nonneg w) as Htot.
  destruct (Z_lt_le_dec k 0) as [Hneg|Hpos].
  - assert (Hz : scoreWith value w k = 0).
    { unfold scoreWith. apply Z.ltb_lt in Hneg. rewrite Hneg.
      now rewrite orb_true_r. }
    lia.
  - destruct (Z_lt_le_dec (Js.length w) k) as [Habove|Hin].
    + destruct w as [|c w].
      * cbn. lia.
      * rewrite (proj1 (scoreWith_outside value (c :: w) k ltac:(discriminate))
                   Habove). lia.
    + destruct (scoreWith_highest value value_nonneg w k (conj Hpos Hin))
        as (top & _ & _ & Hb). exact Hb.
Qed.

Lemma scoreWith_ext (other : char -> Z) w k :
  (forall c, In c w -> other c = value c) ->
  scoreWith other w k = scoreWith value w k.
Proof.
  intros Hsame. unfold scoreWith. rewrite !tally_spec.
  assert (Hp : pointsOf other w = pointsOf value w).
  { unfold pointsOf. apply map_ext_in. intros c Hc. now rewrite Hsame. }
  assert (Hs : map other w = map value w) by now apply map_ext_in.
  now rewrite Hp, Hs.
Qed.

End ScoreFacts.

Section ScoreWordFacts.

Context {cm : CaseMapping}.

(** X8.  Whatever count of wildcards it is given, in the range, above it
    or negative, [scoreWord] returns a score between 0 and the sum of the
    word's letter values; so in scoring.js and so in the worker. *)
Theorem scoreWord_always_within_total (w : jsstring) (k : Z) :
  0 <= Scoring.scoreWord w k <= Zsum (map Scoring.getLetterValue w)
  /\ 0 <= SearchWorker.scoreWord w k <= Zsum (map workerValue w).
Proof.
  rewrite scoring_scoreWord_body, worker_scoreWord_body. split.
  - apply scoreWith_bounds, getLetterValue_nonneg.
  - apply scoreWith_bounds, workerValue_nonneg.
Qed.

(** X9.  A word laid entirely with wildcards scores nothing:
    [scoreWord(w, w.length)] is 0. *)
Theorem scoreWord_all_wildcards_is_zero (w : jsstring) :
  Scoring.scoreWord w (Js.length w) = 0
  /\ SearchWorker.scoreWord w (Js.length w) = 0.
Proof.
  assert (Hk : 0 <= Js.length w <= Js.length w)
    by (unfold Js.length; lia).
  rewrite scoring_scoreWord_body, worker_scoreWord_body.
  rewrite !scoreWith_spent, !spent_all by exact Hk. lia.
Qed.

(** X10.  Within the range, more wildcards never raise the score: for
    [0 <= k <= k' <= w.length], [scoreWord(w, k') <= scoreWord(w, k)]. *)
Theorem scoreWord_decreases_with_wildcards (w : jsstring) (k k' : Z) :
  0 <= k -> k <= k' -> k' <= Js.length w ->
  Scoring.scoreWord w k' <= Scoring.scoreWord w k
  /\ SearchWorker.scoreWord w k' <= SearchWorker.scoreWord w k.
Proof.
  intros H0 Hk Hlen.
  rewrite (scoring_scoreWord_body w k), (scoring_scoreWord_body w k'),
    (worker_scoreWord_body w k), (worker_scoreWord_body w k').
  rewrite !scoreWith_spent by lia.
  pose proof (spent_monotone Scoring.getLetterValue getLetterValue_nonneg
                w k k' (conj H0 Hk)).
  pose proof (spent_monotone workerValue workerValue_nonneg
                w k k' (conj H0 Hk)).
  lia.
Qed.

(** X11.  The worker scores a word as scoring.js does whenever each letter
    of the word is its own uppercase, as the letters of the dictionary
    are: only scoring.js uppercases a letter before it reads the table. *)
Theorem worker_scores_uppercase_words_alike (w : jsstring) (k : Z) :
  (forall c, In c w -> toUpperCase [c] = [c]) ->
  SearchWorker.scoreWord w k = Scoring.scoreWord w k.
Proof.
  intros Hupper.
  rewrite scoring_scoreWord_body, worker_scoreWord_body.
  apply scoreWith_ext. intros c Hc.
  unfold workerValue, Scoring.getLetterValue, Scoring.valueOf.
  now rewrite (Hupper c Hc).
Qed.

Lemma baseScore_sum (letters : list (char * Z)) : forall start,
  fold_left (fun sum l => sum + snd l) letters start
  = start + Zsum (map snd letters).
Proof.
  induction letters as [|l letters IH]; intros start; simpl; [lia|].
  rewrite IH. lia.
Qed.

(** X12.  [getDetailedScore] splits the base score: [baseScore] is the sum
    of the letter values, [jokerPenalty] and [finalScore] are both between
    0 and [baseScore] for every count of wildcards, and they add up to
    it. *)
Theorem getDetailedScore_splits_base (w : jsstring) (k : Z) :
  let d := Scoring.getDetailedScore w k in
  Scoring.baseScore d = Zsum (map Scoring.getLetterValue w)
  /\ map snd (Scoring.letters d) = map Scoring.getLetterValue w
  /\ 0 <= Scoring.finalScore d <= Scoring.baseScore d
  /\ 0 <= Scoring.jokerPenalty d <= Scoring.baseScore d
  /\ Scoring.finalScore d + Scoring.jokerPenalty d = Scoring.baseScore d.
Proof.
  cbn zeta. unfold Scoring.getDetailedScore.
  cbn [Scoring.baseScore Scoring.letters Scoring.finalScore
       Scoring.jokerPenalty].
  rewrite baseScore_sum, map_map. cbn [snd]. rewrite Z.add_0_l.
  change (map (fun x : char => Scoring.getLetterValue x) w)
    with (map Scoring.getLetterValue w).
  pose proof (scoreWith_bounds Scoring.getLetterValue getLetterValue_nonneg
                w k) as Hb.
  rewrite <- scoring_scoreWord_body in Hb.
  repeat split; lia.
Qed.

End ScoreWordFacts.

(** * Around the claims: the board pattern *)

Section PatternLanguage.

Lemma test_anyRun rest s :
  RegExp.test (RegExp.AnyRun :: rest) s = anyRun (RegExp.test rest) s.
Proof.
  induction s as [|x s IH]; [reflexivity|].
  cbn [anyRun]. rewrite <- IH. reflexivity.
Qed.

Lemma anyRun_spec (rest : jsstring -> bool) s :
  anyRun rest s = true
  <-> exists run w,
        s = run ++ w /\ forallb RegExp.dot run = true /\ rest w = true.
Proof.
  induction s as [|x s IH]; cbn [anyRun].
  - rewrite orb_false_r. split.
    + intros Hr. exists [], []. auto.
    + intros (run & w & Hs & _ & Hr).
      symmetry in Hs. apply app_eq_nil in Hs as [_ ->]. exact Hr.
  - rewrite orb_true_iff, andb_true_iff, IH. split.
    + intros [Hr | (Hx & run & w & -> & Hrun & Hr)].
      * exists [], (x :: s). auto.
      * exists (x :: run), w. cbn [forallb app]. rewrite Hx, Hrun. auto.
    + intros (run & w & Hs & Hrun & Hr). destruct run as [|y run].
      * left. cbn in Hs. now subst.
      * right. cbn in Hs. injection Hs as <- ->.
        cbn [forallb] in Hrun. apply andb_prop in Hrun as [Hx Hrun].
        split; [exact Hx|]. eauto.
Qed.

(** The compiled expression accepts what the pattern language describes. *)
Lemma compiled_pattern_matches t : forall w,
  RegExp.test (compilePattern t) w = true <-> patternMatches t w.
Proof.
  induction t as [|ch t IH]; intros w.
  - cbn. destruct w; split; intros H; try discriminate;
      try constructor; inversion H.
  - cbn [compilePattern flat_map].
    fold (compilePattern t).
    destruct (ch =? 46) eqn:E1.
    { apply Z.eqb_eq in E1. subst ch. cbn [app RegExp.test].
      destruct w as [|x w].
      - split; [discriminate | intros H; inversion H; congruence].
      - rewrite andb_true_iff, IH. split.
        + intros [Hx Hm]. now constructor.
        + intros H. inversion H; subst; auto; congruence. }
    destruct (ch =? 42) eqn:E2.
    { apply Z.eqb_eq in E2. subst ch. cbn [app].
      rewrite test_anyRun, anyRun_spec. split.
      - intros (run & w' & -> & Hrun & Hm). constructor; [exact Hrun|].
        now apply IH.
      - intros H. inversion H; subst; try congruence.
        eexists _, _. split; [reflexivity|]. split; [assumption|].
        now apply IH. }
    destruct (ch =? 32) eqn:E3.
    { apply Z.eqb_eq in E3. subst ch. cbn [app]. rewrite IH. split.
      - intros Hm. now constructor.
      - intros H. inversion H; subst; auto; congruence. }
    apply Z.eqb_neq in E1, E2, E3. cbn [app RegExp.test].
    destruct w as [|x w].
    + split; [discriminate | intros H; inversion H; congruence].
    + rewrite andb_true_iff, Z.eqb_eq, IH. split.
      * intros [-> Hm]. now constructor.
      * intros H. inversion H; subst; auto; congruence.
Qed.

Lemma test_literals l : forall w,
  RegExp.test (map RegExp.Literal l) w = Js.eqb w l.
Proof.
  induction l as [|c l IH]; intros [|x w]; cbn; auto.
  now rewrite IH.
Qed.

Lemma literal_compiles t :
  literalPattern t = true ->
  compilePattern t = map RegExp.Literal t /\ wildcardSymbols t = 0.
Proof.
  unfold wildcardSymbols.
  induction t as [|ch t IH]; cbn [literalPattern forallb]; [now split|].
  intros H. apply andb_prop in H as [Hch Ht].
  apply negb_true_iff in Hch. apply orb_false_iff in Hch as [Hch E3].
  apply orb_false_iff in Hch as [E1 E2].
  destruct (IH Ht) as [Hc Hs].
  cbn [compilePattern flat_map map]. fold (compilePattern t).
  rewrite E1, E2, E3, Hc, !occ_cons.
  rewrite (Z.eqb_sym 46 ch), (Z.eqb_sym 42 ch), E1, E2.
  split; [reflexivity | lia].
Qed.

Context {cm : CaseMapping}.

Lemma matchesBoardPattern_steps wordUpper pattern :
  let trimmed := toUpperCase (Js.trim pattern) in
  SearchEngine.matchesBoardPattern wordUpper pattern
  = if Js.falsy trimmed then true
    else if Js.length trimmed >? 50 then false
    else if wildcardSymbols trimmed >? 15 then false
    else RegExp.test (compilePattern trimmed) wordUpper.
Proof.
  intros trimmed. unfold SearchEngine.matchesBoardPattern. fold trimmed.
  rewrite compile_loop. cbn [app]. now rewrite Z.add_0_l.
Qed.

(** X13.  Within the caps, [matchesBoardPattern] decides the pattern
    language on the whole word: a space in the pattern is passed over, [.]
    stands for exactly one character, [*] for any run of characters, none
    of them a line terminator, and every other character for itself. *)
Theorem matchesBoardPattern_decides_pattern (wordUpper pattern : jsstring) :
  let trimmed := toUpperCase (Js.trim pattern) in
  trimmed <> [] -> Js.length trimmed <= 50 -> wildcardSymbols trimmed <= 15 ->
  (SearchEngine.matchesBoardPattern wordUpper pattern = true
   <-> patternMatches trimmed wordUpper).
Proof.
  intros trimmed Hne Hlen Hsym.
  rewrite matchesBoardPattern_steps. fold trimmed.
  destruct trimmed as [|c t] eqn:Et; [contradiction|]. cbn [Js.falsy].
  destruct (Js.length (c :: t) >? 50) eqn:E1; [lia|].
  destruct (wildcardSymbols (c :: t) >? 15) eqn:E2; [lia|].
  apply compiled_pattern_matches.
Qed.

(** X14.  A pattern without [.], [*] and space is an exact match: up to 50
    characters long, it matches the word that equals the uppercased,
    trimmed pattern and no other. *)
Theorem literal_pattern_is_exact_match (wordUpper pattern : jsstring) :
  let trimmed := toUpperCase (Js.trim pattern) in
  trimmed <> [] -> Js.length trimmed <= 50 -> literalPattern trimmed = true ->
  SearchEngine.matchesBoardPattern wordUpper pattern
  = Js.eqb wordUpper trimmed.
Proof.
  intros trimmed Hne Hlen Hlit.
  rewrite matchesBoardPattern_steps. fold trimmed.
  destruct (literal_compiles trimmed Hlit) as [Hc Hs]. rewrite Hc, Hs.
  destruct trimmed as [|c t] eqn:Et; [contradiction|]. cbn [Js.falsy].
  destruct (Js.length (c :: t) >? 50) eqn:E1; [lia|].
  cbn [Z.gtb Z.compare]. apply test_literals.
Qed.

End PatternLanguage.

(** * Around the claims: the board letters *)

Section BoardLetters.

Lemma occ_filter_out (p : char -> bool) c n :
  p c = false -> occ c (filter p n) = 0.
Proof.
  intros Hp. induction n as [|x n IH]; [reflexivity|].
  cbn [filter]. destruct (p x) eqn:Hx; [|exact IH].
  rewrite occ_cons, IH.
  destruct (c =? x) eqn:E; [|reflexivity].
  apply Z.eqb_eq in E. subst x. congruence.
Qed.

Lemma includes_In xs c : Js.includes xs c = true <-> In c xs.
Proof.
  unfold Js.includes. rewrite existsb_exists. split.
  - intros (x & Hx & E). apply Z.eqb_eq in E. now subst.
  - intros Hc. exists c. split; [assumption | apply Z.eqb_refl].
Qed.

Lemma whiteSpace_is_no_letter c :
  Js.isWhiteSpace c = true -> Js.includes Utils.DANISH_ALPHABET c = false.
Proof.
  intros Hws. destruct (Js.includes Utils.DANISH_ALPHABET c) eqn:E; auto.
  apply includes_In in E. cbn in E.
  repeat (destruct E as [<- | E]; [discriminate Hws|]). contradiction.
Qed.

Lemma collapse_keeps_letters s : forall inRun,
  filter (Js.includes Utils.DANISH_ALPHABET) (Js.collapseFrom inRun s)
  = filter (Js.includes Utils.DANISH_ALPHABET) s.
Proof.
  induction s as [|c s IH]; intros inRun; [reflexivity|].
  cbn [Js.collapseFrom filter].
  destruct (Js.isWhiteSpace c) eqn:Hws.
  - rewrite (whiteSpace_is_no_letter c Hws).
    destruct inRun; [apply IH|]. cbn [filter].
    change (Js.includes Utils.DANISH_ALPHABET 32) with false. apply IH.
  - cbn [filter]. now rewrite IH.
Qed.

Lemma letters_loop n : forall m,
  fold_left
    (fun extra ch =>
       if Js.includes Utils.DANISH_ALPHABET ch
       then JsMap.set extra ch (Js.orZero (JsMap.get extra ch) + 1)
       else extra) n m
  = countInto m (filter (Js.includes Utils.DANISH_ALPHABET) n).
Proof.
  induction n as [|ch n IH]; intros m; [reflexivity|].
  cbn [fold_left filter].
  destruct (Js.includes Utils.DANISH_ALPHABET ch); apply IH.
Qed.

Context {cm : CaseMapping}.

(** The pattern as [buildExtraLettersFromPattern] reads it. *)
Lemma utils_buildExtra_letters pattern :
  Utils.buildExtraLettersFromPattern (Some pattern)
  = countInto JsMap.empty
      (filter (Js.includes Utils.DANISH_ALPHABET)
         (Utils.normalizeString pattern)).
Proof.
  unfold Utils.buildExtraLettersFromPattern, Utils.normalizeString.
  destruct (Js.falsy pattern); [reflexivity | apply letters_loop].
Qed.

(** X15.  The board multiset counts the letters of the pattern and nothing
    else: for a letter of the Danish alphabet, its count is the number of
    times it stands in the normalized pattern; every other character, the
    pattern symbols [.] and [*] and the space among them, has count 0.  No
    pattern gives the empty multiset. *)
Theorem board_letters_are_the_letters_of_the_pattern
    (pattern : jsstring) (c : char) :
  boardCount (Some (Utils.buildExtraLettersFromPattern (Some pattern))) c
  = (if Js.includes Utils.DANISH_ALPHABET c
     then occ c (Utils.normalizeString pattern) else 0)
  /\ Utils.buildExtraLettersFromPattern None = JsMap.empty.
Proof.
  split; [|reflexivity].
  rewrite utils_buildExtra_letters. cbn [boardCount].
  rewrite countInto_get. cbn [JsMap.get JsMap.empty Js.orZero].
  rewrite Z.add_0_l.
  destruct (Js.includes Utils.DANISH_ALPHABET c) eqn:E.
  - now apply occ_filter.
  - now apply occ_filter_out.
Qed.

(** X16.  The worker builds the same board multiset as utils.js, for every
    pattern: it leaves out the collapsing of white space, which does not
    touch a letter. *)
Theorem worker_builds_the_same_board_letters (pattern : option jsstring) :
  SearchWorker.buildExtraLettersFromPattern pattern
  = Utils.buildExtraLettersFromPattern pattern.
Proof.
  destruct pattern as [pattern|]; [|reflexivity].
  rewrite utils_buildExtra_letters.
  unfold SearchWorker.buildExtraLettersFromPattern, Utils.normalizeString.
  destruct (Js.falsy pattern); [reflexivity|].
  change SearchWorker.DANISH_ALPHABET with Utils.DANISH_ALPHABET.
  rewrite letters_loop. unfold Js.collapseWhiteSpace.
  now rewrite collapse_keeps_letters.
Qed.

End BoardLetters.

(** * Around the claims: validating the input *)

Section Validation.

Lemma validChar_spec c :
  Utils.validChar c = true
  <-> In c Utils.DANISH_ALPHABET \/ In c Utils.WILDCARD_CHARS.
Proof.
  split.
  - unfold Utils.validChar. rewrite !orb_true_iff, andb_true_iff.
    rewrite !Z.eqb_eq, !Z.leb_le.
    intros [[[[[[[[Hlo Hhi] | ->] | ->] | ->] | ->] | ->] | ->] | ->];
      try (left; cbn; tauto); try (right; cbn; tauto).
    left.
    assert (Hc : c = 65 \/ c = 66 \/ c = 67 \/ c = 68 \/ c = 69 \/ c = 70
                 \/ c = 71 \/ c = 72 \/ c = 73 \/ c = 74 \/ c = 75 \/ c = 76
                 \/ c = 77 \/ c = 78 \/ c = 79 \/ c = 80 \/ c = 81 \/ c = 82
                 \/ c = 83 \/ c = 84 \/ c = 85 \/ c = 86 \/ c = 87 \/ c = 88
                 \/ c = 89 \/ c = 90) by lia.
    cbn. intuition.
  - intros [Hc | Hc]; cbn in Hc;
      repeat (destruct Hc as [<- | Hc]; [reflexivity|]); contradiction.
Qed.

Lemma trimStart_fixed s :
  (forall c r, s = c :: r -> Js.isWhiteSpace c = false) ->
  Js.trimStart s = s.
Proof.
  destruct s as [|c r]; [reflexivity|]. intros Hhead.
  cbn. now rewrite (Hhead c r eq_refl).
Qed.

Lemma trimStart_head s c r :
  Js.trimStart s = c :: r -> Js.isWhiteSpace c = false.
Proof.
  induction s as [|x s IH]; cbn; [discriminate|].
  destruct (Js.isWhiteSpace x) eqn:E; [exact IH|].
  intros [= <- <-]. exact E.
Qed.

Lemma trimStart_suffix s : exists pre, s = pre ++ Js.trimStart s.
Proof.
  induction s as [|x s [pre IH]]; [now exists []|].
  cbn. destruct (Js.isWhiteSpace x).
  - exists (x :: pre). cbn. now rewrite <- IH.
  - now exists [].
Qed.

(** [trim] of a trimmed string changes nothing. *)
Lemma trim_idempotent s : Js.trim (Js.trim s) = Js.trim s.
Proof.
  unfold Js.trim.
  set (t := Js.trimStart s). set (u := Js.trimStart (rev t)).
  assert (Hfront : Js.trimStart (rev u) = rev u).
  { apply trimStart_fixed. intros c r Hcr.
    destruct (trimStart_suffix (rev t)) as [pre Hpre]. fold u in Hpre.
    assert (Ht : t = rev u ++ rev pre).
    { rewrite <- (rev_involutive t), Hpre, rev_app_distr. reflexivity. }
    rewrite Hcr in Ht. cbn in Ht.
    apply (trimStart_head s c (r ++ rev pre)). exact Ht. }
  rewrite Hfront, rev_involutive.
  assert (Hback : Js.trimStart u = u).
  { apply trimStart_fixed. intros c r Hcr.
    apply (trimStart_head (rev t) c r). exact Hcr. }
  now rewrite Hback.
Qed.

Lemma collapse_In s c : forall inRun,
  In c (Js.collapseFrom inRun s) -> In c s \/ c = 32.
Proof.
  induction s as [|x s IH]; intros inRun; cbn; [tauto|].
  destruct (Js.isWhiteSpace x).
  - destruct inRun; cbn; intros H.
    + destruct (IH _ H); auto.
    + destruct H as [<- | H]; auto. destruct (IH _ H); auto.
  - cbn. intros [<- | H]; auto. destruct (IH _ H); auto.
Qed.

Context {cm : CaseMapping}.

Lemma validInput_chars str c :
  Utils.isValidInput str = true -> In c (toUpperCase str) ->
  In c Utils.DANISH_ALPHABET \/ In c Utils.WILDCARD_CHARS.
Proof.
  unfold Utils.isValidInput. destruct (Js.falsy str); [discriminate|].
  destruct (Js.length str >? 50); [discriminate|].
  intros H Hc. apply andb_prop in H as [_ Hall].
  rewrite forallb_forall in Hall. apply validChar_spec. auto.
Qed.

(** X17.  [isValidInput] accepts exactly the strings that are not empty,
    have at most 50 code units and whose uppercase is not empty and holds
    only letters of the Danish alphabet and the wildcard characters [?],
    [_], [*] and space.  A string whose uppercase holds a [.], the
    one-letter symbol of the board pattern, is refused. *)
Theorem isValidInput_accepts (str : jsstring) :
  (Utils.isValidInput str = true
   <-> str <> [] /\ Js.length str <= 50 /\ toUpperCase str <> []
       /\ forall c, In c (toUpperCase str) ->
            In c Utils.DANISH_ALPHABET \/ In c Utils.WILDCARD_CHARS)
  /\ (In 46 (toUpperCase str) -> Utils.isValidInput str = false).
Proof.
  assert (Hiff : Utils.isValidInput str = true
   <-> str <> [] /\ Js.length str <= 50 /\ toUpperCase str <> []
       /\ forall c, In c (toUpperCase str) ->
            In c Utils.DANISH_ALPHABET \/ In c Utils.WILDCARD_CHARS).
  { unfold Utils.isValidInput. destruct str as [|x str]; cbn [Js.falsy].
    - split; [discriminate | intros [H _]; contradiction].
    - destruct (Js.length (x :: str) >? 50) eqn:Elen.
      + split; [discriminate | intros (_ & H & _); lia].
      + rewrite andb_true_iff, forallb_forall, negb_true_iff.
        split.
        * intros [Hne Hall]. split; [discriminate|]. split; [lia|]. split.
          -- intros E. rewrite E in Hne. discriminate.
          -- intros c Hc. apply validChar_spec. auto.
        * intros (_ & _ & Hne & Hall). split.
          -- destruct (toUpperCase (x :: str)); [contradiction | reflexivity].
          -- intros c Hc. apply validChar_spec. auto. }
  split; [exact Hiff|].
  clear Hiff. intros Hdot. destruct (Utils.isValidInput str) eqn:E; auto.
  destruct (validInput_chars str 46 E Hdot) as [H | H]; cbn in H;
    repeat (destruct H as [H | H]; [discriminate H|]); contradiction.
Qed.

(** X18.  A rack that the search form lets through, trimmed and accepted by
    [isValidInput], parses into a map whose keys are all letters of the
    Danish alphabet; so with [parseLetters] of utils.js and so with the
    worker's. *)
Theorem valid_rack_holds_letters_only (raw : jsstring) (c : char) :
  let lettersString := Js.trim raw in
  Utils.isValidInput lettersString = true ->
  (In c (JsMap.keys (rackOf lettersString)) -> In c Utils.DANISH_ALPHABET)
  /\ (In c (JsMap.keys (workerRackOf lettersString)) ->
      In c Utils.DANISH_ALPHABET).
Proof.
  intros s Hvalid.
  assert (Hscan : forall n,
    (forall x, In x n -> In x (toUpperCase s) \/ x = 32) ->
    In c (JsMap.keys (fst (scanFrom n (JsMap.empty, 0)))) ->
    In c Utils.DANISH_ALPHABET).
  { intros n Hn. rewrite scanFrom_spec. cbn [fst].
    rewrite countInto_keys. intros [[] | Hc].
    apply filter_In in Hc as [Hc Hw]. apply negb_true_iff in Hw.
    destruct (Hn c Hc) as [Hup | ->]; [|discriminate Hw].
    destruct (validInput_chars s c Hvalid Hup) as [Ha | Hwild]; auto.
    apply isWildcardChar_iff in Hwild. congruence. }
  assert (Hs : Js.trim s = s) by apply trim_idempotent.
  split; intros Hc.
  - apply (Hscan (Utils.normalizeString s)).
    + unfold Utils.normalizeString. intros x.
      destruct (Js.falsy s); [contradiction|].
      rewrite Hs. apply collapse_In.
    + unfold rackOf in Hc. now rewrite utils_parseLetters_scan in Hc.
  - apply (Hscan (Js.collapseWhiteSpace (toUpperCase (Js.trim s)))).
    + rewrite Hs. intros x. apply collapse_In.
    + unfold workerRackOf in Hc. now rewrite worker_parseLetters_scan in Hc.
Qed.

End Validation.

(** * Around the claims: the length filter *)

Section LengthFilter.

Lemma jsEqb_eq a : forall b, Js.eqb a b = true <-> a = b.
Proof.
  induction a as [|x a IH]; intros [|y b]; simpl; split;
    try discriminate; auto.
  - intros H. apply andb_prop in H as [Hx Ha].
    apply Z.eqb_eq in Hx. apply IH in Ha. now subst.
  - intros [= -> ->]. rewrite Z.eqb_refl. now apply IH.
Qed.

Lemma isString_mode f literal :
  literal <> SearchEngine.s_all -> literal <> [] ->
  SearchEngine.isString (SearchEngine.lengthMode f) literal
  = Js.eqb
      (SearchEngine.orString (SearchEngine.lengthMode f) SearchEngine.s_all)
      literal.
Proof.
  intros Hall Hne. unfold SearchEngine.isString, SearchEngine.orString.
  destruct (SearchEngine.lengthMode f) as [[|x m]|]; cbn [Js.falsy].
  - destruct literal; [contradiction|].
    destruct (Js.eqb SearchEngine.s_all (c :: literal)) eqn:E; auto.
    apply jsEqb_eq in E. congruence.
  - reflexivity.
  - destruct (Js.eqb SearchEngine.s_all literal) eqn:E; auto.
    apply jsEqb_eq in E. congruence.
Qed.

(** Filters that [validateFilters] accepts let through lengths from 2 to 15
    only, when the mode bounds the length at all. *)
Lemma validated_length_is_bounded f len :
  SearchEngine.valid (SearchEngine.validateFilters f) = true ->
  boundedMode f = true ->
  SearchEngine.passesLengthFilter len f = true ->
  2 <= len <= 15.
Proof.
  unfold SearchEngine.validateFilters, boundedMode,
    SearchEngine.passesLengthFilter.
  rewrite (isString_mode f SearchEngine.s_exact) by discriminate.
  rewrite (isString_mode f SearchEngine.s_range) by discriminate.
  set (mode := SearchEngine.orString _ _).
  destruct (Js.eqb mode SearchEngine.s_all) eqn:Eall.
  - intros _ _ H. apply andb_prop in H as [H1 H2].
    apply Z.geb_le in H1. apply Z.leb_le in H2. lia.
  - destruct (Js.eqb mode SearchEngine.s_exact) eqn:Eexact.
    + assert (Erange : Js.eqb mode SearchEngine.s_range = false).
      { destruct (Js.eqb mode SearchEngine.s_range) eqn:E; auto.
        apply jsEqb_eq in E, Eexact. rewrite E in Eexact. discriminate. }
      rewrite Erange. cbn [orb andb].
      destruct (SearchEngine.exactLength f) as [e|]; [|discriminate].
      cbn [SearchEngine.outOfBounds].
      destruct ((e <? 2) || (e >? 15)) eqn:Eo; [discriminate|].
      apply orb_false_iff in Eo as [E1 E2].
      apply Z.ltb_ge in E1. rewrite Z.gtb_ltb in E2. apply Z.ltb_ge in E2.
      intros _ _ H. apply Z.eqb_eq in H. lia.
    + cbn [andb orb].
      destruct (Js.eqb mode SearchEngine.s_range) eqn:Erange;
        [|discriminate].
      intros Hvalid _ H. apply andb_prop in H as [H1 H2].
      apply Z.geb_le in H1. apply Z.leb_le in H2.
      destruct (SearchEngine.minLength f) as [mn|],
               (SearchEngine.maxLength f) as [mx|];
        cbn [SearchEngine.outOfBounds SearchEngine.orNumber] in *.
      * destruct ((mn <? 2) || (mn >? 15)) eqn:Emn; [discriminate|].
        destruct ((mx <? 2) || (mx >? 15)) eqn:Emx; [discriminate|].
        apply orb_false_iff in Emn as [A1 A2], Emx as [B1 B2].
        apply Z.ltb_ge in A1, B1. rewrite Z.gtb_ltb in A2, B2.
        apply Z.ltb_ge in A2, B2. lia.
      * destruct ((mn <? 2) || (mn >? 15)) eqn:Emn; [discriminate|].
        apply orb_false_iff in Emn as [A1 A2].
        apply Z.ltb_ge in A1. rewrite Z.gtb_ltb in A2.
        apply Z.ltb_ge in A2. lia.
      * destruct ((mx <? 2) || (mx >? 15)) eqn:Emx; [discriminate|].
        apply orb_false_iff in Emx as [B1 B2].
        apply Z.ltb_ge in B1. rewrite Z.gtb_ltb in B2.
        apply Z.ltb_ge in B2. lia.
      * lia.
Qed.

Context {cm : CaseMapping}.

Lemma passesFilters_length word f :
  SearchEngine.passesFilters word f = true ->
  SearchEngine.passesLengthFilter (Js.length word) f = true.
Proof.
  unfold SearchEngine.passesFilters.
  match goal with |- context [negb ?b] => destruct b end; cbn [negb];
    [|discriminate].
  destruct (SearchEngine.passesLengthFilter (Js.length word) f);
    [reflexivity | discriminate].
Qed.

(** X19.  With filters that [validateFilters] accepts, every word that
    [searchWords] returns has between 2 and 15 letters, in the mode [all]
    (the default), in the mode [range] and in the mode [exact] with an
    [exactLength].  ([exact] without an [exactLength] and an unknown mode
    let every length through.) *)
Theorem validated_filters_bound_the_length
    (allWords : list jsstring) (lettersString : jsstring)
    (f : SearchEngine.filters) (r : SearchEngine.candidate) :
  SearchEngine.valid (SearchEngine.validateFilters f) = true ->
  boundedMode f = true ->
  In r (SearchEngine.results
          (SearchEngine.searchWords allWords lettersString f)) ->
  2 <= SearchEngine.length r <= 15
  /\ SearchEngine.length r = Js.length (SearchEngine.word r).
Proof.
  intros Hvalid Hmode Hin.
  destruct (searchWords_accepted _ _ _ _ Hin)
    as (_ & _ & _ & Hpass & _ & Hlen & _).
  split; [|exact Hlen]. rewrite Hlen.
  apply (validated_length_is_bounded f); auto.
  now apply passesFilters_length.
Qed.

End LengthFilter.

(** * Around the claims: the other orders *)

Section OtherOrders.

Lemma lengthOrder_trans a b c :
  lengthOrder a b -> lengthOrder b c -> lengthOrder a c.
Proof. unfold lengthOrder. lia. Qed.

Lemma byLength_decides a b :
  (Js.positive (SearchEngine.byLength a b) = true -> lengthOrder b a)
  /\ (Js.positive (SearchEngine.byLength a b) = false -> lengthOrder a b).
Proof.
  unfold SearchEngine.byLength, lengthOrder.
  destruct (SearchEngine.length b =? SearchEngine.length a) eqn:E;
    cbn [negb]; rewrite positive_inject_Z.
  - apply Z.eqb_eq in E.
    split; intros Hp; [apply Z.ltb_lt in Hp | apply Z.ltb_ge in Hp]; lia.
  - apply Z.eqb_neq in E.
    split; intros Hp; [apply Z.ltb_lt in Hp | apply Z.ltb_ge in Hp]; lia.
Qed.

Lemma compareFrom_swap a : forall b,
  match Utils.compareFrom b a with
  | Some d => d
  | None => Js.length b - Js.length a
  end
  = - match Utils.compareFrom a b with
      | Some d => d
      | None => Js.length a - Js.length b
      end.
Proof.
  unfold Js.length.
  induction a as [|x a IH]; intros [|y b]; cbn [Utils.compareFrom];
    try lia.
  rewrite (Z.eqb_sym (Js.indexOf Utils.DANISH_ALPHABET y)).
  destruct (Js.indexOf Utils.DANISH_ALPHABET x
            =? Js.indexOf Utils.DANISH_ALPHABET y); cbn [negb]; [|lia].
  specialize (IH b). cbn [List.length]. rewrite !Nat2Z.inj_succ.
  destruct (Utils.compareFrom b a), (Utils.compareFrom a b); lia.
Qed.

Lemma compareFrom_zero a : forall b,
  match Utils.compareFrom a b with
  | Some d => d
  | None => Js.length a - Js.length b
  end = 0
  <-> map position a = map position b.
Proof.
  unfold Js.length.
  induction a as [|x a IH]; intros [|y b]; cbn [Utils.compareFrom map].
  - split; auto.
  - cbn [List.length]. split; [lia | discriminate].
  - cbn [List.length]. split; [lia | discriminate].
  - fold (position x) (position y).
    destruct (position x =? position y) eqn:E; cbn [negb].
    + apply Z.eqb_eq in E. specialize (IH b).
      cbn [List.length]. rewrite !Nat2Z.inj_succ.
      replace (Z.succ (Z.of_nat (List.length a))
               - Z.succ (Z.of_nat (List.length b)))
        with (Z.of_nat (List.length a) - Z.of_nat (List.length b)) by lia.
      rewrite IH, E. split; [intros ->; reflexivity | now intros [= ->]].
    + apply Z.eqb_neq in E. split; [lia | intros [= H _]; contradiction].
Qed.

Lemma indexOfFrom_found xs x : forall i k,
  Js.indexOfFrom i xs x = k -> k <> -1 -> 0 <= i ->
  i <= k /\ nth_error xs (Z.to_nat (k - i)) = Some x.
Proof.
  induction xs as [|y xs IH]; intros i k; cbn [Js.indexOfFrom].
  - intros <- H. contradiction.
  - destruct (x =? y) eqn:E.
    + apply Z.eqb_eq in E. intros <- _ _. rewrite Z.sub_diag. subst.
      split; [lia | reflexivity].
    + intros Hk Hne Hi. destruct (IH (i + 1) k Hk Hne ltac:(lia)) as [Hle Hn].
      split; [lia|].
      replace (Z.to_nat (k - i)) with (S (Z.to_nat (k - (i + 1)))) by lia.
      exact Hn.
Qed.

Lemma indexOfFrom_In xs x : forall i,
  In x xs -> Js.indexOfFrom i xs x <> -1 \/ i < 0.
Proof.
  induction xs as [|y xs IH]; intros i; [contradiction|].
  cbn [Js.indexOfFrom]. intros Hin. destruct (x =? y) eqn:E.
  - destruct (Z_lt_le_dec i 0); [now right|]. left. lia.
  - apply Z.eqb_neq in E. destruct Hin as [-> | Hin]; [contradiction|].
    destruct (IH (i + 1) Hin); [now left | right; lia].
Qed.

(** Two letters of the alphabet at the same position are the same letter. *)
Lemma position_injective c d :
  In c Utils.DANISH_ALPHABET -> In d Utils.DANISH_ALPHABET ->
  position c = position d -> c = d.
Proof.
  intros Hc Hd Heq. unfold position, Js.indexOf in *.
  destruct (indexOfFrom_In _ c 0 Hc) as [Hc1 | ?]; [|lia].
  destruct (indexOfFrom_In _ d 0 Hd) as [Hd1 | ?]; [|lia].
  destruct (indexOfFrom_found _ c 0 _ eq_refl Hc1 ltac:(lia)) as [_ Hnc].
  destruct (indexOfFrom_found _ d 0 _ eq_refl Hd1 ltac:(lia)) as [_ Hnd].
  rewrite Heq in Hnc. congruence.
Qed.

Lemma positions_injective a : forall b,
  Forall (fun c => In c Utils.DANISH_ALPHABET) a ->
  Forall (fun c => In c Utils.DANISH_ALPHABET) b ->
  map position a = map position b -> a = b.
Proof.
  induction a as [|x a IH]; intros [|y b] Ha Hb; cbn [map];
    try discriminate; auto.
  inversion Ha; subst. inversion Hb; subst. intros [= Hxy Hab].
  f_equal; [now apply position_injective | now apply IH].
Qed.

Context {cm : CaseMapping}.

(** X20.  With [sortBy = 'length'] the results come out by length, longest
    first, and by score, highest first, among words of one length. *)
Theorem length_sort_orders_by_length_then_score
    (allWords : list jsstring) (lettersString : jsstring)
    (f : SearchEngine.filters) :
  SearchEngine.sortBy f = Some SearchEngine.s_length ->
  StronglySorted lengthOrder
    (SearchEngine.results (SearchEngine.searchWords allWords lettersString f)).
Proof.
  intros Hsort. unfold SearchEngine.searchWords. rewrite Hsort.
  match goal with
  | |- context [fold_left ?step allWords ?init] =>
      destruct (fold_left step allWords init) as [results seen]
  end.
  cbn [SearchEngine.results].
  apply (sort_sorted SearchEngine.byLength lengthOrder).
  - intros x y z. apply lengthOrder_trans.
  - intros x y. apply byLength_decides.
  - intros x y. apply byLength_decides.
Qed.

(** X21.  [compareDanish] is a consistent comparator: swapping its
    arguments changes the sign of the result, and the result is 0 exactly
    when the two uppercased words have the same alphabet positions letter by
    letter; so in utils.js and so in the worker's copy. *)
Theorem compareDanish_is_consistent (a b : jsstring) :
  Utils.compareDanish b a = - Utils.compareDanish a b
  /\ (Utils.compareDanish a b = 0
      <-> map position (toUpperCase a) = map position (toUpperCase b))
  /\ SearchWorker.compareDanish a b = Utils.compareDanish a b.
Proof.
  split; [apply compareFrom_swap|]. split; [apply compareFrom_zero|].
  reflexivity.
Qed.

(** X22.  Two words over the Danish alphabet compare as equal only when
    they are the same word after uppercasing: the alphabetical order never
    ties two different dictionary words. *)
Theorem compareDanish_ties_equal_words_only (a b : jsstring) :
  Forall (fun c => In c Utils.DANISH_ALPHABET) (toUpperCase a) ->
  Forall (fun c => In c Utils.DANISH_ALPHABET) (toUpperCase b) ->
  Utils.compareDanish a b = 0 ->
  toUpperCase a = toUpperCase b.
Proof.
  intros Ha Hb Hzero. apply positions_injective; auto.
  now apply compareFrom_zero.
Qed.

End OtherOrders.

(** * Around the claims: loading the word list in the worker *)

Section WordList.

Lemma unitsLe_trans a b c : unitsLe a b -> unitsLe b c -> unitsLe a c.
Proof.
  intros Hab. revert c.
  induction Hab as [b | x a y b Hxy | x a b Hab IH]; intros c Hbc.
  - constructor.
  - inversion Hbc; subst.
    + apply units_before. lia.
    + now apply units_before.
  - inversion Hbc; subst.
    + now apply units_before.
    + apply units_same. now apply IH.
Qed.

Lemma compareUnits_decides a : forall b,
  (Js.positive (Js.compareUnits a b) = true -> unitsLe b a)
  /\ (Js.positive (Js.compareUnits a b) = false -> unitsLe a b).
Proof.
  induction a as [|x a IH]; intros [|y b]; cbn [Js.compareUnits].
  - split; intros _; constructor.
  - rewrite positive_inject_Z. split; [discriminate | constructor].
  - rewrite positive_inject_Z. split; [constructor | discriminate].
  - destruct (x <? y) eqn:Exy.
    + apply Z.ltb_lt in Exy. rewrite positive_inject_Z.
      split; [discriminate | intros _; now apply units_before].
    + destruct (y <? x) eqn:Eyx.
      * apply Z.ltb_lt in Eyx. rewrite positive_inject_Z.
        split; [intros _; now apply units_before | discriminate].
      * apply Z.ltb_ge in Exy, Eyx. assert (x = y) by lia. subst.
        destruct (IH b) as [H1 H2].
        split; intros Hp; apply units_same; auto.
Qed.

Lemma setAdd_fold l : forall acc,
  NoDup acc ->
  NoDup (fold_left Js.setAdd l acc)
  /\ (forall x, In x (fold_left Js.setAdd l acc) <-> In x acc \/ In x l)
  /\ (List.length (fold_left Js.setAdd l acc)
      <= List.length acc + List.length l)%nat.
Proof.
  induction l as [|w l IH]; intros acc Hnd; cbn [fold_left].
  - split; [assumption|]. split; [|cbn [List.length]; lia].
    intros x. split; [now left | now intros [?|[]]].
  - unfold Js.setAdd at 2 4 6.
    destruct (Js.setHas acc w) eqn:E.
    + destruct (IH acc Hnd) as (H1 & H2 & H3).
      split; [assumption|]. split; [|cbn [List.length]; lia].
      intros x. rewrite H2. apply setHas_In in E.
      split; [intros [?|?]; [now left | right; now right]|].
      intros [?|[<-|?]]; auto.
    + assert (Hnot : ~ In w acc).
      { intros Hin. apply setHas_In in Hin. congruence. }
      assert (Hnd' : NoDup (acc ++ [w])).
      { apply NoDup_app; [assumption | repeat constructor; intros [] |].
        intros x Hx [<-|[]]. contradiction. }
      destruct (IH (acc ++ [w]) Hnd') as (H1 & H2 & H3).
      split; [assumption|].
      split; [|rewrite length_app in H3; cbn [List.length] in *; lia].
      intros x. rewrite H2, in_app_iff. cbn [In]. tauto.
Qed.

Context {cm : CaseMapping}.

(** X23.  [handleLoadWordlist] leaves in the worker the uppercased words of
    the list it was given, each one once, in ascending order of their code
    units, and posts their number, which is at most the number of words
    given; the set it keeps beside the list has the same words. *)
Theorem handleLoadWordlist_keeps_each_word_once (words : list jsstring) :
  let st := fst (SearchWorker.handleLoadWordlist words) in
  let count := snd (SearchWorker.handleLoadWordlist words) in
  NoDup (SearchWorker.wordlist st)
  /\ StronglySorted unitsLe (SearchWorker.wordlist st)
  /\ (forall w,
        In w (SearchWorker.wordlist st)
        <-> exists v, In v words /\ w = toUpperCase v)
  /\ count = Z.of_nat (List.length (SearchWorker.wordlist st))
  /\ count <= Z.of_nat (List.length words)
  /\ exists set,
       SearchWorker.wordSet st = Some set
       /\ forall w, Js.setHas set w = true <-> In w (SearchWorker.wordlist st).
Proof.
  cbn zeta. unfold SearchWorker.handleLoadWordlist.
  cbn [fst snd SearchWorker.wordlist SearchWorker.wordSet].
  destruct (setAdd_fold (map toUpperCase words) [] (NoDup_nil _))
    as (Hnd & Hin & Hlen).
  set (wordSet := fold_left Js.setAdd (map toUpperCase words) []) in *.
  assert (Hperm := sort_perm Js.compareUnits wordSet).
  split; [now apply (Permutation_NoDup Hperm)|].
  split.
  { apply (sort_sorted Js.compareUnits unitsLe).
    - apply unitsLe_trans.
    - intros x y. apply compareUnits_decides.
    - intros x y. apply compareUnits_decides. }
  split.
  { intros w. rewrite sort_In, Hin, in_map_iff.
    split.
    - intros [[]|(v & <- & Hv)]. now exists v.
    - intros (v & Hv & ->). right. now exists v. }
  split; [reflexivity|].
  split.
  { rewrite <- (Permutation_length Hperm).
    rewrite length_map in Hlen. cbn [List.length] in Hlen. lia. }
  exists wordSet. split; [reflexivity|].
  intros w. now rewrite setHas_In, sort_In.
Qed.

End WordList.

(** * The program on concrete inputs

    From here on the Latin-1 case mapping runs the program. *)

#[export] Existing Instance latin1.

Section Scenarios.

Example alphabet_literal :
  Js.str "ABCDEFGHIJKLMNOPQRSTUVWXYZÆØÅ" = Utils.DANISH_ALPHABET.
Proof. reflexivity. Qed.

Example rack_literal :
  rackOf (Js.str "træon") = rackTRAEON /\ jokersOf (Js.str "træ?on") = 1.
Proof. split; reflexivity. Qed.

(** Scenario 1 of the specification. *)
Example scenario_subsets :
  SearchEngine.results
    (SearchEngine.searchWords [Js.str "TRÆ"; Js.str "NOR"; Js.str "TRÆON"]
       (Js.str "TRÆON") SearchEngine.noFilters)
  = [found "TRÆON" 10 0; found "TRÆ" 7 0; found "NOR" 4 0].
Proof. vm_compute. reflexivity. Qed.

(** Scenario 2: one wildcard stands in for K and takes the highest value
    off. *)
Example scenario_wildcard :
  SearchEngine.results
    (SearchEngine.searchWords [Js.str "TRÆKON"] (Js.str "TRÆ?ON")
       SearchEngine.noFilters)
  = [found "TRÆKON" 9 1].
Proof. vm_compute. reflexivity. Qed.

(** Scenario 3: the board pattern [M*]. *)
Example scenario_board_pattern :
  map SearchEngine.word
    (SearchEngine.results
       (SearchEngine.searchWords [Js.str "MAND"; Js.str "KAT"; Js.str "MOR"]
          (Js.str "ANDOR") (onBoard "M*")))
  = [Js.str "MAND"; Js.str "MOR"].
Proof. vm_compute. reflexivity. Qed.

End Scenarios.

(** C1.  The code breaks the claim: with the rack [??] [searchWords]
    returns AB, laid with two wildcards, although the rack holds neither A
    nor B.  The comment above the test in [searchWords] reads "MUST use at
    least one user letter (not just board letters and jokers)", and the
    worker's search returns nothing here. *)
Lemma joker_only_word_is_returned :
  In (found "AB" 0 2)
    (SearchEngine.results
       (SearchEngine.searchWords [Js.str "AB"] (Js.str "??")
          SearchEngine.noFilters))
  /\ forall c, In c (Js.str "AB") -> rackCount (rackOf (Js.str "??")) c = 0.
Proof.
  split.
  - vm_compute. left. reflexivity.
  - intros c Hc. reflexivity.
Qed.

(** TRÆKON from the rack [TRÆ?ON]: the wildcard stands in for K. *)
Lemma searchWords_uses_rack_tile_witness :
  In (found "TRÆKON" 9 1)
    (SearchEngine.results
       (SearchEngine.searchWords [Js.str "TRÆKON"] (Js.str "TRÆ?ON")
          SearchEngine.noFilters))
  /\ exists c,
       In c (Js.str "TRÆKON")
       /\ 0 < residual (Some (boardOf SearchEngine.noFilters))
                (Js.str "TRÆKON") c
       /\ (0 < rackCount (rackOf (Js.str "TRÆ?ON")) c \/ 0 < 1).
Proof.
  assert (Hin : In (found "TRÆKON" 9 1)
    (SearchEngine.results
       (SearchEngine.searchWords [Js.str "TRÆKON"] (Js.str "TRÆ?ON")
          SearchEngine.noFilters))) by (vm_compute; left; reflexivity).
  split; [exact Hin|].
  exact (searchWords_uses_rack_tile _ _ _ _ Hin).
Defined.

(** C2.  The worker and the main thread disagree on a word that only
    wildcards cover: [searchWords] returns AB for the rack [??], the worker
    returns nothing. *)
Theorem worker_and_main_thread_differ :
  let words := [Js.str "AB"] in
  let worker := fst (SearchWorker.handleLoadWordlist words) in
  SearchWorker.wordlist worker = words
  /\ SearchEngine.results
       (SearchEngine.searchWords words (Js.str "??") SearchEngine.noFilters)
     = [found "AB" 0 2]
  /\ option_map SearchEngine.results
       (SearchWorker.handleSearch worker
          {| SearchWorker.lettersString := Js.str "??";
             SearchWorker.filters := SearchEngine.noFilters |})
     = Some [].
Proof. vm_compute. repeat split; reflexivity. Qed.

(** The worker also sorts its word list, so results that tie come out in a
    different order. *)
Lemma worker_and_main_thread_order_ties_differently :
  let words := [Js.str "BA"; Js.str "AB"] in
  let worker := fst (SearchWorker.handleLoadWordlist words) in
  SearchEngine.results
    (SearchEngine.searchWords words (Js.str "AB") SearchEngine.noFilters)
  = [found "BA" 4 0; found "AB" 4 0]
  /\ option_map SearchEngine.results
       (SearchWorker.handleSearch worker
          {| SearchWorker.lettersString := Js.str "AB";
             SearchWorker.filters := SearchEngine.noFilters |})
     = Some [found "AB" 4 0; found "BA" 4 0].
Proof. vm_compute. split; reflexivity. Qed.

(** TRÆKON against the rack T, R, Æ, O, N and one wildcard: one wildcard
    is required and used. *)
Lemma canFormWordWithExtras_wildcards_required_witness :
  let w := Js.str "TRÆKON" in
  nonneg rackTRAEON /\ boardOk None /\ NoDup w /\ incl w w
  /\ Utils.wildcardsUsed (Utils.canFormWordWithExtras w rackTRAEON 1 None)
     = wildcardsRequired rackTRAEON None w w
  /\ wildcardsRequired rackTRAEON None w w = 1.
Proof.
  intros w.
  assert (HR : nonneg rackTRAEON) by (repeat constructor; discriminate).
  assert (Hnd : NoDup w)
    by (repeat constructor; simpl; intuition discriminate).
  split; [exact HR|]. split; [exact I|]. split; [exact Hnd|].
  split; [apply incl_refl|]. split; [|reflexivity].
  apply (proj1 (proj2 (proj1 (canFormWordWithExtras_wildcards_required
                                w rackTRAEON 1 None w HR I Hnd
                                (incl_refl w))))).
  reflexivity.
Defined.

(** The same word without a wildcard to spend: not formable, and no
    wildcard reported. *)
Lemma wildcardsUsed_within_word_witness :
  let w := Js.str "TRÆKON" in
  let r := Utils.canFormWord w rackTRAEON 0 in
  nonneg rackTRAEON /\ boardOk None
  /\ (Utils.canForm r = false -> Utils.wildcardsUsed r = 0)
  /\ 0 <= Utils.wildcardsUsed r <= Js.length w.
Proof.
  intros w r.
  assert (HR : nonneg rackTRAEON) by (repeat constructor; discriminate).
  split; [exact HR|]. split; [exact I|].
  apply (wildcardsUsed_within_word w rackTRAEON 0 None HR I r).
  left. reflexivity.
Defined.

(** TRÆKON with one wildcard: 13 points less the 4 of Æ. *)
Lemma scoreWord_minus_highest_witness :
  0 <= 1 <= Js.length (Js.str "TRÆKON")
  /\ scoresWithout Scoring.getLetterValue Scoring.scoreWord (Js.str "TRÆKON") 1
  /\ Scoring.scoreWord (Js.str "TRÆKON") 1 = 13 - 4.
Proof.
  assert (Hk : 0 <= 1 <= Js.length (Js.str "TRÆKON")) by (vm_compute; split; discriminate).
  split; [exact Hk|]. split; [|reflexivity].
  exact (proj1 (scoreWord_minus_highest (Js.str "TRÆKON") 1 Hk)).
Defined.

(** C5, as the specification states it, fails below the range: a negative
    wildcard count makes the score 0, not the sum of the letter values. *)
Lemma negative_jokers_score_zero :
  Scoring.scoreWord (Js.str "A") (-1) = 0
  /\ Zsum (map Scoring.getLetterValue (Js.str "A")) = 1.
Proof. split; reflexivity. Qed.

(** Four wildcards for the three letters of KAT leave its 6 points. *)
Lemma scoreWord_outside_range_witness :
  Js.str "KAT" <> []
  /\ Js.length (Js.str "KAT") < 4
  /\ Scoring.scoreWord (Js.str "KAT") 4
     = Zsum (map Scoring.getLetterValue (Js.str "KAT")).
Proof.
  assert (Hw : Js.str "KAT" <> []) by (vm_compute; discriminate).
  assert (Hk : Js.length (Js.str "KAT") < 4) by reflexivity.
  split; [exact Hw|]. split; [exact Hk|].
  exact (proj1 (proj1 (scoreWord_outside_range (Js.str "KAT") 4 Hw) Hk)).
Defined.

(** C6, as the specification states it, fails on a space: the normalized
    string [A B] holds none of [?], [_], [*], yet the scan counts one
    wildcard. *)
Lemma space_counts_as_wildcard :
  let n := Utils.normalizeString (Js.str " a  b ") in
  n = Js.str "A B"
  /\ occ 63 n + occ 95 n + occ 42 n = 0
  /\ Utils.wildcards (Utils.parseLetters (Js.str " a  b ")) = 1
  /\ Utils.wildcards (SearchWorker.parseLetters (Js.str " a  b ")) = 1.
Proof. vm_compute. repeat split; reflexivity. Qed.

(** At the caps and one step beyond: 50 characters with 15 dots match a
    word of 50 letters A; a 51st character or a 16th symbol is refused. *)
Lemma matchesBoardPattern_caps_witness :
  let word := repeat 65 50 in
  let trimmed := toUpperCase (Js.trim patternAtCaps) in
  (trimmed <> [] /\ Js.length trimmed = 50 /\ wildcardSymbols trimmed = 15)
  /\ SearchEngine.matchesBoardPattern word patternAtCaps = true
  /\ SearchEngine.matchesBoardPattern (65 :: word) (65 :: patternAtCaps)
     = false
  /\ SearchEngine.matchesBoardPattern word (repeat 65 34 ++ repeat 46 16)
     = false.
Proof.
  intros word trimmed.
  assert (Hne : trimmed <> []) by (vm_compute; discriminate).
  assert (Hlen : Js.length trimmed <= 50) by (vm_compute; discriminate).
  assert (Hsym : wildcardSymbols trimmed <= 15) by (vm_compute; discriminate).
  split; [repeat split; auto; reflexivity|].
  split; [|split].
  - rewrite (proj2 (matchesBoardPattern_caps word patternAtCaps) Hne Hlen Hsym).
    vm_compute. reflexivity.
  - apply (proj1 (matchesBoardPattern_caps (65 :: word) (65 :: patternAtCaps))).
    left. vm_compute. reflexivity.
  - apply (proj1 (matchesBoardPattern_caps word
                    (repeat 65 34 ++ repeat 46 16))).
    right. vm_compute. reflexivity.
Defined.

(** C8.  An unrecognized [sortBy] sorts by score alone: AND, formed with a
    wildcard, stays ahead of AN with the same score and no wildcard, while
    [sortBy = 'score'] puts AN first. *)
Theorem unrecognized_sortBy_skips_tie_breaks :
  let words := [Js.str "AND"; Js.str "AN"] in
  SearchEngine.results
    (SearchEngine.searchWords words (Js.str "AN?") (sortingBy "points"))
  = [found "AND" 2 1; found "AN" 2 0]
  /\ SearchEngine.results
       (SearchEngine.searchWords words (Js.str "AN?") (sortingBy "score"))
     = [found "AN" 2 0; found "AND" 2 1]
  /\ ~ scoreOrder (found "AND" 2 1) (found "AN" 2 0).
Proof.
  split; [vm_compute; reflexivity|]. split; [vm_compute; reflexivity|].
  unfold scoreOrder. cbn. lia.
Qed.

(** Scenario 6 of the specification, with a word in Z added: the words in
    Å come last. *)
Lemma alpha_sort_follows_danish_alphabet_witness :
  let words := [Js.str "ÅL"; Js.str "ZOO"; Js.str "ÅBEN"; Js.str "ABE"] in
  let out :=
    SearchEngine.results
      (SearchEngine.searchWords words (Js.str "ÅLBENAZO?") (sortingBy "alpha")) in
  SearchEngine.sortBy (sortingBy "alpha") = Some SearchEngine.s_alpha
  /\ StronglySorted alphaOrder out
  /\ map SearchEngine.word out
     = [Js.str "ABE"; Js.str "ZOO"; Js.str "ÅBEN"; Js.str "ÅL"].
Proof.
  intros words out.
  assert (Hs : SearchEngine.sortBy (sortingBy "alpha")
               = Some SearchEngine.s_alpha) by reflexivity.
  split; [exact Hs|]. split; [|vm_compute; reflexivity].
  exact (proj1 (alpha_sort_follows_danish_alphabet words
                  (Js.str "ÅLBENAZO?") (sortingBy "alpha") Hs)).
Defined.

(** ** The further properties on concrete inputs *)

(** AB from the rack [A] with one wildcard, and with a second one to
    spare. *)
Lemma more_wildcards_keep_the_answer_witness :
  let w := Js.str "AB" in
  let R := rackOf (Js.str "A") in
  1 <= 2
  /\ Utils.canForm (Utils.canFormWord w R 1) = true
  /\ Utils.canFormWord w R 2 = Utils.canFormWord w R 1.
Proof.
  intros w R.
  assert (Hle : 1 <= 2) by lia.
  assert (Hform : Utils.canForm (Utils.canFormWord w R 1) = true)
    by reflexivity.
  split; [exact Hle|]. split; [exact Hform|].
  exact (more_wildcards_keep_the_answer w R 1 2 None Hle
           (fun j => Utils.canFormWord w R j) (or_introl eq_refl) Hform).
Defined.

(** MAND from the rack [AND?]: the wildcard stands in for M, and with M on
    the board no wildcard is needed. *)
Lemma board_letters_never_hurt_witness :
  let w := Js.str "MAND" in
  let R := rackOf (Js.str "AND?") in
  let B := Some (boardOf (onBoard "M*")) in
  Utils.canForm (Utils.canFormWord w R 1) = true
  /\ Utils.canForm (Utils.canFormWordWithExtras w R 1 B) = true
  /\ Utils.wildcardsUsed (Utils.canFormWordWithExtras w R 1 B)
     <= Utils.wildcardsUsed (Utils.canFormWord w R 1).
Proof.
  intros w R B.
  assert (Hform : Utils.canForm (Utils.canFormWord w R 1) = true)
    by reflexivity.
  split; [exact Hform|].
  exact (board_letters_never_hurt w R 1 B
           (rackOf_nonneg (Js.str "AND?")) (boardOf_ok (onBoard "M*")) Hform).
Defined.

(** NOR is eligible with the rack [TRÆON] and is found. *)
Lemma searchWords_misses_nothing_witness :
  let allWords := [Js.str "TRÆ"; Js.str "NOR"] in
  In (Js.str "NOR") allWords
  /\ eligible (Js.str "TRÆON") SearchEngine.noFilters (Js.str "NOR") = true
  /\ exists r,
       In r (SearchEngine.results
               (SearchEngine.searchWords allWords (Js.str "TRÆON")
                  SearchEngine.noFilters))
       /\ normalizedWord (SearchEngine.word r) = normalizedWord (Js.str "NOR").
Proof.
  intros allWords.
  assert (Hin : In (Js.str "NOR") allWords) by (right; left; reflexivity).
  assert (Hel : eligible (Js.str "TRÆON") SearchEngine.noFilters
                  (Js.str "NOR") = true) by (vm_compute; reflexivity).
  split; [exact Hin|]. split; [exact Hel|].
  exact (searchWords_misses_nothing allWords (Js.str "TRÆON")
           SearchEngine.noFilters (Js.str "NOR") Hin Hel).
Defined.

(** TRÆKON from the rack [TRÆ?ON] takes exactly the one wildcard. *)
Lemma searchWords_results_can_be_laid_witness :
  let r := found "TRÆKON" 9 1 in
  let w := SearchEngine.word r in
  In r (SearchEngine.results
          (SearchEngine.searchWords [Js.str "TRÆKON"] (Js.str "TRÆ?ON")
             SearchEngine.noFilters))
  /\ SearchEngine.usedJokers r
     = wildcardsRequired (rackOf (Js.str "TRÆ?ON"))
         (Some (boardOf SearchEngine.noFilters)) w (lettersOf w).
Proof.
  intros r w.
  assert (Hin : In r (SearchEngine.results
          (SearchEngine.searchWords [Js.str "TRÆKON"] (Js.str "TRÆ?ON")
             SearchEngine.noFilters))) by (vm_compute; left; reflexivity).
  split; [exact Hin|].
  exact (proj1 (searchWords_results_can_be_laid _ _ _ _ Hin)).
Defined.

(** The result for TRÆKON records its length and its score. *)
Lemma searchWords_results_are_scored_witness :
  let r := found "TRÆKON" 9 1 in
  let w := SearchEngine.word r in
  In r (SearchEngine.results
          (SearchEngine.searchWords [Js.str "TRÆKON"] (Js.str "TRÆ?ON")
             SearchEngine.noFilters))
  /\ In w [Js.str "TRÆKON"]
  /\ SearchEngine.score r = Scoring.scoreWord w (SearchEngine.usedJokers r).
Proof.
  intros r w.
  assert (Hin : In r (SearchEngine.results
          (SearchEngine.searchWords [Js.str "TRÆKON"] (Js.str "TRÆ?ON")
             SearchEngine.noFilters))) by (vm_compute; left; reflexivity).
  split; [exact Hin|].
  destruct (searchWords_results_are_scored _ _ _ _ Hin)
    as (Hw & _ & _ & Hscore & _).
  split; [exact Hw | exact Hscore].
Defined.

(** TRÆKON with one wildcard and with two. *)
Lemma scoreWord_decreases_with_wildcards_witness :
  let w := Js.str "TRÆKON" in
  (0 <= 1 /\ 1 <= 2 /\ 2 <= Js.length w)
  /\ Scoring.scoreWord w 2 <= Scoring.scoreWord w 1
  /\ SearchWorker.scoreWord w 2 <= SearchWorker.scoreWord w 1.
Proof.
  intros w.
  assert (H0 : 0 <= 1) by lia.
  assert (H1 : 1 <= 2) by lia.
  assert (H2 : 2 <= Js.length w) by (vm_compute; discriminate).
  split; [repeat split; assumption|].
  exact (scoreWord_decreases_with_wildcards w 1 2 H0 H1 H2).
Defined.

(** AB is in capitals already. *)
Lemma worker_scores_uppercase_words_alike_witness :
  let w := Js.str "AB" in
  (forall c, In c w -> toUpperCase [c] = [c])
  /\ SearchWorker.scoreWord w 1 = Scoring.scoreWord w 1.
Proof.
  intros w.
  assert (Hup : forall c, In c w -> toUpperCase [c] = [c])
    by (intros c [<- | [<- | []]]; reflexivity).
  split; [exact Hup|].
  exact (worker_scores_uppercase_words_alike w 1 Hup).
Defined.

(** MAND against the pattern [m*]. *)
Lemma matchesBoardPattern_decides_pattern_witness :
  let word := Js.str "MAND" in
  let pattern := Js.str " m* " in
  let trimmed := toUpperCase (Js.trim pattern) in
  (trimmed <> [] /\ Js.length trimmed <= 50 /\ wildcardSymbols trimmed <= 15)
  /\ patternMatches trimmed word.
Proof.
  intros word pattern trimmed.
  assert (Hne : trimmed <> []) by (vm_compute; discriminate).
  assert (Hlen : Js.length trimmed <= 50) by (vm_compute; discriminate).
  assert (Hsym : wildcardSymbols trimmed <= 15) by (vm_compute; discriminate).
  split; [repeat split; assumption|].
  apply (proj1 (matchesBoardPattern_decides_pattern word pattern
                  Hne Hlen Hsym)).
  vm_compute. reflexivity.
Defined.

(** The pattern [mand] matches MAND and nothing else. *)
Lemma literal_pattern_is_exact_match_witness :
  let pattern := Js.str "mand" in
  let trimmed := toUpperCase (Js.trim pattern) in
  (trimmed <> [] /\ Js.length trimmed <= 50 /\ literalPattern trimmed = true)
  /\ SearchEngine.matchesBoardPattern (Js.str "MANDE") pattern
     = Js.eqb (Js.str "MANDE") trimmed.
Proof.
  intros pattern trimmed.
  assert (Hne : trimmed <> []) by (vm_compute; discriminate).
  assert (Hlen : Js.length trimmed <= 50) by (vm_compute; discriminate).
  assert (Hlit : literalPattern trimmed = true) by (vm_compute; reflexivity).
  split; [repeat split; assumption|].
  exact (literal_pattern_is_exact_match (Js.str "MANDE") pattern
           Hne Hlen Hlit).
Defined.

(** The rack [træ?on] as typed, with spaces around it. *)
Lemma valid_rack_holds_letters_only_witness :
  let lettersString := Js.trim (Js.str " træ?on ") in
  Utils.isValidInput lettersString = true
  /\ (In 84 (JsMap.keys (rackOf lettersString))
      -> In 84 Utils.DANISH_ALPHABET).
Proof.
  intros lettersString.
  assert (Hvalid : Utils.isValidInput lettersString = true)
    by (vm_compute; reflexivity).
  split; [exact Hvalid|].
  exact (proj1 (valid_rack_holds_letters_only (Js.str " træ?on ") 84 Hvalid)).
Defined.

(** The default filters are valid and bound the length. *)
Lemma validated_filters_bound_the_length_witness :
  let f := SearchEngine.noFilters in
  let r := found "TRÆ" 7 0 in
  (SearchEngine.valid (SearchEngine.validateFilters f) = true
   /\ boundedMode f = true
   /\ In r (SearchEngine.results
              (SearchEngine.searchWords [Js.str "TRÆ"; Js.str "Å"]
                 (Js.str "TRÆON") f)))
  /\ 2 <= SearchEngine.length r <= 15.
Proof.
  intros f r.
  assert (Hvalid : SearchEngine.valid (SearchEngine.validateFilters f) = true)
    by reflexivity.
  assert (Hmode : boundedMode f = true) by reflexivity.
  assert (Hin : In r (SearchEngine.results
              (SearchEngine.searchWords [Js.str "TRÆ"; Js.str "Å"]
                 (Js.str "TRÆON") f))) by (vm_compute; left; reflexivity).
  split; [repeat split; assumption|].
  exact (proj1 (validated_filters_bound_the_length _ _ f r Hvalid Hmode Hin)).
Defined.

(** Three words from the rack [TRÆON], longest first. *)
Lemma length_sort_orders_by_length_then_score_witness :
  let f := sortingBy "length" in
  let out :=
    SearchEngine.results
      (SearchEngine.searchWords [Js.str "TRÆ"; Js.str "TRÆON"; Js.str "NOR"]
         (Js.str "TRÆON") f) in
  SearchEngine.sortBy f = Some SearchEngine.s_length
  /\ StronglySorted lengthOrder out
  /\ map SearchEngine.word out
     = [Js.str "TRÆON"; Js.str "TRÆ"; Js.str "NOR"].
Proof.
  intros f out.
  assert (Hs : SearchEngine.sortBy f = Some SearchEngine.s_length)
    by reflexivity.
  split; [exact Hs|]. split; [|vm_compute; reflexivity].
  exact (length_sort_orders_by_length_then_score
           [Js.str "TRÆ"; Js.str "TRÆON"; Js.str "NOR"] (Js.str "TRÆON") f Hs).
Defined.

(** [åbe] and [ÅBE] tie, and are one word in capitals. *)
Lemma compareDanish_ties_equal_words_only_witness :
  let a := Js.str "åbe" in
  let b := Js.str "ÅBE" in
  Utils.compareDanish a b = 0 /\ toUpperCase a = toUpperCase b.
Proof.
  intros a b.
  assert (Ha : Forall (fun c => In c Utils.DANISH_ALPHABET) (toUpperCase a))
    by (vm_compute;
        repeat (first [ apply Forall_nil
                      | apply Forall_cons;
                        [repeat (first [left; reflexivity | right])|] ])).
  assert (Hb : Forall (fun c => In c Utils.DANISH_ALPHABET) (toUpperCase b))
    by (vm_compute;
        repeat (first [ apply Forall_nil
                      | apply Forall_cons;
                        [repeat (first [left; reflexivity | right])|] ])).
  assert (Hzero : Utils.compareDanish a b = 0) by (vm_compute; reflexivity).
  split; [exact Hzero|].
  exact (compareDanish_ties_equal_words_only a b Ha Hb Hzero).
Defined.
